(** * breaklab-blog: the content pipeline of [main.go]

    A shallow embedding of the content pipeline (metadata extraction, heading
    indexing, collection ranking, post and collection loading, reading time,
    feed dates), of the request handlers, the static exporter and the colour
    function of the templates,
    together with the properties its specification states about it and
    further properties of the code.

    Go strings are byte sequences; they are modelled by [string] (sequences of
    8-bit [ascii]).  Slices are lists.  The file system and the clock are an
    explicit parameter of the functions that use them.  The library routines
    the pipeline calls ([strings], [regexp], [time], [path/filepath],
    [sort], [float64] arithmetic) are modelled next to it.  What the server
    and the exporter do beside reading the content (templates, the XML
    encoder, writes to the file system and to the response) is recorded as a
    sequence of effects.

    The file has four parts: the embedding, sanity checks that run it on
    small inputs, the properties of the specification with their proofs, and
    further properties of the code. *)

From Stdlib Require Import ZArith Lia Bool Ascii String.
From Stdlib Require Import Floats.SpecFloat.
From stdpp Require Import list strings sorting.

(** * Part I: the embedding *)

(** ** Go's [strings] package on byte strings *)

Module Strings.

Fixpoint drop (n : nat) (s : string) : string :=
  match n, s with
  | O, _ => s
  | S k, String _ r => drop k r
  | S _, EmptyString => EmptyString
  end.

Fixpoint take (n : nat) (s : string) : string :=
  match n, s with
  | S k, String c r => String c (take k r)
  | _, _ => EmptyString
  end.

(** [strings.HasPrefix(s, prefix)] *)
Definition HasPrefix (s pre : string) : bool := String.prefix pre s.

(** [strings.TrimPrefix(s, prefix)] *)
Definition TrimPrefix (s pre : string) : string :=
  if HasPrefix s pre then drop (String.length pre) s else s.

(** [strings.HasSuffix(s, suffix)]:
    [len(s) >= len(suffix) && s[len(s)-len(suffix):] == suffix] *)
Definition HasSuffix (s suf : string) : bool :=
  (String.length suf <=? String.length s)%nat
  && String.eqb (drop (String.length s - String.length suf) s) suf.

(** [strings.TrimSuffix(s, suffix)] *)
Definition TrimSuffix (s suf : string) : string :=
  if HasSuffix s suf
  then take (String.length s - String.length suf) s
  else s.

(** [strings.Contains(s, substr)]: some position of [s] starts with
    [substr]. *)
Fixpoint Contains (s substr : string) : bool :=
  HasPrefix s substr ||
  match s with
  | EmptyString => false
  | String _ r => Contains r substr
  end.

(** [strings.Split(s, sep)] for a one-byte separator (the pipeline only
    splits on a newline).  The result always has one more element than
    there are separators; the empty string yields one empty element. *)
Fixpoint Split (s : string) (sep : ascii) : list string :=
  match s with
  | EmptyString => [EmptyString]
  | String c r =>
      if Ascii.eqb c sep then EmptyString :: Split r sep
      else match Split r sep with
           | x :: xs => String c x :: xs
           | [] => [String c EmptyString]
           end
  end.

(** [strings.Join(elems, sep)] *)
Definition Join (elems : list string) (sep : string) : string :=
  String.concat sep elems.

Definition bytes (l : list nat) : string :=
  string_of_list_ascii (List.map ascii_of_nat l).

(** The UTF-8 encodings of the runes for which [unicode.IsSpace] holds:
    the six ASCII ones, U+0085, U+00A0, U+1680, U+2000..U+200A, U+2028,
    U+2029, U+202F, U+205F and U+3000. *)
Definition spaces : list string :=
  List.map bytes
    ([ [9]; [10]; [11]; [12]; [13]; [32];
       [194; 133]; [194; 160]; [225; 154; 128] ]
     ++ List.map (fun k => [226; 128; 128 + k]) (seq 0 11)
     ++ [ [226; 128; 168]; [226; 128; 169]; [226; 128; 175];
          [226; 129; 159]; [227; 128; 128] ])%nat.

(** Width in bytes of the white-space rune that starts [s], [0] if [s]
    does not start with one.  Every encoding above starts with an ASCII
    byte or a UTF-8 lead byte, and a lead byte is always where Go's decoder
    starts a rune, so matching bytes agrees with decoding runes. *)
Definition space_width (s : string) : nat :=
  match List.find (fun p => HasPrefix s p) spaces with
  | Some p => String.length p
  | None => O
  end.

(** Same, for the rune that ends [s] (as [utf8.DecodeLastRuneInString]
    sees it). *)
Definition space_width_end (s : string) : nat :=
  match List.find (fun p => HasSuffix s p) spaces with
  | Some p => String.length p
  | None => O
  end.

Fixpoint TrimLeftSpace_go (skip : nat) (s : string) : string :=
  match skip, s with
  | S k, String _ r => TrimLeftSpace_go k r
  | S _, EmptyString => EmptyString
  | O, EmptyString => EmptyString
  | O, String _ r =>
      match space_width s with
      | O => s
      | S k => TrimLeftSpace_go k r
      end
  end.

Definition TrimLeftSpace (s : string) : string := TrimLeftSpace_go 0 s.

Fixpoint TrimRightSpace_go (fuel : nat) (s : string) : string :=
  match fuel with
  | O => s
  | S fuel' =>
      match space_width_end s with
      | O => s
      | w => TrimRightSpace_go fuel' (take (String.length s - w) s)
      end
  end.

Definition TrimRightSpace (s : string) : string :=
  TrimRightSpace_go (String.length s) s.

(** [strings.TrimSpace(s)]: all leading and trailing white space, as
    defined by Unicode, removed. *)
Definition TrimSpace (s : string) : string :=
  TrimRightSpace (TrimLeftSpace s).

(** [strings.Fields(s)]: the maximal runs of non-white-space bytes. [cur]
    is the field being read, reversed; [skip] counts the remaining bytes
    of a multi-byte white-space rune. *)
Fixpoint Fields_go (skip : nat) (cur : string) (s : string) : list string :=
  match s with
  | EmptyString =>
      match cur with EmptyString => [] | _ => [String.rev cur] end
  | String c r =>
      match skip with
      | S k => Fields_go k cur r
      | O =>
          match space_width s with
          | O => Fields_go 0 (String c cur) r
          | S k =>
              match cur with
              | EmptyString => Fields_go k EmptyString r
              | _ => String.rev cur :: Fields_go k EmptyString r
              end
          end
      end
  end.

Definition Fields (s : string) : list string := Fields_go 0 EmptyString s.

Definition is_upper (c : ascii) : bool :=
  let n := nat_of_ascii c in ((65 <=? n) && (n <=? 90))%nat.

Definition lower_byte (c : ascii) : ascii :=
  if is_upper c then ascii_of_nat (nat_of_ascii c + 32) else c.

(** [strings.ToLower(s)] as far as ASCII output goes: [A]..[Z] are
    lowered, and the only two other runes whose lower case is an ASCII
    letter, U+0130 (bytes C4 B0, lower case [i]) and U+212A (bytes E2 84 AA,
    lower case [k]), are mapped to it.  Every other non-ASCII byte is kept
    as it is: the callers below only look at the ASCII bytes of the
    result. *)
Fixpoint ToLower (s : string) : string :=
  match s with
  | EmptyString => EmptyString
  | String c r =>
      if HasPrefix s (bytes [196; 176]) then
        String "i"%char (drop 1 (ToLower r))
      else if HasPrefix s (bytes [226; 132; 170]) then
        String "k"%char (drop 2 (ToLower r))
      else String (lower_byte c) (ToLower r)
  end.

Fixpoint TrimLeftByte (s : string) (c : ascii) : string :=
  match s with
  | String a r => if Ascii.eqb a c then TrimLeftByte r c else s
  | EmptyString => EmptyString
  end.

(** [strings.Trim(s, cutset)] for a one-byte cutset. *)
Definition Trim (s : string) (c : ascii) : string :=
  String.rev (TrimLeftByte (String.rev (TrimLeftByte s c)) c).

End Strings.

Import Strings.

(** ** Metadata extractor *)

Fixpoint extractMeta_loop (prefix : string) (lines : list string) : string :=
  match lines with
  | [] => ""
  | line :: rest =>
      if HasPrefix line prefix
      then TrimSpace (TrimSuffix (TrimPrefix line prefix) " -->")
      else extractMeta_loop prefix rest
  end.

Definition extractMeta (lines : list string) (key : string) : string :=
  let prefix := "<!-- " +:+ key +:+ ": " in
  extractMeta_loop prefix lines.

Definition metaKeys : list string :=
  ["title:"; "date:"; "description:"; "collection:"].

(** The inner loop of [extractContent]: [isMeta] becomes true at the first
    key the line contains, and the loop breaks there. *)
Fixpoint isMeta_loop (line : string) (keys : list string) : bool :=
  match keys with
  | [] => false
  | key :: rest =>
      if Contains line key then true else isMeta_loop line rest
  end.

Definition extractContent_step (contentLines : list string) (line : string)
  : list string :=
  if HasPrefix line "<!--" && isMeta_loop line metaKeys
  then contentLines
  else contentLines ++ [line].

Definition extractContent (lines : list string) : string :=
  let contentLines := fold_left extractContent_step lines [] in
  Join contentLines (bytes [10]).

(** ** Heading indexer *)

Record TOCItem := { ID : string; Text : string; Level : nat }.

(** The four regular expressions of the source, each read with Go's
    leftmost-first semantics on bytes.  The bytes they test ([<], [>],
    newline, [a]-[z], [0]-[9]) are ASCII, and a byte of a multi-byte rune is
    never one of them, so matching bytes agrees with matching runes. *)
Module Regexp.

(** The text up to the first [>] and what follows it, if there is a [>]. *)
Fixpoint upto_gt (s : string) : option string :=
  match s with
  | EmptyString => None
  | String c r => if Ascii.eqb c ">" then Some r else upto_gt r
  end.

(** [regexp.MustCompile(`<[^>]*>`).ReplaceAllString(s, "")]: a match
    starts at a [<] that has a [>] after it and ends at the first such
    [>]. *)
Fixpoint strip_tags_go (fuel : nat) (s : string) : string :=
  match fuel with
  | O => s
  | S fuel' =>
      match s with
      | EmptyString => EmptyString
      | String c r =>
          if Ascii.eqb c "<" then
            match upto_gt r with
            | Some rest => strip_tags_go fuel' rest
            | None => String c (strip_tags_go fuel' r)
            end
          else String c (strip_tags_go fuel' r)
      end
  end.

Definition strip_tags (s : string) : string :=
  strip_tags_go (String.length s) s.

Definition is_lower_alnum (c : ascii) : bool :=
  let n := nat_of_ascii c in
  ((97 <=? n) && (n <=? 122) || (48 <=? n) && (n <=? 57))%nat.

(** [regexp.MustCompile(`[^a-z0-9]+`).ReplaceAllString(s, "-")]: every
    maximal run of bytes outside [a-z0-9] becomes one hyphen. [in_run]
    tells whether the previous byte was part of a run. *)
Fixpoint hyphenate_go (in_run : bool) (s : string) : string :=
  match s with
  | EmptyString => EmptyString
  | String c r =>
      if is_lower_alnum c then String c (hyphenate_go false r)
      else if in_run then hyphenate_go true r
      else String "-" (hyphenate_go true r)
  end.

Definition hyphenate (s : string) : string := hyphenate_go false s.

(** [\s] is [[\t\n\f\r ]] in Go's syntax. *)
Definition is_re_space (c : ascii) : bool :=
  let n := nat_of_ascii c in
  ((n =? 9) || (n =? 10) || (n =? 12) || (n =? 13) || (n =? 32))%nat.

(** [regexp.MustCompile(`\s+`).ReplaceAllString(s, " ")] *)
Fixpoint collapse_space_go (in_run : bool) (s : string) : string :=
  match s with
  | EmptyString => EmptyString
  | String c r =>
      if is_re_space c then
        if in_run then collapse_space_go true r
        else String " " (collapse_space_go true r)
      else String c (collapse_space_go false r)
  end.

Definition collapse_space (s : string) : string :=
  collapse_space_go false s.

(** The lazy group [(.*?)] followed by the closing tag: the shortest run
    of bytes other than a newline after which [close] follows.  Returns
    the group and the text after the closing tag. *)
Fixpoint lazy_until (close : string) (s : string) : option (string * string) :=
  if HasPrefix s close then Some (EmptyString, drop (String.length close) s)
  else
    match s with
    | EmptyString => None
    | String c r =>
        if Ascii.eqb c "010" then None
        else
          match lazy_until close r with
          | Some (inner, rest) => Some (String c inner, rest)
          | None => None
          end
    end.

(** A match of [open(.*?)close] that starts at the first byte of [s]. *)
Definition match_here (open close : string) (s : string)
  : option (string * string) :=
  if HasPrefix s open
  then lazy_until close (drop (String.length open) s)
  else None.

(** [re.FindStringSubmatch(s)[1]] for [re = open(.*?)close]: the group of
    the leftmost match, [None] when nothing matches (Go returns nil). *)
Fixpoint FindStringSubmatch1 (open close : string) (s : string)
  : option string :=
  match match_here open close s with
  | Some (inner, _) => Some inner
  | None =>
      match s with
      | EmptyString => None
      | String _ r => FindStringSubmatch1 open close r
      end
  end.

(** [re.ReplaceAllStringFunc(s, repl)] for [re = open(.*?)close], with a
    callback that also updates a state [St] (the closure of the source
    appends to [toc]).  Matches are found left to right and do not overlap;
    the callback receives the matched text. *)
Fixpoint ReplaceAllStringFunc_go {St : Type} (open close : string)
    (repl : string → St → string * St)
    (fuel : nat) (s : string) (st : St) : string * St :=
  match fuel with
  | O => (s, st)
  | S fuel' =>
      match match_here open close s with
      | Some (inner, rest) =>
          let '(out, st1) := repl (open +:+ inner +:+ close) st in
          let '(tail, st2) :=
            ReplaceAllStringFunc_go open close repl fuel' rest st1 in
          (out +:+ tail, st2)
      | None =>
          match s with
          | EmptyString => (EmptyString, st)
          | String c r =>
              let '(tail, st1) :=
                ReplaceAllStringFunc_go open close repl fuel' r st in
              (String c tail, st1)
          end
      end
  end.

Definition ReplaceAllStringFunc {St : Type} (open close : string)
    (repl : string → St → string * St) (s : string) (st : St)
  : string * St :=
  ReplaceAllStringFunc_go open close repl (S (String.length s)) s st.

End Regexp.

Definition generateID (text : string) : string :=
  let text := Regexp.strip_tags text in
  let text := ToLower text in
  let text := TrimSpace text in
  let text := Regexp.hyphenate text in
  Trim text "-".

(** The double-quote byte. *)
Definition dquote : string := bytes [34].

(** The callback of one pass of [processContentWithTOC] for the heading tag
    [hN]: it reads the heading text back out of the match, appends an outline
    entry and returns the rewritten heading. *)
Definition heading_callback (level : nat) (tag : string)
    (matched : string) (toc : list TOCItem) : string * list TOCItem :=
  let text :=
    default "" (Regexp.FindStringSubmatch1
                  ("<" +:+ tag +:+ ">") ("</" +:+ tag +:+ ">") matched) in
  let id := generateID text in
  ("<" +:+ tag +:+ " id=" +:+ dquote +:+ id +:+ dquote +:+ ">"
       +:+ text +:+ "</" +:+ tag +:+ ">",
   toc ++ [{| ID := id; Text := text; Level := level |}]).

Definition heading_pass (level : nat) (tag : string)
    (content : string) (toc : list TOCItem) : string * list TOCItem :=
  Regexp.ReplaceAllStringFunc ("<" +:+ tag +:+ ">") ("</" +:+ tag +:+ ">")
    (heading_callback level tag) content toc.

Definition processContentWithTOC (content : string)
  : string * list TOCItem :=
  let toc := [] in
  let '(content, toc) := heading_pass 2 "h2" content toc in
  let '(content, toc) := heading_pass 3 "h3" content toc in
  (content, toc).

(** ** Go's [time] package, for the one layout the pipeline parses *)

Module Time.

(** A [time.Time] as [time.Parse("2006-01-02", ...)] returns it: a calendar
    date at midnight, in UTC. *)
Record Time := { Year : Z; Month : Z; Day : Z }.

Definition digit (c : ascii) : option Z :=
  let n := Z.of_nat (nat_of_ascii c) in
  if (48 <=? n)%Z && (n <=? 57)%Z then Some (n - 48)%Z else None.

(** [getnum(s, true)]: exactly two digits. *)
Definition getnum2 (s : string) : option (Z * string) :=
  match s with
  | String a (String b r) =>
      match digit a, digit b with
      | Some x, Some y => Some (10 * x + y, r)%Z
      | _, _ => None
      end
  | _ => None
  end.

(** The [stdLongYear] case: four bytes, all digits. *)
Definition getyear (s : string) : option (Z * string) :=
  match s with
  | String a (String b (String c (String d r))) =>
      match digit a, digit b, digit c, digit d with
      | Some x, Some y, Some z, Some w =>
          Some (1000 * x + 100 * y + 10 * z + w, r)%Z
      | _, _, _, _ => None
      end
  | _ => None
  end.

(** [skip(value, "-")] *)
Definition skip_dash (s : string) : option string :=
  match s with
  | String c r => if Ascii.eqb c "-" then Some r else None
  | EmptyString => None
  end.

Definition isLeap (year : Z) : bool :=
  ((year mod 4 =? 0) && (negb (year mod 100 =? 0) || (year mod 400 =? 0)))%Z.

Definition daysIn (month year : Z) : Z :=
  if (month =? 2)%Z then (if isLeap year then 29 else 28)%Z
  else if ((month =? 4) || (month =? 6) || (month =? 9) || (month =? 11))%Z
       then 30%Z else 31%Z.

(** [time.Parse("2006-01-02", value)]; [None] stands for a non-nil error. *)
Definition Parse (value : string) : option Time :=
  '(year, value) ← getyear value;
  value ← skip_dash value;
  '(month, value) ← getnum2 value;
  if ((month <=? 0) || (12 <? month))%Z then None else
  value ← skip_dash value;
  '(day, value) ← getnum2 value;
  match value with
  | EmptyString =>
      if ((day <? 1) || (daysIn month year <? day))%Z then None
      else Some {| Year := year; Month := month; Day := day |}
  | _ => None
  end.

Definition longMonthNames : list string :=
  ["January"; "February"; "March"; "April"; "May"; "June"; "July";
   "August"; "September"; "October"; "November"; "December"].

Definition shortDayNames : list string :=
  ["Sun"; "Mon"; "Tue"; "Wed"; "Thu"; "Fri"; "Sat"].

Definition monthName (month : Z) : string :=
  default "" (longMonthNames !! Z.to_nat (month - 1)).

(** Days before the first of each month in a common year. *)
Definition daysBefore : list Z :=
  [0; 31; 59; 90; 120; 151; 181; 212; 243; 273; 304; 334]%Z.

(** Days from the first of January of year 0 of the proleptic Gregorian
    calendar, a Saturday, to the date. *)
Definition dayNumber (t : Time) : Z :=
  let y := Year t in
  (365 * y + (y + 3) / 4 - (y + 99) / 100 + (y + 399) / 400
   + default 0 (daysBefore !! Z.to_nat (Month t - 1))
   + (if isLeap y && (2 <? Month t) then 1 else 0)
   + (Day t - 1))%Z.

(** [t.Weekday()], Sunday being 0. *)
Definition Weekday (t : Time) : Z := ((dayNumber t + 6) mod 7)%Z.

Definition digit_char (d : Z) : ascii := ascii_of_nat (48 + Z.to_nat d).

(** [appendInt(b, x, width)] for [0 <= x], zero padded to [width] digits. *)
Fixpoint pad_digits (width : nat) (x : Z) (acc : string) : string :=
  match width with
  | O => acc
  | S w => pad_digits w (x / 10) (String (digit_char (x mod 10)) acc)
  end.

Definition itoa (x : Z) : string :=
  if (x <? 10)%Z then pad_digits 1 x ""
  else if (x <? 100)%Z then pad_digits 2 x ""
  else if (x <? 1000)%Z then pad_digits 3 x ""
  else pad_digits 4 x "".

(** [t.Format(time.RFC1123Z)], layout [Mon, 02 Jan 2006 15:04:05 -0700]. *)
Definition FormatRFC1123Z (t : Time) : string :=
  default "" (shortDayNames !! Z.to_nat (Weekday t)) +:+ ", "
  +:+ pad_digits 2 (Day t) "" +:+ " "
  +:+ take 3 (monthName (Month t)) +:+ " "
  +:+ pad_digits 4 (Year t) "" +:+ " 00:00:00 +0000".

(** [t.Format("January 2, 2006")] *)
Definition FormatLong (t : Time) : string :=
  monthName (Month t) +:+ " " +:+ itoa (Day t) +:+ ", "
  +:+ pad_digits 4 (Year t) "".

End Time.

(** ** Go's [float64], for the reading-time estimate *)

Module Float64.

Definition prec : Z := 53.
Definition emax : Z := 1024.

(** [float64(n)] for an integer [n]: the nearest binary64 number. *)
Definition of_int (n : Z) : spec_float := binary_normalize prec emax n 0 false.

(** [x / y] *)
Definition div (x y : spec_float) : spec_float := SFdiv prec emax x y.

(** [math.Max(x, y)], with its special cases in the order of the library:
    an infinity wins, then a NaN, then the sign of zeros. *)
Definition Max (x y : spec_float) : spec_float :=
  match x, y with
  | S754_infinity false, _ | _, S754_infinity false => S754_infinity false
  | S754_nan, _ | _, S754_nan => S754_nan
  | S754_zero sx, S754_zero _ => if sx then y else x
  | _, _ => if SFltb y x then x else y
  end.

(** [int(f)]: the fraction is discarded.  A value outside the range of
    [int] (or a NaN) gives what the amd64 conversion instruction gives, the
    least [int]; the pipeline never converts one. *)
Definition to_int (f : spec_float) : Z :=
  let min_int := (- 2 ^ 63)%Z in
  match f with
  | S754_zero _ => 0%Z
  | S754_finite s m e =>
      let a := match e with
               | Zneg p => Z.shiftr (Zpos m) (Zpos p)
               | _ => Z.shiftl (Zpos m) e
               end in
      let v := if s then (- a)%Z else a in
      if ((min_int <=? v) && (v <? 2 ^ 63))%Z then v else min_int
  | _ => min_int
  end.

End Float64.

(** [int(math.Max(float64(words)/200, 1.0))] *)
Definition readTime (words : Z) : Z :=
  Float64.to_int
    (Float64.Max (Float64.div (Float64.of_int words) (Float64.of_int 200))
                 (Float64.of_int 1)).

(** ** Go's [path/filepath] package on Unix paths *)

Module Filepath.

Definition slash : ascii := "/"%char.

(** One step of [Clean] over the elements of a path: empty and [.] elements
    vanish, [..] removes the element before it when there is one that is not
    itself [..], and otherwise stays in a relative path and vanishes in a
    rooted one.  [stack] holds the elements kept so far, last first. *)
Definition clean_step (rooted : bool) (stack : list string) (e : string)
  : list string :=
  if String.eqb e "" || String.eqb e "." then stack
  else if String.eqb e ".." then
    match stack with
    | top :: below =>
        if String.eqb top ".." then e :: stack else below
    | [] => if rooted then [] else [e]
    end
  else e :: stack.

(** [filepath.Clean(path)] *)
Definition Clean (path : string) : string :=
  let rooted := HasPrefix path "/" in
  let elems := rev (fold_left (clean_step rooted) (Split path slash) []) in
  let out := (if rooted then "/" else "") +:+ Join elems "/" in
  if String.eqb out "" then "." else out.

(** [filepath.Join(dir, name)] with a non-empty [dir]. *)
Definition Join (dir name : string) : string :=
  if String.eqb name "" then Clean dir else Clean (dir +:+ "/" +:+ name).

Fixpoint upto_slash (s : string) : string :=
  match s with
  | EmptyString => EmptyString
  | String c r => if Ascii.eqb c slash then EmptyString
                  else String c (upto_slash r)
  end.

(** [filepath.Base(path)]: the last element of the path. *)
Definition Base (path : string) : string :=
  if String.eqb path "" then "."
  else
    let last := String.rev (upto_slash (TrimLeftByte (String.rev path) slash)) in
    if String.eqb last "" then "/" else last.

End Filepath.

(** ** Go's [sort.Slice] (package [sort] of Go 1.19 and later) *)

(** [sort.Slice] runs the pattern-defeating quicksort of [zsortfunc.go] on
    the slice, through the two operations [Less(i, j)] and [Swap(i, j)] on
    indices.  The routines below follow that file one by one.  Loops are
    given the number of rounds they can take at most; every index they
    touch lies inside the slice, so the out-of-range cases of [Less] and
    [Swap] are never met. *)
Module Sort.

Section LessSwap.

Context {A : Type} (less : A → A → bool).

Definition Less (data : list A) (i j : nat) : bool :=
  match data !! i, data !! j with
  | Some x, Some y => less x y
  | _, _ => false
  end.

Definition Swap (data : list A) (i j : nat) : list A :=
  match data !! i, data !! j with
  | Some x, Some y => <[i:=y]> (<[j:=x]> data)
  | _, _ => data
  end.

(** [for j := i; j > a && data.Less(j, j-1); j-- { data.Swap(j, j-1) }] *)
Fixpoint insertionSort_inner (data : list A) (a j : nat) : list A :=
  match j with
  | O => data
  | S j' =>
      if (a <? j) && Less data j j'
      then insertionSort_inner (Swap data j j') a j'
      else data
  end.

(** [insertionSort_func(data, a, b)] *)
Definition insertionSort_func (data : list A) (a b : nat) : list A :=
  fold_left (λ data i, insertionSort_inner data a i)
    (seq (a + 1) (b - (a + 1))) data.

(** [siftDown_func(data, lo, hi, first)], [root] starting at [lo]. *)
Fixpoint siftDown_go (fuel : nat) (data : list A) (root hi first : nat)
  : list A :=
  match fuel with
  | O => data
  | S fuel' =>
      let child := 2 * root + 1 in
      if hi <=? child then data
      else
        let child :=
          if (child + 1 <? hi) && Less data (first + child) (first + child + 1)
          then child + 1 else child in
        if negb (Less data (first + root) (first + child)) then data
        else siftDown_go fuel' (Swap data (first + root) (first + child))
               child hi first
  end.

Definition siftDown_func (data : list A) (lo hi first : nat) : list A :=
  siftDown_go hi data lo hi first.

(** [heapSort_func(data, a, b)] *)
Definition heapSort_func (data : list A) (a b : nat) : list A :=
  let first := a in
  let lo := 0 in
  let hi := b - a in
  let data :=
    fold_left (λ data i, siftDown_func data i hi first)
      (rev (seq 0 ((hi - 1) / 2 + 1))) data in
  fold_left (λ data i, siftDown_func (Swap data first (first + i)) lo i first)
    (rev (seq 0 hi)) data.

Inductive sortedHint := unknownHint | increasingHint | decreasingHint.

(** [order2_func]: the two indices in the order of their elements, and the
    counter of swaps. *)
Definition order2_func (data : list A) (a b swaps : nat) : nat * nat * nat :=
  if Less data b a then (b, a, S swaps) else (a, b, swaps).

Definition median_func (data : list A) (a b c swaps : nat) : nat * nat :=
  let '(a, b, swaps) := order2_func data a b swaps in
  let '(b, c, swaps) := order2_func data b c swaps in
  let '(a, b, swaps) := order2_func data a b swaps in
  (b, swaps).

Definition medianAdjacent_func (data : list A) (a swaps : nat) : nat * nat :=
  median_func data (a - 1) a (a + 1) swaps.

Definition shortestNinther : nat := 50.
Definition maxSwaps : nat := 4 * 3.

Definition choosePivot_func (data : list A) (a b : nat) : nat * sortedHint :=
  let l := b - a in
  let swaps := 0 in
  let i := a + l / 4 * 1 in
  let j := a + l / 4 * 2 in
  let k := a + l / 4 * 3 in
  let '(j, swaps) :=
    if 8 <=? l then
      let '(i, j, k, swaps) :=
        if shortestNinther <=? l then
          let '(i, swaps) := medianAdjacent_func data i swaps in
          let '(j, swaps) := medianAdjacent_func data j swaps in
          let '(k, swaps) := medianAdjacent_func data k swaps in
          (i, j, k, swaps)
        else (i, j, k, swaps) in
      median_func data i j k swaps
    else (j, swaps) in
  if swaps =? 0 then (j, increasingHint)
  else if swaps =? maxSwaps then (j, decreasingHint)
  else (j, unknownHint).

(** [reverseRange_func(data, a, b)], [i] and [j] moving towards each
    other. *)
Fixpoint reverseRange_go (fuel : nat) (data : list A) (i j : nat) : list A :=
  match fuel with
  | O => data
  | S fuel' =>
      if i <? j then reverseRange_go fuel' (Swap data i j) (i + 1) (j - 1)
      else data
  end.

Definition reverseRange_func (data : list A) (a b : nat) : list A :=
  reverseRange_go (b - a) data a (b - 1).

(** [for i < b && !data.Less(i, i-1) { i++ }] *)
Fixpoint scan_in_order (fuel : nat) (data : list A) (i b : nat) : nat :=
  match fuel with
  | O => i
  | S fuel' =>
      if (i <? b) && negb (Less data i (i - 1))
      then scan_in_order fuel' data (i + 1) b
      else i
  end.

(** [for j := i - 1; j >= 1; j-- { if !data.Less(j, j-1) { break };
    data.Swap(j, j-1) }] *)
Fixpoint shift_left (data : list A) (j : nat) : list A :=
  match j with
  | O => data
  | S j' =>
      if negb (Less data j j') then data
      else shift_left (Swap data j j') j'
  end.

(** [for j := i + 1; j < b; j++ { if !data.Less(j, j-1) { break };
    data.Swap(j, j-1) }] *)
Fixpoint shift_right (fuel : nat) (data : list A) (j b : nat) : list A :=
  match fuel with
  | O => data
  | S fuel' =>
      if j <? b then
        if negb (Less data j (j - 1)) then data
        else shift_right fuel' (Swap data j (j - 1)) (j + 1) b
      else data
  end.

Definition maxSteps : nat := 5.
Definition shortestShifting : nat := 50.

(** The outer loop of [partialInsertionSort_func], [steps] rounds left. *)
Fixpoint partialInsertionSort_go (steps : nat) (data : list A) (i a b : nat)
  : list A * bool :=
  match steps with
  | O => (data, false)
  | S steps' =>
      let i := scan_in_order (b - i) data i b in
      if i =? b then (data, true)
      else if b - a <? shortestShifting then (data, false)
      else
        let data := Swap data i (i - 1) in
        let data := if 2 <=? i - a then shift_left data (i - 1) else data in
        let data :=
          if 2 <=? b - i then shift_right (b - (i + 1)) data (i + 1) b
          else data in
        partialInsertionSort_go steps' data i a b
  end.

Definition partialInsertionSort_func (data : list A) (a b : nat)
  : list A * bool :=
  partialInsertionSort_go maxSteps data (a + 1) a b.

(** [for i <= j && cond(i) { i++ }] *)
Fixpoint scan_up (cond : nat → bool) (fuel i j : nat) : nat :=
  match fuel with
  | O => i
  | S fuel' => if (i <=? j) && cond i then scan_up cond fuel' (i + 1) j else i
  end.

(** [for i <= j && cond(j) { j-- }] *)
Fixpoint scan_down (cond : nat → bool) (fuel i j : nat) : nat :=
  match fuel with
  | O => j
  | S fuel' =>
      if (i <=? j) && cond j then scan_down cond fuel' i (j - 1) else j
  end.

(** The loop of [partitionEqual_func]; returns the data and the final
    [i]. *)
Fixpoint partitionEqual_loop (fuel : nat) (data : list A) (a i j : nat)
  : list A * nat :=
  match fuel with
  | O => (data, i)
  | S fuel' =>
      let i := scan_up (λ i, negb (Less data a i)) (S j - i) i j in
      let j := scan_down (λ j, Less data a j) (S j - i) i j in
      if j <? i then (data, i)
      else partitionEqual_loop fuel' (Swap data i j) a (i + 1) (j - 1)
  end.

Definition partitionEqual_func (data : list A) (a b pivot : nat)
  : list A * nat :=
  let data := Swap data a pivot in
  partitionEqual_loop (b - a) data a (a + 1) (b - 1).

(** The final loop of [partition_func]; returns the data and the final
    [j]. *)
Fixpoint partition_loop (fuel : nat) (data : list A) (a i j : nat)
  : list A * nat :=
  match fuel with
  | O => (data, j)
  | S fuel' =>
      let i := scan_up (λ i, Less data i a) (S j - i) i j in
      let j := scan_down (λ j, negb (Less data j a)) (S j - i) i j in
      if j <? i then (data, j)
      else partition_loop fuel' (Swap data i j) a (i + 1) (j - 1)
  end.

Definition partition_func (data : list A) (a b pivot : nat)
  : list A * nat * bool :=
  let data := Swap data a pivot in
  let i := a + 1 in
  let j := b - 1 in
  let i := scan_up (λ i, Less data i a) (S j - i) i j in
  let j := scan_down (λ j, negb (Less data j a)) (S j - i) i j in
  if j <? i then (Swap data j a, j, true)
  else
    let data := Swap data i j in
    let '(data, j) := partition_loop (b - a) data a (i + 1) (j - 1) in
    (Swap data j a, j, false).

(** [bits.Len(uint(x))] *)
Definition bits_Len (x : nat) : nat :=
  match x with
  | O => 0
  | _ => S (Nat.log2 x)
  end.

Definition mask64 : Z := (2 ^ 64 - 1)%Z.

(** [xorshift.Next()] on a [uint64]. *)
Definition xorshift_Next (r : Z) : Z :=
  let r := Z.lxor r (Z.land (Z.shiftl r 13) mask64) in
  let r := Z.lxor r (Z.shiftr r 7) in
  let r := Z.lxor r (Z.land (Z.shiftl r 17) mask64) in
  r.

(** [breakPatterns_func(data, a, b)] *)
Definition breakPatterns_func (data : list A) (a b : nat) : list A :=
  let length := b - a in
  if 8 <=? length then
    let random := Z.of_nat length in
    let modulus := 2 ^ bits_Len length in
    let idx := a + length / 4 * 2 - 1 in
    (fold_left
       (λ '(data, random) i,
          let random := xorshift_Next random in
          let other := Z.to_nat (Z.land random (Z.of_nat modulus - 1)) in
          let other := if length <=? other then other - length else other in
          (Swap data (idx - 1 + i) (a + other), random))
       (seq 0 3) (data, random)).1
  else data.

(** [pdqsort_func(data, a, b, limit)]: one unit of [fuel] per round of its
    loop and per call.  The two flags are the locals [wasBalanced] and
    [wasPartitioned], which a call starts at [true]. *)
Fixpoint pdqsort_go (fuel : nat) (data : list A) (a b limit : nat)
    (wasBalanced wasPartitioned : bool) : list A :=
  match fuel with
  | O => data
  | S fuel' =>
      let length := b - a in
      if length <=? 12 then insertionSort_func data a b
      else if limit =? 0 then heapSort_func data a b
      else
        let '(data, limit) :=
          if negb wasBalanced then (breakPatterns_func data a b, limit - 1)
          else (data, limit) in
        let '(pivot, hint) := choosePivot_func data a b in
        let '(data, pivot, hint) :=
          match hint with
          | decreasingHint =>
              (reverseRange_func data a b, (b - 1) - (pivot - a),
               increasingHint)
          | _ => (data, pivot, hint)
          end in
        let '(data, sorted) :=
          match hint with
          | increasingHint =>
              if wasBalanced && wasPartitioned
              then partialInsertionSort_func data a b
              else (data, false)
          | _ => (data, false)
          end in
        if sorted then data
        else if (0 <? a) && negb (Less data (a - 1) pivot) then
          let '(data, mid) := partitionEqual_func data a b pivot in
          pdqsort_go fuel' data mid b limit wasBalanced wasPartitioned
        else
          let '(data, mid, alreadyPartitioned) :=
            partition_func data a b pivot in
          let wasPartitioned := alreadyPartitioned in
          let leftLen := mid - a in
          let rightLen := b - mid in
          let balanceThreshold := length / 8 in
          if leftLen <? rightLen then
            let wasBalanced := balanceThreshold <=? leftLen in
            let data := pdqsort_go fuel' data a mid limit true true in
            pdqsort_go fuel' data (mid + 1) b limit wasBalanced wasPartitioned
          else
            let wasBalanced := balanceThreshold <=? rightLen in
            let data := pdqsort_go fuel' data (mid + 1) b limit true true in
            pdqsort_go fuel' data a mid limit wasBalanced wasPartitioned
  end.

Definition pdqsort_func (data : list A) (a b limit : nat) : list A :=
  pdqsort_go (S (b - a)) data a b limit true true.

(** [sort.Slice(x, less)] *)
Definition Slice (x : list A) : list A :=
  let length := length x in
  let limit := bits_Len length in
  pdqsort_func x 0 length limit.

End LessSwap.

End Sort.

(** ** The data model of [main.go] *)

Record Post := {
  Slug : string;
  Title : string;
  Description : string;
  Date : string;
  RawDate : string;
  Collection : string;
  CollectionTitle : string;
  CollectionDescription : string;
  CollectionIndex : Z;
  CollectionTotal : Z;
  Content : string;
  ReadTimeInMinutes : Z;
  TOC : list TOCItem;
  PageType : string
}.

Module Coll.
Record Collection := {
  Slug : string;
  Title : string;
  Description : string;
  DescriptionText : string;
  Posts : list Post;
  PageType : string
}.
End Coll.

Module Feed.
Record Item := {
  Title : string;
  Link : string;
  Description : string;
  PubDate : string;
  GUID : string
}.
End Feed.

(** ** The operating system as the pipeline sees it *)

(** A Go [error] value; only its presence matters to the pipeline. *)
Definition error : Type := string.

Inductive result (A : Type) : Type :=
| Ok (a : A)
| Err (e : error).
Arguments Ok {A} a.
Arguments Err {A} e.

(** One call that [filepath.WalkDir] makes to its callback: the path, whether
    the entry is a directory, and the error the walk met there, if any. *)
Record DirEntry := {
  path : string;
  IsDir : bool;
  walkErr : option error
}.

(** The state of the world during one load: the calls [filepath.WalkDir]
    makes for a root, in its order, when the callback keeps returning nil
    (the pipeline never asks to skip a directory); [os.ReadFile]; and the
    date [time.Now().Format("2006-01-02")]. *)
Record OS := {
  walk : string → list DirEntry;
  ReadFile : string → result string;
  today : string
}.

(** [filepath.WalkDir(root, fn)]: the callback is run on each entry until it
    returns an error, which ends the walk and is returned. [St] is the state
    the closure updates. *)
Fixpoint WalkDir_loop {St : Type} (fn : DirEntry → St → result St)
    (entries : list DirEntry) (st : St) : result St :=
  match entries with
  | [] => Ok st
  | d :: rest =>
      match fn d st with
      | Ok st' => WalkDir_loop fn rest st'
      | Err e => Err e
      end
  end.

Definition WalkDir {St : Type} (os : OS) (root : string)
    (fn : DirEntry → St → result St) (st : St) : result St :=
  WalkDir_loop fn (walk os root) st.

Definition newline : ascii := "010"%char.

(** The raw metadata the ranker keeps of a post file. *)
Record postInfo := { slug : string; date : string }.

(** The 1-based position of the first entry with the slug, [0] when there is
    none: the loop at the end of [getCollectionPosition]. [i] is the index
    of the head of the list. *)
Fixpoint position_loop (currentSlug : string) (i : Z) (l : list postInfo) : Z :=
  match l with
  | [] => 0
  | p :: rest =>
      if String.eqb (slug p) currentSlug then (i + 1)%Z
      else position_loop currentSlug (i + 1)%Z rest
  end.

Definition set_Title (p : Post) (title : string) : Post :=
  {| Slug := Slug p; Title := title; Description := Description p;
     Date := Date p; RawDate := RawDate p; Collection := Collection p;
     CollectionTitle := CollectionTitle p;
     CollectionDescription := CollectionDescription p;
     CollectionIndex := CollectionIndex p;
     CollectionTotal := CollectionTotal p; Content := Content p;
     ReadTimeInMinutes := ReadTimeInMinutes p; TOC := TOC p;
     PageType := PageType p |}.

Definition set_ReadTimeInMinutes (p : Post) (minutes : Z) : Post :=
  {| Slug := Slug p; Title := Title p; Description := Description p;
     Date := Date p; RawDate := RawDate p; Collection := Collection p;
     CollectionTitle := CollectionTitle p;
     CollectionDescription := CollectionDescription p;
     CollectionIndex := CollectionIndex p;
     CollectionTotal := CollectionTotal p; Content := Content p;
     ReadTimeInMinutes := minutes; TOC := TOC p;
     PageType := PageType p |}.

Definition stripHTML (s : string) : string :=
  let text := Regexp.strip_tags s in
  let text := Regexp.collapse_space text in
  TrimSpace text.

(** ** The pipeline

    [sort.Slice(x, less)] takes [less] on elements here: the closures of the
    source compare the elements at two indices of the slice being sorted. *)

Section Pipeline.

Variable os : OS.

Definition getCollectionPosition_fn (collectionSlug : string)
    (d : DirEntry) (postsInCollection : list postInfo)
  : result (list postInfo) :=
  if bool_decide (walkErr d ≠ None) || IsDir d
     || negb (HasSuffix (path d) ".html")
  then Ok postsInCollection
  else
    match ReadFile os (path d) with
    | Err _ => Ok postsInCollection
    | Ok content =>
        let lines := Split content newline in
        if String.eqb (extractMeta lines "collection") collectionSlug then
          let slug := TrimSuffix (Filepath.Base (path d)) ".html" in
          let date := extractMeta lines "date" in
          Ok (postsInCollection ++ [{| slug := slug; date := date |}])
        else Ok postsInCollection
    end.

Definition getCollectionPosition
    (currentSlug collectionSlug currentDate : string) : Z * Z :=
  let postsInCollection :=
    match WalkDir os "posts" (getCollectionPosition_fn collectionSlug) [] with
    | Ok l => l
    | Err _ => []
    end in
  let postsInCollection :=
    Sort.Slice (λ pi pj, String.ltb (date pi) (date pj)) postsInCollection in
  let total := Z.of_nat (length postsInCollection) in
  let index := position_loop currentSlug 0 postsInCollection in
  (index, total).

Definition loadPost (slug : string) : result Post :=
  match ReadFile os (Filepath.Join "posts" (slug +:+ ".html")) with
  | Err err => Err err
  | Ok content =>
      let lines := Split content newline in
      let rawContent := extractContent lines in
      let '(processedContent, toc) := processContentWithTOC rawContent in
      let rawDate := extractMeta lines "date" in
      let rawDate := if String.eqb rawDate "" then today os else rawDate in
      let formattedDate :=
        match Time.Parse rawDate with
        | Some t => Time.FormatLong t
        | None => rawDate
        end in
      let collectionSlug := extractMeta lines "collection" in
      let '(collectionTitle, collectionDescription,
            collectionIndex, collectionTotal) :=
        if negb (String.eqb collectionSlug "") then
          let '(collectionTitle, collectionDescription) :=
            match ReadFile os (Filepath.Join "collections"
                                 (collectionSlug +:+ ".html")) with
            | Ok collectionContent =>
                let collectionLines := Split collectionContent newline in
                (extractMeta collectionLines "title",
                 TrimSpace (extractContent collectionLines))
            | Err _ => ("", "")
            end in
          let '(collectionIndex, collectionTotal) :=
            getCollectionPosition slug collectionSlug rawDate in
          (collectionTitle, collectionDescription,
           collectionIndex, collectionTotal)
        else ("", "", 0%Z, 0%Z) in
      let post :=
        {| Slug := slug;
           Title := extractMeta lines "title";
           Description := extractMeta lines "description";
           Date := formattedDate;
           RawDate := rawDate;
           Collection := collectionSlug;
           CollectionTitle := collectionTitle;
           CollectionDescription := collectionDescription;
           CollectionIndex := collectionIndex;
           CollectionTotal := collectionTotal;
           Content := processedContent;
           ReadTimeInMinutes := 0;
           TOC := toc;
           PageType := "" |} in
      let post := if String.eqb (Title post) "" then set_Title post slug
                  else post in
      let words := Z.of_nat (length (Fields (Content post))) in
      let post := set_ReadTimeInMinutes post (readTime words) in
      Ok post
  end.

Definition loadPosts_fn (d : DirEntry) (posts : list Post)
  : result (list Post) :=
  match walkErr d with
  | Some err => Err err
  | None =>
      if IsDir d || negb (HasSuffix (path d) ".html") then Ok posts
      else
        let slug := TrimSuffix (Filepath.Base (path d)) ".html" in
        match loadPost slug with
        | Err err => Err err
        | Ok post => Ok (posts ++ [post])
        end
  end.

Definition loadPosts : result (list Post) :=
  match WalkDir os "posts" loadPosts_fn [] with
  | Err err => Err err
  | Ok posts =>
      Ok (Sort.Slice (λ pi pj, String.ltb (RawDate pj) (RawDate pi)) posts)
  end.

Definition loadCollection (slug : string) : result Coll.Collection :=
  match ReadFile os (Filepath.Join "collections" (slug +:+ ".html")) with
  | Err err => Err err
  | Ok content =>
      let lines := Split content newline in
      let description := TrimSpace (extractContent lines) in
      match loadPosts with
      | Err err => Err err
      | Ok posts =>
          Ok {| Coll.Slug := slug;
                Coll.Title := extractMeta lines "title";
                Coll.Description := description;
                Coll.DescriptionText := stripHTML description;
                Coll.Posts :=
                  fold_left
                    (λ acc post,
                       if String.eqb (Collection post) slug
                       then acc ++ [post] else acc)
                    posts [];
                Coll.PageType := "" |}
      end
  end.

Definition loadCollections_fn (d : DirEntry)
    (collections : list Coll.Collection) : result (list Coll.Collection) :=
  match walkErr d with
  | Some err => Err err
  | None =>
      if IsDir d || negb (HasSuffix (path d) ".html") then Ok collections
      else
        let slug := TrimSuffix (Filepath.Base (path d)) ".html" in
        match loadCollection slug with
        | Err err => Err err
        | Ok collection => Ok (collections ++ [collection])
        end
  end.

Definition loadCollections : result (list Coll.Collection) :=
  match WalkDir os "collections" loadCollections_fn [] with
  | Err err => Err err
  | Ok collections =>
      Ok (Sort.Slice
            (λ ci cj, String.ltb (Coll.Title ci) (Coll.Title cj))
            collections)
  end.

End Pipeline.

(** ** The syndication feed *)

(** The body of the loop that [buildRSSFeed] and [handleRSS] both run over
    the posts. *)
Definition feedItem (baseURL : string) (post : Post) : Feed.Item :=
  let pubDate :=
    match Time.Parse (RawDate post) with
    | Some t => Time.FormatRFC1123Z t
    | None => ""
    end in
  let description := Description post in
  let description :=
    if String.eqb description "" then Content post else description in
  {| Feed.Title := Title post;
     Feed.Link := baseURL +:+ "/post/" +:+ Slug post;
     Feed.Description := description;
     Feed.PubDate := pubDate;
     Feed.GUID := baseURL +:+ "/post/" +:+ Slug post |}.

(** The items of [buildRSSFeed(outputPath, baseURL, posts)]. *)
Definition buildRSSFeed_items (baseURL : string) (posts : list Post)
  : list Feed.Item :=
  fold_left (λ items post, items ++ [feedItem baseURL post]) posts [].

(** The items of [handleRSS], for the posts it loaded and the base URL it
    read off the request. *)
Definition handleRSS_items (baseURL : string) (posts : list Post)
  : list Feed.Item :=
  fold_left (λ items post, items ++ [feedItem baseURL post]) posts [].

(** ** The data handed to the templates *)

Module Index.
Record Data := { Title : string; Posts : list Post; PageType : string }.
End Index.

Module Collections.
Record Data := {
  Title : string;
  Collections : list Coll.Collection;
  PageType : string
}.
End Collections.

Module Rss.
Record Channel := {
  Title : string;
  Link : string;
  Description : string;
  Items : list Feed.Item
}.
(** The field [Channel] of the source is [channel] here: the record type
    has its name. *)
Record RSS := { Version : string; channel : Channel }.
End Rss.

(** The [data] argument of [ExecuteTemplate]. *)
Inductive PageData :=
| IndexPage (data : Index.Data)
| PostPage (post : Post)
| CollectionsPage (data : Collections.Data)
| CollectionPage (collection : Coll.Collection).

(** [post.PageType = pageType] *)
Definition set_PageType (p : Post) (pageType : string) : Post :=
  {| Slug := Slug p; Title := Title p; Description := Description p;
     Date := Date p; RawDate := RawDate p; Collection := Collection p;
     CollectionTitle := CollectionTitle p;
     CollectionDescription := CollectionDescription p;
     CollectionIndex := CollectionIndex p;
     CollectionTotal := CollectionTotal p; Content := Content p;
     ReadTimeInMinutes := ReadTimeInMinutes p; TOC := TOC p;
     PageType := pageType |}.

(** [collection.PageType = pageType] *)
Definition set_CollectionPageType (c : Coll.Collection) (pageType : string)
  : Coll.Collection :=
  {| Coll.Slug := Coll.Slug c; Coll.Title := Coll.Title c;
     Coll.Description := Coll.Description c;
     Coll.DescriptionText := Coll.DescriptionText c;
     Coll.Posts := Coll.Posts c; Coll.PageType := pageType |}.

(** ** What the program does to the world

    Beside reading the content directory, the server and the exporter call
    the template engine, the XML encoder and the file system.  Each such
    call is recorded as an effect; what it returns is asked of an oracle
    that sees the effects so far, so that every course the calls can take
    is covered. *)

Inductive Writer :=
| ToFile (path : string)
| ToResponse.

(** The calls: [os.RemoveAll], [os.MkdirAll], [fmt.Println] and
    [fmt.Printf] (the text written to the standard output),
    [parseTemplates], [os.Create], [ExecuteTemplate], [f.Close],
    [f.WriteString] and [w.Write], [encoder.Encode], [copyDir] (one
    effect: the files it copies are not followed), [os.Stat],
    [os.WriteFile], [w.Header().Set], [http.NotFound] and [http.Error]. *)
Inductive Effect :=
| RemoveAll (path : string)
| MkdirAll (path : string)
| Stdout (text : string)
| ParseTemplates (files : list string)
| Create (path : string)
| ExecuteTemplate (w : Writer) (name : string) (data : PageData)
| Close (path : string)
| WriteString (w : Writer) (s : string)
| EncodeFeed (w : Writer) (feed : Rss.RSS)
| CopyDir (src dst : string)
| Stat (path : string)
| WriteFile (path content : string)
| SetHeader (key value : string)
| NotFound
| Error (msg : string) (code : Z).

(** The error a call returns, if any, after the effects so far. *)
Definition Oracle : Type := list Effect → Effect → option error.

(** One call: the effect is recorded and the oracle gives its error. *)
Definition call (o : Oracle) (h : list Effect) (e : Effect)
  : list Effect * option error :=
  (h ++ [e], o h e).

(** [xml.Header] *)
Definition xmlHeader : string :=
  "<?xml version=" +:+ dquote +:+ "1.0" +:+ dquote +:+ " encoding="
  +:+ dquote +:+ "UTF-8" +:+ dquote +:+ "?>" +:+ bytes [10].

Definition layoutPath : string := "templates/layout.html".

(** The feed both feed builders encode. *)
Definition rssFeed (baseURL : string) (items : list Feed.Item) : Rss.RSS :=
  {| Rss.Version := "2.0";
     Rss.channel :=
       {| Rss.Title := "BreakLab";
          Rss.Link := baseURL;
          Rss.Description := "Blog posts from BreakLab";
          Rss.Items := items |} |}.

(** ** The exporter *)

Section Exporter.

Variable o : Oracle.
Variable os : OS.

(** [buildPage(outputPath, layoutPath, contentPath, data)]; the deferred
    [f.Close()] runs when it returns. *)
Definition buildPage (h : list Effect)
    (outputPath layoutPath contentPath : string) (data : PageData)
  : list Effect * option error :=
  let '(h, err) := call o h (ParseTemplates [layoutPath; contentPath]) in
  match err with
  | Some err => (h, Some err)
  | None =>
      let '(h, err) := call o h (Create outputPath) in
      match err with
      | Some err => (h, Some err)
      | None =>
          let '(h, err) :=
            call o h (ExecuteTemplate (ToFile outputPath) "layout" data) in
          (h ++ [Close outputPath], err)
      end
  end.

(** [buildRSSFeed(outputPath, baseURL, posts)] *)
Definition buildRSSFeed (h : list Effect)
    (outputPath baseURL : string) (posts : list Post)
  : list Effect * option error :=
  let items := buildRSSFeed_items baseURL posts in
  let feed := rssFeed baseURL items in
  let '(h, err) := call o h (Create outputPath) in
  match err with
  | Some err => (h, Some err)
  | None =>
      let h := h ++ [WriteString (ToFile outputPath) xmlHeader] in
      let '(h, err) := call o h (EncodeFeed (ToFile outputPath) feed) in
      (h ++ [Close outputPath], err)
  end.

(** [copyFile(src, dst)] *)
Definition copyFile (h : list Effect) (src dst : string)
  : list Effect * option error :=
  match ReadFile os src with
  | Err err => (h, Some err)
  | Ok input => call o h (WriteFile dst input)
  end.

(** The loop of [buildStatic] over the posts; it returns at the first
    page that fails. *)
Fixpoint buildPosts (h : list Effect) (posts : list Post)
  : list Effect * option error :=
  match posts with
  | [] => (h, None)
  | post :: rest =>
      let post := set_PageType post "post" in
      let dir := "dist" +:+ "/post/" +:+ Slug post in
      let h := h ++ [MkdirAll dir;
                     Stdout ("Building post/" +:+ Slug post
                             +:+ "/index.html..." +:+ bytes [10])] in
      let '(h, err) :=
        buildPage h (dir +:+ "/index.html") layoutPath
          "templates/post.html" (PostPage post) in
      match err with
      | Some err => (h, Some err)
      | None => buildPosts h rest
      end
  end.

(** The loop over the collections. *)
Fixpoint buildCollections (h : list Effect)
    (collections : list Coll.Collection) : list Effect * option error :=
  match collections with
  | [] => (h, None)
  | collection :: rest =>
      let collection := set_CollectionPageType collection "collection" in
      let dir := "dist" +:+ "/collection/" +:+ Coll.Slug collection in
      let h := h ++ [MkdirAll dir;
                     Stdout ("Building collection/"
                             +:+ Coll.Slug collection
                             +:+ "/index.html..." +:+ bytes [10])] in
      let '(h, err) :=
        buildPage h (dir +:+ "/index.html") layoutPath
          "templates/collection.html" (CollectionPage collection) in
      match err with
      | Some err => (h, Some err)
      | None => buildCollections h rest
      end
  end.

(** [buildStatic(baseURL)]: the effects, in order, and the error returned. *)
Definition buildStatic (baseURL : string) : list Effect * option error :=
  let distDir := "dist" in
  let h := [RemoveAll distDir; MkdirAll distDir] in
  match loadPosts os with
  | Err err => (h, Some err)
  | Ok posts =>
  match loadCollections os with
  | Err err => (h, Some err)
  | Ok collections =>
  let h := h ++ [Stdout ("Building index.html..." +:+ bytes [10])] in
  let '(h, err) :=
    buildPage h (distDir +:+ "/index.html") layoutPath "templates/index.html"
      (IndexPage {| Index.Title := ""; Index.Posts := posts;
                    Index.PageType := "index" |}) in
  match err with
  | Some err => (h, Some err)
  | None =>
  let '(h, err) := buildPosts h posts in
  match err with
  | Some err => (h, Some err)
  | None =>
  let h := h ++ [Stdout ("Building collections/index.html..." +:+ bytes [10]);
                 MkdirAll (distDir +:+ "/collections")] in
  let '(h, err) :=
    buildPage h (distDir +:+ "/collections/index.html") layoutPath
      "templates/collections.html"
      (CollectionsPage {| Collections.Title := "Collections";
                          Collections.Collections := collections;
                          Collections.PageType := "collections" |}) in
  match err with
  | Some err => (h, Some err)
  | None =>
  let '(h, err) := buildCollections h collections in
  match err with
  | Some err => (h, Some err)
  | None =>
  let h := h ++ [Stdout ("Building feed.xml..." +:+ bytes [10])] in
  let '(h, err) := buildRSSFeed h (distDir +:+ "/feed.xml") baseURL posts in
  match err with
  | Some err => (h, Some err)
  | None =>
  let h := h ++ [Stdout ("Copying static assets..." +:+ bytes [10])] in
  let '(h, err) := call o h (CopyDir "static" (distDir +:+ "/static")) in
  match err with
  | Some err => (h, Some err)
  | None =>
  let '(h, err) := call o h (Stat "robots.txt") in
  let h :=
    match err with
    | None =>
        let h := h ++ [Stdout ("Copying robots.txt..." +:+ bytes [10])] in
        (copyFile h "robots.txt" (distDir +:+ "/robots.txt")).1
    | Some _ => h
    end in
  let h := h ++ [Stdout ("Build complete! Output in ./dist" +:+ bytes [10])] in
  (h, None)
  end end end end end end end end.

End Exporter.

(** ** The server *)

(** What a handler reads of the request. *)
Record Request := {
  URLPath : string;
  TLS : bool;
  XForwardedProto : string;
  Host : string
}.

Section Server.

Variable o : Oracle.
Variable os : OS.

(** The end of the four page handlers: the templates are parsed and the
    layout is executed on the response; either failure is answered with
    status 500. *)
Definition render (h : list Effect) (contentPath : string) (data : PageData)
  : list Effect :=
  let '(h, err) := call o h (ParseTemplates [layoutPath; contentPath]) in
  match err with
  | Some err => h ++ [Error err 500]
  | None =>
      let '(h, err) :=
        call o h (ExecuteTemplate ToResponse "layout" data) in
      match err with
      | Some err => h ++ [Error err 500]
      | None => h
      end
  end.

Definition handleIndex (r : Request) : list Effect :=
  if negb (String.eqb (URLPath r) "/") then [NotFound]
  else
    match loadPosts os with
    | Err err => [Error err 500]
    | Ok posts =>
        render [] "templates/index.html"
          (IndexPage {| Index.Title := ""; Index.Posts := posts;
                        Index.PageType := "index" |})
    end.

Definition handlePost (r : Request) : list Effect :=
  let slug := TrimPrefix (URLPath r) "/post/" in
  if String.eqb slug "" then [NotFound]
  else
    match loadPost os slug with
    | Err _ => [NotFound]
    | Ok post =>
        render [] "templates/post.html"
          (PostPage (set_PageType post "post"))
    end.

Definition handleCollections (r : Request) : list Effect :=
  match loadCollections os with
  | Err err => [Error err 500]
  | Ok collections =>
      render [] "templates/collections.html"
        (CollectionsPage {| Collections.Title := "Collections";
                            Collections.Collections := collections;
                            Collections.PageType := "collections" |})
  end.

Definition handleCollection (r : Request) : list Effect :=
  let slug := TrimPrefix (URLPath r) "/collection/" in
  if String.eqb slug "" then [NotFound]
  else
    match loadCollection os slug with
    | Err _ => [NotFound]
    | Ok collection =>
        render [] "templates/collection.html"
          (CollectionPage (set_CollectionPageType collection "collection"))
    end.

Definition handleRSS (r : Request) : list Effect :=
  match loadPosts os with
  | Err err => [Error err 500]
  | Ok posts =>
      let scheme :=
        if TLS r || String.eqb (XForwardedProto r) "https"
        then "https" else "http" in
      let baseURL := scheme +:+ "://" +:+ Host r in
      let items := handleRSS_items baseURL posts in
      let feed := rssFeed baseURL items in
      let h := [SetHeader "Content-Type"
                  "application/rss+xml; charset=utf-8";
                WriteString ToResponse xmlHeader] in
      let '(h, err) := call o h (EncodeFeed ToResponse feed) in
      match err with
      | Some err => h ++ [Error err 500]
      | None => h
      end
  end.

End Server.

(** ** The template functions *)

(** Go's decoding of UTF-8 in a [range] over a string ([runtime/utf8.go]). *)
Module Utf8.

Local Open Scope Z_scope.

Definition runeError : Z := 65533.
Definition runeSelf : Z := 128.
Definition maxRune : Z := 1114111.
Definition surrogateMin : Z := 55296.
Definition surrogateMax : Z := 57343.
Definition t2 : Z := 192.
Definition t3 : Z := 224.
Definition t4 : Z := 240.
Definition t5 : Z := 248.
Definition maskx : Z := 63.
Definition mask2 : Z := 31.
Definition mask3 : Z := 15.
Definition mask4 : Z := 7.
Definition rune1Max : Z := 127.
Definition rune2Max : Z := 2047.
Definition rune3Max : Z := 65535.
Definition locb : Z := 128.
Definition hicb : Z := 191.

(** [locb <= b && b <= hicb] *)
Definition continuation (b : Z) : bool := (locb <=? b) && (b <=? hicb).

(** [decoderune(s, k)] on the bytes [s[k:]]: the rune and the number of
    bytes it takes; a sequence that is cut short, malformed, longer than
    its rune needs or that encodes a surrogate is [runeError], one byte
    wide. *)
Definition decoderune (s : list Z) : Z * nat :=
  match s with
  | [] => (runeError, 1%nat)
  | s0 :: rest =>
      if (t2 <=? s0) && (s0 <? t3) then
        match rest with
        | s1 :: _ =>
            if continuation s1 then
              let r := Z.lor (Z.shiftl (Z.land s0 mask2) 6)
                         (Z.land s1 maskx) in
              if rune1Max <? r then (r, 2%nat) else (runeError, 1%nat)
            else (runeError, 1%nat)
        | _ => (runeError, 1%nat)
        end
      else if (t3 <=? s0) && (s0 <? t4) then
        match rest with
        | s1 :: s2 :: _ =>
            if continuation s1 && continuation s2 then
              let r := Z.lor (Z.lor (Z.shiftl (Z.land s0 mask3) 12)
                                (Z.shiftl (Z.land s1 maskx) 6))
                         (Z.land s2 maskx) in
              if (rune2Max <? r)
                 && negb ((surrogateMin <=? r) && (r <=? surrogateMax))
              then (r, 3%nat) else (runeError, 1%nat)
            else (runeError, 1%nat)
        | _ => (runeError, 1%nat)
        end
      else if (t4 <=? s0) && (s0 <? t5) then
        match rest with
        | s1 :: s2 :: s3 :: _ =>
            if continuation s1 && continuation s2 && continuation s3 then
              let r := Z.lor (Z.lor (Z.lor (Z.shiftl (Z.land s0 mask4) 18)
                                       (Z.shiftl (Z.land s1 maskx) 12))
                                (Z.shiftl (Z.land s2 maskx) 6))
                         (Z.land s3 maskx) in
              if (rune3Max <? r) && (r <=? maxRune)
              then (r, 4%nat) else (runeError, 1%nat)
            else (runeError, 1%nat)
        | _ => (runeError, 1%nat)
        end
      else (runeError, 1%nat)
  end.

(** The runes of [for _, c := range s], in order.  At each byte the loop
    is either inside the rune it decoded last ([skip] bytes of it are
    left) or at the start of the next: a byte below [runeSelf] is its own
    rune, any other is decoded with what follows. *)
Fixpoint range_loop (skip : nat) (s : list Z) : list Z :=
  match s with
  | [] => []
  | c :: rest =>
      match skip with
      | S k => range_loop k rest
      | O =>
          if c <? runeSelf then c :: range_loop 0 rest
          else
            let '(r, width) := decoderune s in
            r :: range_loop (width - 1) rest
      end
  end.

Definition range (s : string) : list Z :=
  range_loop 0 ((λ c, Z.of_nat (nat_of_ascii c)) <$> list_ascii_of_string s).

End Utf8.

(** [templateFuncs["hashColor"]]; [hash] is a [uint32]. *)
Definition hashColor (s : string) : Z :=
  let hash :=
    fold_left (λ hash c, (hash * 31 + c) mod 2 ^ 32)%Z (Utf8.range s) 0%Z in
  (hash mod 5)%Z.

(** * Part II: sanity checks *)

Example TrimSpace_ex :
  TrimSpace ("  a b " +:+ bytes [194; 160; 13; 10]) = "a b".
Proof. reflexivity. Qed.

Example Fields_ex :
  Fields (" <p>one  two" +:+ bytes [226; 128; 131] +:+ "three</p> ")
  = ["<p>one"; "two"; "three</p>"].
Proof. reflexivity. Qed.

Example Split_ex : Split ("a" +:+ bytes [10; 10] +:+ "b") "010"%char = ["a"; ""; "b"].
Proof. reflexivity. Qed.

Example extractMeta_title :
  extractMeta ["<!-- date: 2024-01-15 -->"; "<!-- title: Foo -->"] "title"
  = "Foo".
Proof. reflexivity. Qed.

Example extractContent_ex :
  extractContent
    ["<!-- title: Foo -->"; "<p>x</p>"; "<!-- note -->"; "<!-- see date: -->"]
  = "<p>x</p>" +:+ bytes [10] +:+ "<!-- note -->".
Proof. reflexivity. Qed.

Example generateID_ex : generateID "Hello <em>World</em>!" = "hello-world".
Proof. reflexivity. Qed.

Example processContentWithTOC_ex :
  processContentWithTOC "<h2>Hello World!</h2>"
  = ("<h2 id=" +:+ dquote +:+ "hello-world" +:+ dquote +:+ ">Hello World!</h2>",
     [{| ID := "hello-world"; Text := "Hello World!"; Level := 2 |}]).
Proof. reflexivity. Qed.

Example Parse_ex :
  Time.Parse "2024-03-05"
  = Some {| Time.Year := 2024; Time.Month := 3; Time.Day := 5 |}.
Proof. reflexivity. Qed.

Example Parse_bad :
  Time.Parse "unknown" = None ∧ Time.Parse "2023-02-29" = None
  ∧ Time.Parse "2024-3-05" = None ∧ Time.Parse "2024-03-05 " = None.
Proof. by repeat split. Qed.

Example Weekday_ex :
  Time.Weekday {| Time.Year := 1970; Time.Month := 1; Time.Day := 1 |} = 4%Z
  ∧ Time.Weekday {| Time.Year := 2000; Time.Month := 2; Time.Day := 29 |} = 2%Z
  ∧ Time.Weekday {| Time.Year := 2024; Time.Month := 3; Time.Day := 5 |} = 2%Z
  ∧ Time.Weekday {| Time.Year := 2026; Time.Month := 11; Time.Day := 1 |} = 0%Z.
Proof. by repeat split. Qed.

Example Format_ex :
  Time.FormatRFC1123Z <$> Time.Parse "2024-03-05"
  = Some "Tue, 05 Mar 2024 00:00:00 +0000"
  ∧ Time.FormatLong <$> Time.Parse "2024-03-05" = Some "March 5, 2024".
Proof. by split. Qed.

Example readTime_ex :
  readTime 200 = 1%Z ∧ readTime 401 = 2%Z ∧ readTime 10 = 1%Z
  ∧ readTime 0 = 1%Z ∧ readTime 399 = 1%Z ∧ readTime 400 = 2%Z.
Proof. by repeat split. Qed.

Example Join_ex :
  Filepath.Join "posts" "a.html" = "posts/a.html"
  ∧ Filepath.Join "posts" "../collections/x.html" = "collections/x.html"
  ∧ Filepath.Join "posts" "a//./b/../c.html" = "posts/a/c.html"
  ∧ Filepath.Join "posts" "../../x.html" = "../x.html".
Proof. by repeat split. Qed.

Example Base_ex :
  Filepath.Base "posts/2024/a.html" = "a.html"
  ∧ Filepath.Base "a.html" = "a.html" ∧ Filepath.Base "//" = "/".
Proof. by repeat split. Qed.

Example hashColor_ex :
  hashColor "go" = 4%Z ∧ hashColor "og" = 4%Z
  ∧ hashColor (bytes [195; 169]) = (233 mod 5)%Z
  ∧ hashColor (bytes [195]) = (65533 mod 5)%Z.
Proof. by vm_compute. Qed.

(** * Part III: properties *)

(** *** What the words "begins with" and "contains" mean *)

Definition begins_with (s p : string) : Prop := ∃ r, s = p +:+ r.
Definition contains (s k : string) : Prop := ∃ a b, s = a +:+ k +:+ b.
Definition ends_with (s p : string) : Prop := ∃ r, s = r +:+ p.

(** A line that [extractContent] is said to remove. *)
Definition is_meta_line (line : string) : Prop :=
  begins_with line "<!--" ∧ ∃ key, key ∈ metaKeys ∧ contains line key.

Section StringFacts.

Lemma str_app_cons (c : ascii) (a b : string) :
  String c a +:+ b = String c (a +:+ b).
Proof. reflexivity. Qed.

Lemma str_app_nil_l (b : string) : "" +:+ b = b.
Proof. reflexivity. Qed.

Lemma str_app_nil_r (s : string) : s +:+ "" = s.
Proof.
  induction s as [|c s IH]; [done|]. by rewrite str_app_cons, IH.
Qed.

Lemma str_app_assoc (a b c : string) : (a +:+ b) +:+ c = a +:+ b +:+ c.
Proof.
  induction a as [|x a IH]; [done|]. by rewrite !str_app_cons, IH.
Qed.

Lemma str_length_app (a b : string) :
  String.length (a +:+ b) = String.length a + String.length b.
Proof.
  induction a as [|x a IH]; [done|]. rewrite str_app_cons. cbn.
  by rewrite IH.
Qed.

Lemma str_drop_app (a b : string) : drop (String.length a) (a +:+ b) = b.
Proof. induction a as [|x a IH]; [by destruct b|]. done. Qed.

Lemma str_take_app (a b : string) : take (String.length a) (a +:+ b) = a.
Proof.
  induction a as [|x a IH]; [by destruct b|].
  rewrite str_app_cons. cbn. by rewrite IH.
Qed.

Lemma str_take_drop (n : nat) (s : string) : take n s +:+ drop n s = s.
Proof.
  revert s; induction n as [|n IH]; intros [|c s]; cbn; try done.
  by rewrite str_app_cons, IH.
Qed.

Lemma str_length_take (n : nat) (s : string) :
  n ≤ String.length s → String.length (take n s) = n.
Proof.
  revert s; induction n as [|n IH]; intros [|c s]; cbn; try done; try lia.
  intros. rewrite IH; lia.
Qed.

Lemma HasPrefix_spec (s p : string) :
  HasPrefix s p = true ↔ begins_with s p.
Proof.
  unfold HasPrefix, begins_with. revert s.
  induction p as [|a p IH]; intros s.
  - split; [by exists s|by destruct s].
  - destruct s as [|b s]; cbn.
    + split; [done|]. by intros [r ?].
    + destruct (ascii_dec a b) as [->|Hne].
      * rewrite IH. split; intros [r Hr]; exists r.
        -- by rewrite str_app_cons, Hr.
        -- rewrite str_app_cons in Hr. congruence.
      * split; [done|]. intros [r Hr]. rewrite str_app_cons in Hr.
        congruence.
Qed.

Lemma HasSuffix_spec (s p : string) :
  HasSuffix s p = true ↔ ends_with s p.
Proof.
  unfold HasSuffix, ends_with.
  rewrite andb_true_iff, Nat.leb_le, String.eqb_eq. split.
  - intros [Hle Hd].
    exists (take (String.length s - String.length p) s).
    rewrite <- (str_take_drop (String.length s - String.length p) s) at 1.
    by rewrite Hd.
  - intros [r ->]. rewrite str_length_app. split; [lia|].
    replace (String.length r + String.length p - String.length p)
      with (String.length r) by lia.
    apply str_drop_app.
Qed.

Lemma Contains_spec (s k : string) : Contains s k = true ↔ contains s k.
Proof.
  unfold contains. induction s as [|c s IH]; cbn [Contains];
    rewrite orb_true_iff, HasPrefix_spec.
  - split.
    + intros [[r Hr]|?]; [|done]. by exists "", r.
    + intros ([|x a] & b & Hab); [left; by exists b|done].
  - rewrite IH. split.
    + intros [[r Hr]|(a & b & ->)]; [by exists "", r|].
      by exists (String c a), b.
    + intros ([|x a] & b & Hab); [left; by exists b|right].
      rewrite str_app_cons in Hab. injection Hab as -> ->. by exists a, b.
Qed.

Lemma isMeta_loop_spec (line : string) (keys : list string) :
  isMeta_loop line keys = true ↔ ∃ key, key ∈ keys ∧ contains line key.
Proof.
  induction keys as [|k keys IH]; cbn.
  - split; [done|]. intros (key & Hin & _). by apply elem_of_nil in Hin.
  - destruct (Contains line k) eqn:Hc.
    + split; [|done]. intros _. exists k. split; [left|].
      by apply Contains_spec.
    + rewrite IH. split.
      * intros (key & Hin & Hk). exists key. split; [by right|done].
      * intros (key & Hin & Hk). apply elem_of_cons in Hin as [->|Hin].
        -- apply Contains_spec in Hk. congruence.
        -- by exists key.
Qed.

End StringFacts.

#[global] Instance is_meta_line_dec (line : string) :
  Decision (is_meta_line line).
Proof.
  refine (cast_if_and (decide (HasPrefix line "<!--" = true))
                      (decide (isMeta_loop line metaKeys = true)));
    unfold is_meta_line; rewrite <- ?HasPrefix_spec, <- ?isMeta_loop_spec;
    tauto.
Defined.

(** The loop of [extractContent] keeps the lines that are not metadata
    lines, in their order. *)
Lemma extractContent_loop (lines acc : list string) :
  fold_left extractContent_step lines acc
  = acc ++ filter (λ l, ¬ is_meta_line l) lines.
Proof.
  revert acc. induction lines as [|l lines IH]; intros acc.
  - by rewrite app_nil_r.
  - cbn [fold_left]. rewrite IH. unfold extractContent_step.
    rewrite filter_cons.
    destruct (HasPrefix l "<!--" && isMeta_loop l metaKeys) eqn:Hm.
    + apply andb_true_iff in Hm as [Hp Hk].
      rewrite decide_False; [done|]. intros Hn. apply Hn.
      split; [by apply HasPrefix_spec|by apply isMeta_loop_spec].
    + rewrite decide_True; [by rewrite <- app_assoc|].
      intros [Hp Hk]. apply HasPrefix_spec in Hp.
      apply isMeta_loop_spec in Hk. rewrite Hp, Hk in Hm. done.
Qed.

(** C3. [extractContent] removes exactly the lines that begin with [<!--] and
    contain one of [title:], [date:], [description:], [collection:]; the
    other lines are returned unchanged, in their order, joined by newlines. *)
Theorem extractContent_removes_meta_lines (lines : list string) :
  extractContent lines
  = Join (filter (λ l, ¬ is_meta_line l) lines) (bytes [10]).
Proof.
  unfold extractContent. by rewrite extractContent_loop.
Qed.

(** *** The headings of a text, in document order *)

(** [re.FindAllStringSubmatchIndex] for [re = open(.*?)close], reduced to
    what the outline needs: for each match, from left to right, the offset
    where it starts and the text of its group. *)
Fixpoint find_all_go (open close : string) (fuel off : nat) (s : string)
  : list (nat * string) :=
  match fuel with
  | O => []
  | S fuel' =>
      match Regexp.match_here open close s with
      | Some (inner, rest) =>
          (off, inner)
          :: find_all_go open close fuel'
               (off + String.length (open +:+ inner +:+ close)) rest
      | None =>
          match s with
          | EmptyString => []
          | String _ r => find_all_go open close fuel' (S off) r
          end
      end
  end.

Definition find_all (open close : string) (s : string) : list (nat * string) :=
  find_all_go open close (S (String.length s)) 0 s.

(** The headings [<tag>text</tag>] of [s], left to right. *)
Definition headings (tag : string) (s : string) : list (nat * string) :=
  find_all ("<" +:+ tag +:+ ">") ("</" +:+ tag +:+ ">") s.

(** The outline entry of a heading. *)
Definition entry (level : nat) (text : string) : TOCItem :=
  {| ID := generateID text; Text := text; Level := level |}.

Section HeadingFacts.

Variables open close : string.

Lemma HasPrefix_refl (p : string) : HasPrefix p p = true.
Proof. apply HasPrefix_spec. exists "". by rewrite str_app_nil_r. Qed.

Lemma str_drop_length (p : string) : drop (String.length p) p = "".
Proof. by induction p. Qed.

Lemma HasPrefix_app (p r : string) : HasPrefix (p +:+ r) p = true.
Proof. apply HasPrefix_spec. by exists r. Qed.

Lemma HasPrefix_app_l (s p r : string) :
  HasPrefix s p = true → HasPrefix (s +:+ r) p = true.
Proof.
  rewrite !HasPrefix_spec. intros [x ->]. exists (x +:+ r).
  by rewrite str_app_assoc.
Qed.

Lemma lazy_until_unfold (s : string) :
  Regexp.lazy_until close s =
  if HasPrefix s close then Some ("", drop (String.length close) s)
  else match s with
       | EmptyString => None
       | String c r =>
           if Ascii.eqb c "010" then None
           else match Regexp.lazy_until close r with
                | Some (inner, rest) => Some (String c inner, rest)
                | None => None
                end
       end.
Proof. by destruct s. Qed.

Lemma lazy_until_sound (s inner rest : string) :
  Regexp.lazy_until close s = Some (inner, rest) →
  s = inner +:+ close +:+ rest
  ∧ Regexp.lazy_until close (inner +:+ close) = Some (inner, "").
Proof.
  revert inner rest. induction s as [|c s IH]; intros inner rest;
    rewrite lazy_until_unfold;
    destruct (HasPrefix _ close) eqn:Hp; try done.
  - intros [= <- <-]. apply HasPrefix_spec in Hp as [r Hr].
    destruct close; [done|by rewrite str_app_cons in Hr].
  - intros [= <- <-]. apply HasPrefix_spec in Hp as [r Hr].
    rewrite Hr, str_drop_app, ?str_app_nil_l. split; [done|].
    by rewrite lazy_until_unfold, HasPrefix_refl, str_drop_length.
  - destruct (Ascii.eqb c "010") eqn:Hc; [done|].
    destruct (Regexp.lazy_until close s) as [[i r]|] eqn:Hl; [|done].
    intros [= <- <-]. destruct (IH _ _ eq_refl) as [-> IH2].
    split; [done|]. rewrite str_app_cons, lazy_until_unfold.
    destruct (HasPrefix (String c (i +:+ close)) close) eqn:Hp2.
    + apply (HasPrefix_app_l _ _ r) in Hp2.
      rewrite str_app_cons, str_app_assoc in Hp2. congruence.
    + by rewrite Hc, IH2.
Qed.

Lemma match_here_sound (s inner rest : string) :
  Regexp.match_here open close s = Some (inner, rest) →
  s = open +:+ inner +:+ close +:+ rest
  ∧ Regexp.match_here open close (open +:+ inner +:+ close)
    = Some (inner, "").
Proof.
  unfold Regexp.match_here. destruct (HasPrefix s open) eqn:Hp; [|done].
  apply HasPrefix_spec in Hp as [r ->]. rewrite str_drop_app.
  intros [-> Hl]%lazy_until_sound.
  by rewrite HasPrefix_app, str_drop_app.
Qed.

Lemma FindStringSubmatch1_unfold (s : string) :
  Regexp.FindStringSubmatch1 open close s =
  match Regexp.match_here open close s with
  | Some (inner, _) => Some inner
  | None =>
      match s with
      | EmptyString => None
      | String _ r => Regexp.FindStringSubmatch1 open close r
      end
  end.
Proof. by destruct s. Qed.

(** The callback reads back, from the matched text, the group of the match
    it was called for. *)
Lemma FindStringSubmatch1_of_match (s inner rest : string) :
  Regexp.match_here open close s = Some (inner, rest) →
  Regexp.FindStringSubmatch1 open close (open +:+ inner +:+ close)
  = Some inner.
Proof.
  intros [_ Hm]%match_here_sound.
  by rewrite FindStringSubmatch1_unfold, Hm.
Qed.

(** A match is never empty when the opening literal is not. *)
Lemma match_here_shorter (s inner rest : string) :
  open ≠ "" →
  Regexp.match_here open close s = Some (inner, rest) →
  String.length rest < String.length s.
Proof.
  intros Ho [-> _]%match_here_sound. rewrite !str_length_app.
  destruct open; [done|]. cbn. lia.
Qed.

(** Enough fuel: one unit per byte suffices, more changes nothing. *)
Lemma ReplaceAllStringFunc_go_fuel {St : Type}
    (repl : string → St → string * St) (n m : nat) (s : string) (st : St) :
  open ≠ "" →
  String.length s < n → String.length s < m →
  Regexp.ReplaceAllStringFunc_go open close repl n s st
  = Regexp.ReplaceAllStringFunc_go open close repl m s st.
Proof.
  intros Ho. revert m s st.
  induction n as [|n IH]; intros [|m] s st Hn Hm; try lia.
  cbn [Regexp.ReplaceAllStringFunc_go].
  destruct (Regexp.match_here open close s) as [[inner rest]|] eqn:Hmh.
  - apply match_here_shorter in Hmh; [|done].
    destruct (repl _ st) as [out st1].
    rewrite (IH m rest st1) by lia. done.
  - destruct s as [|c r]; [done|]. cbn in Hn, Hm.
    rewrite (IH m r st) by lia. done.
Qed.

Lemma find_all_go_fuel (n m off : nat) (s : string) :
  open ≠ "" →
  String.length s < n → String.length s < m →
  find_all_go open close n off s = find_all_go open close m off s.
Proof.
  intros Ho. revert m off s.
  induction n as [|n IH]; intros [|m] off s Hn Hm; try lia.
  cbn [find_all_go].
  destruct (Regexp.match_here open close s) as [[inner rest]|] eqn:Hmh.
  - apply match_here_shorter in Hmh; [|done].
    rewrite (IH m _ rest) by lia. done.
  - destruct s as [|c r]; [done|]. cbn in Hn, Hm.
    rewrite (IH m _ r) by lia. done.
Qed.

(** Document order: the offsets of the matches increase. *)
Lemma find_all_go_offsets (fuel off : nat) (s : string) :
  open ≠ "" →
  Forall (λ m, off ≤ m.1) (find_all_go open close fuel off s)
  ∧ StronglySorted (λ m1 m2, m1.1 < m2.1)
      (find_all_go open close fuel off s).
Proof.
  intros Ho. revert off s. induction fuel as [|fuel IH]; intros off s.
  { split; constructor. }
  cbn [find_all_go].
  destruct (Regexp.match_here open close s) as [[inner rest]|] eqn:Hmh.
  - destruct (IH (off + String.length (open +:+ inner +:+ close)) rest)
      as [Hle Hs].
    assert (0 < String.length (open +:+ inner +:+ close)).
    { rewrite str_length_app. destruct open; [done|]. cbn. lia. }
    split.
    + constructor; [cbn; lia|].
      eapply Forall_impl; [exact Hle|]. cbn. intros; lia.
    + constructor; [done|].
      eapply Forall_impl; [exact Hle|]. cbn. intros; lia.
  - destruct s as [|c r]; [split; constructor|].
    destruct (IH (S off) r) as [Hle Hs]. split; [|done].
    eapply Forall_impl; [exact Hle|]. cbn. intros; lia.
Qed.

End HeadingFacts.

Lemma find_all_offsets_sorted (tag : string) (s : string) :
  StronglySorted (λ m1 m2, m1.1 < m2.1) (headings tag s).
Proof. by apply find_all_go_offsets. Qed.

(** One pass appends, to the outline it is given, the entries of the
    headings of its level, in document order. *)
Lemma heading_pass_toc_go (level : nat) (tag : string) (fuel off : nat)
    (s : string) (toc : list TOCItem) :
  (Regexp.ReplaceAllStringFunc_go ("<" +:+ tag +:+ ">") ("</" +:+ tag +:+ ">")
     (heading_callback level tag) fuel s toc).2
  = toc ++ ((entry level ∘ snd) <$>
      find_all_go ("<" +:+ tag +:+ ">") ("</" +:+ tag +:+ ">") fuel off s).
Proof.
  revert off s toc. induction fuel as [|fuel IH]; intros off s toc.
  { cbn. by rewrite app_nil_r. }
  cbn [Regexp.ReplaceAllStringFunc_go find_all_go].
  destruct (Regexp.match_here _ _ s) as [[inner rest]|] eqn:Hmh.
  - unfold heading_callback at 1.
    rewrite (FindStringSubmatch1_of_match _ _ _ _ _ Hmh). cbn [default].
    specialize (IH (off + String.length
      (("<" +:+ tag +:+ ">") +:+ inner +:+ "</" +:+ tag +:+ ">")) rest
      (toc ++ [entry level inner])).
    destruct (Regexp.ReplaceAllStringFunc_go _ _ _ fuel rest _)
      as [tail st2].
    cbn in IH |- *. rewrite IH, <- app_assoc. done.
  - destruct s as [|c r]; [cbn; by rewrite app_nil_r|].
    specialize (IH (S off) r toc).
    destruct (Regexp.ReplaceAllStringFunc_go _ _ _ fuel r _) as [tail st1].
    done.
Qed.

Lemma heading_pass_toc (level : nat) (tag : string) (s : string)
    (toc : list TOCItem) :
  (heading_pass level tag s toc).2
  = toc ++ ((entry level ∘ snd) <$> headings tag s).
Proof. apply heading_pass_toc_go. Qed.

(** C5. The outline is in pass order: the level-2 entries, in document
    order, come first and the level-3 entries, in the document order of the
    body the first pass produced, come after them, so every level-2 entry
    precedes every level-3 entry; a body with an [<h3>] heading followed by
    an [<h2>] heading lists the h2 entry first. *)
Theorem processContentWithTOC_pass_order (body : string) :
  let body2 := (heading_pass 2 "h2" body []).1 in
  let toc := (processContentWithTOC body).2 in
  toc = ((entry 2 ∘ snd) <$> headings "h2" body)
        ++ ((entry 3 ∘ snd) <$> headings "h3" body2)
  ∧ StronglySorted (λ m1 m2, m1.1 < m2.1) (headings "h2" body)
  ∧ StronglySorted (λ m1 m2, m1.1 < m2.1) (headings "h3" body2)
  ∧ (∀ i j e2 e3,
       toc !! i = Some e2 → toc !! j = Some e3 →
       Level e2 = 2 → Level e3 = 3 → i < j)
  ∧ (processContentWithTOC ("<h3>B</h3>" +:+ bytes [10] +:+ "<h2>A</h2>")).2
    = [entry 2 "A"; entry 3 "B"].
Proof.
  cbv zeta.
  assert ((processContentWithTOC body).2
          = ((entry 2 ∘ snd) <$> headings "h2" body)
            ++ ((entry 3 ∘ snd) <$>
                  headings "h3" (heading_pass 2 "h2" body []).1)) as Htoc.
  { unfold processContentWithTOC.
    pose proof (heading_pass_toc 2 "h2" body []) as H2.
    destruct (heading_pass 2 "h2" body []) as [c2 t2]. cbn in H2. subst t2.
    pose proof (heading_pass_toc 3 "h3" c2
                  ((entry 2 ∘ snd) <$> headings "h2" body)) as H3.
    destruct (heading_pass 3 "h3" c2 _) as [c3 t3]. exact H3. }
  split; [exact Htoc|].
  split; [apply find_all_offsets_sorted|].
  split; [apply find_all_offsets_sorted|].
  split; [|reflexivity].
  rewrite Htoc. intros i j e2 e3 Hi Hj L2 L3.
  destruct (decide (i < j)) as [|Hge]; [done|exfalso].
  set (l2 := (entry 2 ∘ snd) <$> headings "h2" body) in *.
  set (l3 := (entry 3 ∘ snd) <$> headings "h3" _) in *.
  assert (∀ k e, l2 !! k = Some e → Level e = 2) as Hl2.
  { intros k e [m [-> _]]%list_lookup_fmap_Some. done. }
  assert (∀ k e, l3 !! k = Some e → Level e = 3) as Hl3.
  { intros k e [m [-> _]]%list_lookup_fmap_Some. done. }
  apply lookup_app_Some in Hi as [Hi|[Hi1 Hi2]];
    apply lookup_app_Some in Hj as [Hj|[Hj1 Hj2]].
  - apply Hl2 in Hj. congruence.
  - apply lookup_lt_Some in Hi. lia.
  - apply Hl3 in Hi2. congruence.
  - apply Hl3 in Hi2. congruence.
Qed.

(** ** Orders and the contract of [sort.Slice] *)

(** What [sort.Slice] asks of [less]: a strict weak order. *)
Record StrictWeakOrder {A : Type} (less : A → A → bool) : Prop := {
  swo_irrefl : ∀ x, less x x = false;
  swo_trans : ∀ x y z, less x y = true → less y z = true → less x z = true;
  swo_neg_trans :
    ∀ x y z, less x y = false → less y z = false → less x z = false
}.

(** What [sort.Slice] promises: no element is less than one before it. *)
Definition sorted_by {A : Type} (less : A → A → bool) (l : list A) : Prop :=
  ∀ i j x y, i < j → l !! i = Some x → l !! j = Some y → less y x = false.

Lemma ltb_negb_leb (a b : string) : String.ltb a b = negb (String.leb b a).
Proof.
  unfold String.ltb, String.leb. rewrite (String.compare_antisym b a).
  by destruct (String.compare a b).
Qed.

Lemma leb_trans (a b c : string) :
  String.leb a b = true → String.leb b c = true → String.leb a c = true.
Proof.
  intros H1%Is_true_true H2%Is_true_true. apply Is_true_true.
  change (String.le a c). by etrans.
Qed.

Lemma leb_refl (a : string) : String.leb a a = true.
Proof. apply Is_true_true. change (String.le a a). done. Qed.

Lemma leb_total_or (a b : string) :
  String.leb a b = true ∨ String.leb b a = true.
Proof. apply String.leb_total. Qed.

(** Comparing a string key with [<] is a strict weak order. *)
Lemma key_ltb_swo {A : Type} (key : A → string) :
  StrictWeakOrder (λ x y, String.ltb (key x) (key y)).
Proof.
  split.
  - intros x. by rewrite ltb_negb_leb, leb_refl.
  - intros x y z. rewrite !ltb_negb_leb, !negb_true_iff.
    intros H1 H2.
    destruct (String.leb (key z) (key x)) eqn:H3; [|done].
    destruct (leb_total_or (key x) (key y)) as [H4|H4]; [|congruence].
    pose proof (leb_trans _ _ _ H3 H4). congruence.
  - intros x y z. rewrite !ltb_negb_leb, !negb_false_iff.
    intros H1 H2. by eapply leb_trans.
Qed.

(** And so is comparing it with [>]. *)
Lemma key_gtb_swo {A : Type} (key : A → string) :
  StrictWeakOrder (λ x y, String.ltb (key y) (key x)).
Proof.
  destruct (key_ltb_swo key) as [Hi Ht Hn]. split.
  - intros x. apply Hi.
  - intros x y z H1 H2. by apply (Ht z y x).
  - intros x y z H1 H2. by apply (Hn z y x).
Qed.

(** ** Correctness of the [sort.Slice] model *)

Section SortFacts.

Context {A : Type} `{!Inhabited A} (less : A → A → bool).

Local Abbreviation Less := (Sort.Less less).

Lemma Less_total (d : list A) (i j : nat) :
  i < length d → j < length d →
  Less d i j = less (d !!! i) (d !!! j).
Proof.
  intros Hi Hj. unfold Sort.Less.
  by rewrite !(list_lookup_lookup_total_lt d) by done.
Qed.

Lemma Swap_total (d : list A) (i j : nat) :
  i < length d → j < length d →
  Sort.Swap d i j = <[i:=d !!! j]> (<[j:=d !!! i]> d).
Proof.
  intros Hi Hj. unfold Sort.Swap.
  by rewrite !(list_lookup_lookup_total_lt d) by done.
Qed.

Lemma length_Swap (d : list A) (i j : nat) :
  length (Sort.Swap d i j) = length d.
Proof.
  unfold Sort.Swap. destruct (d !! i), (d !! j); try done.
  by rewrite !length_insert.
Qed.

Lemma Swap_lookup (d : list A) (i j k : nat) :
  i < length d → j < length d →
  Sort.Swap d i j !!! k
  = if decide (k = i) then d !!! j
    else if decide (k = j) then d !!! i else d !!! k.
Proof.
  intros Hi Hj. rewrite Swap_total by done.
  destruct (decide (k = i)) as [->|Hki].
  - rewrite list_lookup_total_insert_eq; [done|by rewrite length_insert].
  - rewrite list_lookup_total_insert_ne by done.
    destruct (decide (k = j)) as [->|Hkj].
    + by rewrite list_lookup_total_insert_eq.
    + by rewrite list_lookup_total_insert_ne.
Qed.

Lemma Swap_lookup_other (d : list A) (i j k : nat) :
  k ≠ i → k ≠ j → Sort.Swap d i j !!! k = d !!! k.
Proof.
  intros Hi Hj. unfold Sort.Swap.
  destruct (d !! i), (d !! j); try done.
  by rewrite !list_lookup_total_insert_ne.
Qed.

Lemma Swap_perm (d : list A) (i j : nat) : Sort.Swap d i j ≡ₚ d.
Proof.
  unfold Sort.Swap.
  destruct (d !! i) as [x|] eqn:Hx; [|done].
  destruct (d !! j) as [y|] eqn:Hy; [|done].
  destruct (decide (i = j)) as [->|Hne].
  - rewrite list_insert_insert_eq. rewrite list_insert_id; [done|congruence].
  - symmetry. apply Permutation_inj. split; [by rewrite !length_insert|].
    exists (λ k, if decide (k = i) then j else if decide (k = j) then i else k).
    split.
    + intros k1 k2. repeat case_decide; congruence.
    + intros k. destruct (decide (k = i)) as [->|]; [|case_decide as Hk].
      * rewrite list_lookup_insert_ne by done.
        rewrite list_lookup_insert_eq; [done|by eapply lookup_lt_Some].
      * subst. rewrite list_lookup_insert_eq; [done|].
        rewrite length_insert. by eapply lookup_lt_Some.
      * by rewrite !list_lookup_insert_ne.
Qed.

(** [d'] comes from [d] by swaps of positions inside [[a, b)]. *)
Inductive swaps_in (a b : nat) : list A → list A → Prop :=
| swaps_refl d : swaps_in a b d d
| swaps_step d d' i j :
    a ≤ i < b → a ≤ j < b →
    swaps_in a b (Sort.Swap d i j) d' → swaps_in a b d d'.

Lemma swaps_in_trans (a b : nat) (d1 d2 d3 : list A) :
  swaps_in a b d1 d2 → swaps_in a b d2 d3 → swaps_in a b d1 d3.
Proof.
  induction 1 as [|d d' i j Hi Hj _ IH]; [done|].
  intros H3. eapply swaps_step; [exact Hi|exact Hj|by apply IH].
Qed.

Lemma swaps_in_Swap (a b : nat) (d : list A) (i j : nat) :
  a ≤ i < b → a ≤ j < b → swaps_in a b d (Sort.Swap d i j).
Proof. intros Hi Hj. eapply swaps_step; [exact Hi|exact Hj|constructor]. Qed.

Lemma swaps_in_weaken (a b a' b' : nat) (d d' : list A) :
  a' ≤ a → b ≤ b' → swaps_in a b d d' → swaps_in a' b' d d'.
Proof.
  intros Ha Hb. induction 1 as [|d d' i j Hi Hj _ IH]; [constructor|].
  eapply swaps_step; [| |exact IH]; lia.
Qed.

Lemma swaps_in_length (a b : nat) (d d' : list A) :
  swaps_in a b d d' → length d' = length d.
Proof.
  induction 1 as [|d d' i j Hi Hj _ IH]; [done|].
  by rewrite IH, length_Swap.
Qed.

Lemma swaps_in_outside (a b : nat) (d d' : list A) (k : nat) :
  swaps_in a b d d' → k < a ∨ b ≤ k → d' !!! k = d !!! k.
Proof.
  induction 1 as [|d d' i j Hi Hj _ IH]; [done|].
  intros Hk. rewrite IH by done. apply Swap_lookup_other; lia.
Qed.

Lemma swaps_in_perm (a b : nat) (d d' : list A) :
  swaps_in a b d d' → d' ≡ₚ d.
Proof.
  induction 1 as [|d d' i j Hi Hj _ IH]; [done|].
  by rewrite IH, Swap_perm.
Qed.

(** A property of all the elements of the range survives the swaps. *)
Lemma swaps_in_all (P : A → Prop) (a b : nat) (d d' : list A) :
  b ≤ length d →
  swaps_in a b d d' →
  (∀ k, a ≤ k < b → P (d !!! k)) → (∀ k, a ≤ k < b → P (d' !!! k)).
Proof.
  intros Hb Hs. induction Hs as [|d d' i j Hi Hj _ IH]; [done|].
  intros HP. apply IH; [by rewrite length_Swap|].
  intros k Hk. rewrite Swap_lookup by lia.
  repeat case_decide; apply HP; lia.
Qed.

End SortFacts.

Section InsertionSort.

Context {A : Type} `{!Inhabited A} (less : A → A → bool).
Context (Hswo : StrictWeakOrder less).

Local Abbreviation Less := (Sort.Less less).

(** The range [[a, b)] of [d] is in order. *)
Definition sorted_in (a b : nat) (d : list A) : Prop :=
  ∀ i j, a ≤ i → i < j → j < b → less (d !!! j) (d !!! i) = false.

Lemma sorted_in_adjacent (a b : nat) (d : list A) :
  (∀ k, a < k → k < b → less (d !!! k) (d !!! (k - 1)) = false) →
  sorted_in a b d.
Proof using Hswo.
  intros Hadj i j Hi Hij Hj.
  induction j as [|j IH]; [lia|].
  destruct (decide (i = j)) as [->|Hne].
  - specialize (Hadj (S j)). rewrite Nat.sub_1_r in Hadj. cbn in Hadj.
    apply Hadj; lia.
  - eapply (swo_neg_trans _ Hswo _ (d !!! j)).
    + specialize (Hadj (S j)). rewrite Nat.sub_1_r in Hadj. cbn in Hadj.
      apply Hadj; lia.
    + apply IH; lia.
Qed.

Lemma sorted_in_swaps_outside (a b a' b' : nat) (d d' : list A) :
  swaps_in a' b' d d' → b ≤ a' ∨ b' ≤ a →
  sorted_in a b d → sorted_in a b d'.
Proof.
  intros Hs Hout Hd i j Hi Hij Hj.
  rewrite !(swaps_in_outside a' b' d d') by (done || lia).
  by apply Hd.
Qed.

(** The inner loop of the insertion sort sinks the element at [j] into the
    sorted range before it; the elements after [j], up to [i], stay above
    it. *)
Lemma insertionSort_inner_spec (a i : nat) (j : nat) (d : list A) :
  a ≤ j → j ≤ i → i < length d →
  sorted_in a j d → sorted_in j (S i) d →
  (∀ p q, a ≤ p → p < j → j < q → q ≤ i →
          less (d !!! q) (d !!! p) = false) →
  swaps_in a (S i) d (Sort.insertionSort_inner less d a j)
  ∧ sorted_in a (S i) (Sort.insertionSort_inner less d a j).
Proof using Hswo.
  revert d. induction j as [|j IH]; intros d Ha Hji Hi Hlo Hhi Hx.
  { cbn. split; [constructor|]. assert (a = 0) as -> by lia. done. }
  cbn [Sort.insertionSort_inner].
  assert (sorted_in a (S i) d ∨
          (a < S j ∧ less (d !!! S j) (d !!! j) = true)) as [Hs|[Haj Hlt]].
  { destruct (decide (a < S j)) as [Haj|Haj].
    2:{ left. assert (a = S j) as -> by lia. done. }
    destruct (less (d !!! S j) (d !!! j)) eqn:Hlt; [by right|left].
    intros p q Hp Hpq Hq.
    destruct (decide (q < S j)); [apply Hlo; lia|].
    destruct (decide (S j ≤ p)); [apply Hhi; lia|].
    destruct (decide (q = S j)) as [->|]; [|apply Hx; lia].
    destruct (decide (p = j)) as [->|]; [done|].
    eapply (swo_neg_trans _ Hswo _ (d !!! j)); [done|apply Hlo; lia]. }
  { destruct ((a <? S j) && Less d (S j) j) eqn:Hc.
    2:{ split; [constructor|done]. }
    apply andb_true_iff in Hc as [Haj%Nat.ltb_lt Hlt].
    rewrite Less_total in Hlt by lia.
    pose proof (Hs j (S j) ltac:(lia) ltac:(lia) ltac:(lia)). congruence. }
  rewrite (proj2 (Nat.ltb_lt a (S j))) by done.
  rewrite Less_total by lia. rewrite Hlt. cbn [andb].
  set (d1 := Sort.Swap d (S j) j).
  assert (∀ k, d1 !!! k = if decide (k = S j) then d !!! j
                          else if decide (k = j) then d !!! S j
                          else d !!! k) as Hd1.
  { intros k. unfold d1. by rewrite Swap_lookup by lia. }
  destruct (IH d1) as [IHs IHo].
  - lia.
  - lia.
  - unfold d1. rewrite length_Swap. lia.
  - intros p q Hp Hpq Hq. rewrite !Hd1.
    rewrite !decide_False by lia. apply Hlo; lia.
  - intros p q Hp Hpq Hq. rewrite !Hd1.
    destruct (decide (q = S j)) as [->|Hq1].
    + rewrite decide_False by lia. rewrite decide_True by lia.
      destruct (less (d !!! j) (d !!! S j)) eqn:Hc; [|done].
      pose proof (swo_trans _ Hswo _ _ _ Hc Hlt) as Hr.
      by rewrite (swo_irrefl _ Hswo) in Hr.
    + rewrite (decide_False (P := q = j)) by lia.
      destruct (decide (p = S j)) as [->|Hp1].
      * apply Hx; lia.
      * destruct (decide (p = j)) as [->|Hp2]; apply Hhi; lia.
  - intros p q Hp Hpj Hjq Hq. rewrite !Hd1.
    rewrite (decide_False (P := p = S j)), (decide_False (P := p = j)) by lia.
    rewrite (decide_False (P := q = j)) by lia.
    destruct (decide (q = S j)) as [->|]; [apply Hlo; lia|apply Hx; lia].
  - split; [|done].
    eapply swaps_step; [| |exact IHs]; lia.
Qed.

Lemma insertionSort_loop_spec (a n i : nat) (d : list A) :
  a < i → i + n ≤ length d → sorted_in a i d →
  let d' := fold_left (λ data i, Sort.insertionSort_inner less data a i)
              (seq i n) d in
  swaps_in a (i + n) d d' ∧ sorted_in a (i + n) d'.
Proof using Hswo.
  revert i d. induction n as [|n IH]; intros i d Hai Hlen Hs; cbn zeta.
  { cbn. rewrite Nat.add_0_r. split; [constructor|done]. }
  cbn [seq fold_left].
  destruct (insertionSort_inner_spec a i i d) as [Hsw Hso];
    [lia|lia|lia|done| |intros; lia|].
  { intros p q ???. lia. }
  destruct (IH (S i) (Sort.insertionSort_inner less d a i)) as [Hsw2 Hso2].
  - lia.
  - rewrite (swaps_in_length _ _ _ _ Hsw). lia.
  - done.
  - replace (i + S n) with (S i + n) by lia. split; [|done].
    eapply swaps_in_trans; [|exact Hsw2].
    eapply swaps_in_weaken; [| |exact Hsw]; lia.
Qed.

Lemma insertionSort_func_spec (a b : nat) (d : list A) :
  b ≤ length d →
  swaps_in a b d (Sort.insertionSort_func less d a b)
  ∧ sorted_in a b (Sort.insertionSort_func less d a b).
Proof using Hswo.
  intros Hb. unfold Sort.insertionSort_func.
  destruct (decide (a + 1 < b)) as [Hab|Hab].
  - destruct (insertionSort_loop_spec a (b - (a + 1)) (a + 1) d)
      as [Hsw Hso]; [lia|lia|intros p q ???; lia|].
    by replace (a + 1 + (b - (a + 1))) with b in * by lia.
  - replace (b - (a + 1)) with 0 by lia. cbn.
    split; [constructor|]. intros p q ???; lia.
Qed.

End InsertionSort.

Section Partition.

Context {A : Type} `{!Inhabited A} (less : A → A → bool).

Local Abbreviation Less := (Sort.Less less).

Lemma scan_up_spec (cond : nat → bool) (fuel i j : nat) :
  S j - i ≤ fuel → i ≤ S j →
  let i' := Sort.scan_up cond fuel i j in
  i ≤ i' ∧ i' ≤ S j ∧ (∀ k, i ≤ k → k < i' → cond k = true)
  ∧ (i' ≤ j → cond i' = false).
Proof.
  revert i. induction fuel as [|fuel IH]; intros i Hf Hi; cbn zeta.
  { cbn. repeat split; try lia. }
  cbn [Sort.scan_up].
  destruct (decide (i ≤ j)) as [Hij|Hij].
  2:{ rewrite (proj2 (Nat.leb_gt i j)) by lia. cbn.
      repeat split; try lia. }
  rewrite (proj2 (Nat.leb_le i j)) by done. cbn [andb].
  destruct (cond i) eqn:Hc.
  - destruct (IH (i + 1)) as (H1 & H2 & H3 & H4); [lia..|].
    repeat split; try lia; [|done].
    intros k Hk1 Hk2. destruct (decide (k = i)) as [->|]; [done|].
    apply H3; lia.
  - repeat split; try lia. done.
Qed.

Lemma scan_down_spec (cond : nat → bool) (fuel i j : nat) :
  S j - i ≤ fuel → 1 ≤ i → i ≤ S j →
  let j' := Sort.scan_down cond fuel i j in
  j' ≤ j ∧ i ≤ S j' ∧ (∀ k, j' < k → k ≤ j → cond k = true)
  ∧ (i ≤ j' → cond j' = false).
Proof.
  revert j. induction fuel as [|fuel IH]; intros j Hf H1i Hi; cbn zeta.
  { cbn. repeat split; try lia. }
  cbn [Sort.scan_down].
  destruct (decide (i ≤ j)) as [Hij|Hij].
  2:{ rewrite (proj2 (Nat.leb_gt i j)) by lia. cbn.
      repeat split; try lia. }
  rewrite (proj2 (Nat.leb_le i j)) by done. cbn [andb].
  destruct (cond j) eqn:Hc.
  - destruct (IH (j - 1)) as (H1 & H2 & H3 & H4); [lia..|].
    repeat split; try lia; [|done].
    intros k Hk1 Hk2. destruct (decide (k = j)) as [->|]; [done|].
    apply H3; lia.
  - repeat split; try lia. done.
Qed.

(** The main loop of [partition_func]: the pivot [p] sits at [a]; the
    elements before [i] are less than it, the elements after [j] are not. *)
Lemma partition_loop_spec (fuel : nat) (d : list A) (a b i j : nat) :
  S j - i ≤ fuel → a < i → i ≤ S j → j < b → b ≤ length d →
  (∀ k, a < k → k < i → less (d !!! k) (d !!! a) = true) →
  (∀ k, j < k → k < b → less (d !!! k) (d !!! a) = false) →
  let '(d', mid) := Sort.partition_loop less fuel d a i j in
  swaps_in (a + 1) b d d' ∧ a ≤ mid ∧ mid < b
  ∧ (∀ k, a < k → k ≤ mid → less (d' !!! k) (d !!! a) = true)
  ∧ (∀ k, mid < k → k < b → less (d' !!! k) (d !!! a) = false).
Proof.
  revert d i j.
  induction fuel as [|fuel IH]; intros d i j Hf Hai Hij Hjb Hb Hlo Hhi.
  { cbn. assert (i = S j) as -> by lia.
    split; [constructor|]. repeat split; try lia; [|done].
    intros k ??. apply Hlo; lia. }
  cbn [Sort.partition_loop].
  destruct (scan_up_spec (λ i, Less d i a) (S j - i) i j)
    as (Hi1 & Hi2 & Hi3 & Hi4); [lia..|].
  set (i' := Sort.scan_up _ _ i j) in *.
  destruct (scan_down_spec (λ j, negb (Less d j a)) (S j - i') i' j)
    as (Hj1 & Hj2 & Hj3 & Hj4); [lia..|].
  set (j' := Sort.scan_down _ _ i' j) in *.
  assert (∀ k, a < k → k < i' → less (d !!! k) (d !!! a) = true) as Hlo'.
  { intros k ??. destruct (decide (k < i)); [apply Hlo; lia|].
    rewrite <- Less_total by lia. apply Hi3; lia. }
  assert (∀ k, j' < k → k < b → less (d !!! k) (d !!! a) = false) as Hhi'.
  { intros k ??. destruct (decide (j < k)); [apply Hhi; lia|].
    rewrite <- Less_total by lia. apply negb_true_iff, Hj3; lia. }
  destruct (decide (j' < i')) as [Hlt|Hge].
  - rewrite (proj2 (Nat.ltb_lt j' i')) by done.
    split; [constructor|]. repeat split; try lia; [|done].
    intros k ??. apply Hlo'; lia.
  - rewrite (proj2 (Nat.ltb_ge j' i')) by lia.
    specialize (Hi4 ltac:(lia)). specialize (Hj4 ltac:(lia)).
    apply negb_false_iff in Hj4.
    rewrite Less_total in Hi4, Hj4 by lia.
    assert (i' ≠ j') by (intros Heq; rewrite Heq in Hi4; congruence).
    set (d1 := Sort.Swap d i' j').
    assert (∀ k, d1 !!! k = if decide (k = i') then d !!! j'
                            else if decide (k = j') then d !!! i'
                            else d !!! k) as Hd1.
    { intros k. unfold d1. by rewrite Swap_lookup by lia. }
    assert (d1 !!! a = d !!! a) as Hpa.
    { rewrite Hd1, !decide_False by lia. done. }
    specialize (IH d1 (i' + 1) (j' - 1)).
    destruct (Sort.partition_loop less fuel d1 a (i' + 1) (j' - 1))
      as [d' mid].
    destruct IH as (IH1 & IH2 & IH3 & IH4 & IH5);
      [lia|lia|lia|lia|by (unfold d1; rewrite length_Swap)| | |].
    + intros k ??. rewrite Hpa, Hd1.
      destruct (decide (k = i')); [done|].
      rewrite decide_False by lia. apply Hlo'; lia.
    + intros k ??. rewrite Hpa, Hd1. rewrite decide_False by lia.
      destruct (decide (k = j')); [done|]. apply Hhi'; lia.
    + rewrite Hpa in IH4, IH5. repeat split; try done.
      eapply swaps_step; [| |exact IH1]; lia.
Qed.

Lemma partition_func_spec (d : list A) (a b pivot : nat) :
  a ≤ pivot → pivot < b → b ≤ length d →
  let '(d', mid, _) := Sort.partition_func less d a b pivot in
  swaps_in a b d d' ∧ a ≤ mid ∧ mid < b
  ∧ d' !!! mid = d !!! pivot
  ∧ (∀ k, a ≤ k → k < mid → less (d' !!! k) (d !!! pivot) = true)
  ∧ (∀ k, mid < k → k < b → less (d' !!! k) (d !!! pivot) = false).
Proof.
  intros Hap Hpb Hb. unfold Sort.partition_func.
  set (d0 := Sort.Swap d a pivot).
  assert (length d0 = length d) as Hlen0 by apply length_Swap.
  assert (d0 !!! a = d !!! pivot) as Hp.
  { unfold d0. rewrite Swap_lookup by lia. by rewrite decide_True. }
  assert (swaps_in a b d d0) as Hs0 by (apply swaps_in_Swap; lia).
  rewrite <- Hp.
  destruct (scan_up_spec (λ i, Less d0 i a) (S (b - 1) - (a + 1))
              (a + 1) (b - 1))
    as (Hi1 & Hi2 & Hi3 & Hi4); [lia..|].
  set (i' := Sort.scan_up _ _ (a + 1) (b - 1)) in *.
  destruct (scan_down_spec (λ j, negb (Less d0 j a)) (S (b - 1) - i')
              i' (b - 1))
    as (Hj1 & Hj2 & Hj3 & Hj4); [lia..|].
  set (j' := Sort.scan_down _ _ i' (b - 1)) in *.
  assert (∀ k, a < k → k < i' → less (d0 !!! k) (d0 !!! a) = true) as Hlo.
  { intros k ??. rewrite <- Less_total by lia. apply Hi3; lia. }
  assert (∀ k, j' < k → k < b → less (d0 !!! k) (d0 !!! a) = false) as Hhi.
  { intros k ??. rewrite <- Less_total by lia.
    apply negb_true_iff, Hj3; lia. }
  destruct (decide (j' < i')) as [Hlt|Hge].
  - rewrite (proj2 (Nat.ltb_lt j' i')) by done.
    split; [|split; [lia|split; [lia|]]].
    { eapply swaps_in_trans; [exact Hs0|]. apply swaps_in_Swap; lia. }
    rewrite !Swap_lookup by lia. rewrite decide_True by done.
    split; [done|]. split.
    + intros k ??. rewrite Swap_lookup by lia.
      rewrite decide_False by lia.
      destruct (decide (k = a)) as [->|]; apply Hlo; lia.
    + intros k ??. rewrite Swap_lookup by lia.
      rewrite !decide_False by lia. apply Hhi; lia.
  - rewrite (proj2 (Nat.ltb_ge j' i')) by lia.
    specialize (Hi4 ltac:(lia)). specialize (Hj4 ltac:(lia)).
    apply negb_false_iff in Hj4.
    rewrite Less_total in Hi4, Hj4 by lia.
    assert (i' ≠ j') by (intros Heq; rewrite Heq in Hi4; congruence).
    set (d1 := Sort.Swap d0 i' j').
    assert (∀ k, d1 !!! k = if decide (k = i') then d0 !!! j'
                            else if decide (k = j') then d0 !!! i'
                            else d0 !!! k) as Hd1.
    { intros k. unfold d1. by rewrite Swap_lookup by lia. }
    assert (d1 !!! a = d0 !!! a) as Hpa.
    { rewrite Hd1, !decide_False by lia. done. }
    pose proof (partition_loop_spec (b - a) d1 a b (i' + 1) (j' - 1)) as HL.
    destruct (Sort.partition_loop less (b - a) d1 a (i' + 1) (j' - 1))
      as [d' mid].
    destruct HL as (L1 & L2 & L3 & L4 & L5);
      [lia|lia|lia|lia|by (unfold d1; rewrite length_Swap; lia)| | |].
    + intros k ??. rewrite Hpa, Hd1.
      destruct (decide (k = i')); [done|].
      rewrite decide_False by lia. apply Hlo; lia.
    + intros k ??. rewrite Hpa, Hd1. rewrite decide_False by lia.
      destruct (decide (k = j')); [done|]. apply Hhi; lia.
    + rewrite Hpa in L4, L5.
      assert (length d' = length d) as Hlen'.
      { rewrite (swaps_in_length _ _ _ _ L1). unfold d1.
        by rewrite length_Swap. }
      assert (d' !!! a = d0 !!! a) as Hpa'.
      { rewrite (swaps_in_outside _ _ _ _ a L1) by lia. done. }
      split; [|split; [lia|split; [lia|]]].
      { eapply swaps_in_trans; [exact Hs0|].
        eapply swaps_step with (i := i') (j := j'); [lia|lia|].
        eapply swaps_in_trans.
        - eapply swaps_in_weaken; [| |exact L1]; lia.
        - apply swaps_in_Swap; lia. }
      rewrite !Swap_lookup by lia. rewrite decide_True by done.
      split; [done|]. split.
      * intros k ??. rewrite Swap_lookup by lia.
        rewrite decide_False by lia.
        destruct (decide (k = a)) as [->|]; apply L4; lia.
      * intros k ??. rewrite Swap_lookup by lia.
        rewrite !decide_False by lia. apply L5; lia.
Qed.

End Partition.

Section PartitionEqual.

Context {A : Type} `{!Inhabited A} (less : A → A → bool).

Local Abbreviation Less := (Sort.Less less).

Lemma partitionEqual_loop_spec (fuel : nat) (d : list A) (a b i j : nat) :
  S j - i ≤ fuel → a < i → i ≤ S j → j < b → b ≤ length d →
  (∀ k, a < k → k < i → less (d !!! a) (d !!! k) = false) →
  (∀ k, j < k → k < b → less (d !!! a) (d !!! k) = true) →
  let '(d', mid) := Sort.partitionEqual_loop less fuel d a i j in
  swaps_in (a + 1) b d d' ∧ a < mid ∧ mid ≤ b
  ∧ (∀ k, a < k → k < mid → less (d !!! a) (d' !!! k) = false)
  ∧ (∀ k, mid ≤ k → k < b → less (d !!! a) (d' !!! k) = true).
Proof.
  revert d i j.
  induction fuel as [|fuel IH]; intros d i j Hf Hai Hij Hjb Hb Hlo Hhi.
  { cbn. assert (i = S j) as -> by lia.
    split; [constructor|]. repeat split; try lia; [done|].
    intros k ??. apply Hhi; lia. }
  cbn [Sort.partitionEqual_loop].
  destruct (scan_up_spec (λ i, negb (Less d a i)) (S j - i) i j)
    as (Hi1 & Hi2 & Hi3 & Hi4); [lia..|].
  set (i' := Sort.scan_up _ _ i j) in *.
  destruct (scan_down_spec (λ j, Less d a j) (S j - i') i' j)
    as (Hj1 & Hj2 & Hj3 & Hj4); [lia..|].
  set (j' := Sort.scan_down _ _ i' j) in *.
  assert (∀ k, a < k → k < i' → less (d !!! a) (d !!! k) = false) as Hlo'.
  { intros k ??. destruct (decide (k < i)); [apply Hlo; lia|].
    rewrite <- Less_total by lia. apply negb_true_iff, Hi3; lia. }
  assert (∀ k, j' < k → k < b → less (d !!! a) (d !!! k) = true) as Hhi'.
  { intros k ??. destruct (decide (j < k)); [apply Hhi; lia|].
    rewrite <- Less_total by lia. apply Hj3; lia. }
  destruct (decide (j' < i')) as [Hlt|Hge].
  - rewrite (proj2 (Nat.ltb_lt j' i')) by done.
    split; [constructor|]. repeat split; try lia; [done|].
    intros k ??. apply Hhi'; lia.
  - rewrite (proj2 (Nat.ltb_ge j' i')) by lia.
    specialize (Hi4 ltac:(lia)). specialize (Hj4 ltac:(lia)).
    apply negb_false_iff in Hi4.
    rewrite Less_total in Hi4, Hj4 by lia.
    assert (i' ≠ j') by (intros Heq; rewrite Heq in Hi4; congruence).
    set (d1 := Sort.Swap d i' j').
    assert (∀ k, d1 !!! k = if decide (k = i') then d !!! j'
                            else if decide (k = j') then d !!! i'
                            else d !!! k) as Hd1.
    { intros k. unfold d1. by rewrite Swap_lookup by lia. }
    assert (d1 !!! a = d !!! a) as Hpa.
    { rewrite Hd1, !decide_False by lia. done. }
    specialize (IH d1 (i' + 1) (j' - 1)).
    destruct (Sort.partitionEqual_loop less fuel d1 a (i' + 1) (j' - 1))
      as [d' mid].
    destruct IH as (IH1 & IH2 & IH3 & IH4 & IH5);
      [lia|lia|lia|lia|by (unfold d1; rewrite length_Swap)| | |].
    + intros k ??. rewrite Hpa, Hd1.
      destruct (decide (k = i')); [done|].
      rewrite decide_False by lia. apply Hlo'; lia.
    + intros k ??. rewrite Hpa, Hd1. rewrite decide_False by lia.
      destruct (decide (k = j')); [done|]. apply Hhi'; lia.
    + rewrite Hpa in IH4, IH5. repeat split; try done.
      eapply swaps_step; [| |exact IH1]; lia.
Qed.

Lemma partitionEqual_func_spec (d : list A) (a b pivot : nat) :
  a ≤ pivot → pivot < b → b ≤ length d →
  let '(d', mid) := Sort.partitionEqual_func less d a b pivot in
  swaps_in a b d d' ∧ a < mid ∧ mid ≤ b
  ∧ d' !!! a = d !!! pivot
  ∧ (∀ k, a < k → k < mid → less (d !!! pivot) (d' !!! k) = false)
  ∧ (∀ k, mid ≤ k → k < b → less (d !!! pivot) (d' !!! k) = true).
Proof.
  intros Hap Hpb Hb. unfold Sort.partitionEqual_func.
  set (d0 := Sort.Swap d a pivot).
  assert (d0 !!! a = d !!! pivot) as Hp.
  { unfold d0. rewrite Swap_lookup by lia. by rewrite decide_True. }
  pose proof (partitionEqual_loop_spec (b - a) d0 a b (a + 1) (b - 1)) as HL.
  destruct (Sort.partitionEqual_loop less (b - a) d0 a (a + 1) (b - 1))
    as [d' mid].
  destruct HL as (L1 & L2 & L3 & L4 & L5);
    [lia|lia|lia|lia|by (unfold d0; rewrite length_Swap)
    |intros; lia|intros; lia|].
  rewrite Hp in L4, L5. repeat split; try done.
  - eapply swaps_step with (i := a) (j := pivot); [lia|lia|].
    eapply swaps_in_weaken; [| |exact L1]; lia.
  - rewrite (swaps_in_outside _ _ _ _ a L1) by lia. done.
Qed.

End PartitionEqual.

Section Pivot.

Context {A : Type} `{!Inhabited A} (less : A → A → bool).

Lemma order2_func_in (d : list A) (a b s : nat) :
  let '(x, y, _) := Sort.order2_func less d a b s in
  (x = a ∧ y = b) ∨ (x = b ∧ y = a).
Proof. unfold Sort.order2_func. destruct (Sort.Less _ _ _ _); auto. Qed.

Lemma median_func_in (d : list A) (a b c s : nat) :
  let '(m, _) := Sort.median_func less d a b c s in m = a ∨ m = b ∨ m = c.
Proof.
  unfold Sort.median_func.
  pose proof (order2_func_in d a b s) as H1.
  destruct (Sort.order2_func less d a b s) as [[a1 b1] s1].
  pose proof (order2_func_in d b1 c s1) as H2.
  destruct (Sort.order2_func less d b1 c s1) as [[b2 c2] s2].
  pose proof (order2_func_in d a1 b2 s2) as H3.
  destruct (Sort.order2_func less d a1 b2 s2) as [[a3 b3] s3].
  lia.
Qed.

(** The pivot is a position of the range. *)
Lemma choosePivot_func_range (d : list A) (a b : nat) :
  12 < b - a →
  let '(pivot, _) := Sort.choosePivot_func less d a b in
  a ≤ pivot ∧ pivot < b.
Proof.
  intros Hl. unfold Sort.choosePivot_func.
  set (l := b - a) in *. set (q := l / 4).
  assert (4 * q ≤ l ∧ l < 4 * q + 4) as Hq.
  { pose proof (Nat.div_mod l 4 ltac:(lia)) as Hdm.
    pose proof (Nat.mod_upper_bound l 4 ltac:(lia)). fold q in Hdm. lia. }
  rewrite (proj2 (Nat.leb_le 8 l)) by lia.
  assert (∀ js : nat * nat, a ≤ js.1 ∧ js.1 < b →
            let '(pivot, _) :=
              (if js.2 =? 0 then (js.1, Sort.increasingHint)
               else if js.2 =? Sort.maxSwaps then (js.1, Sort.decreasingHint)
               else (js.1, Sort.unknownHint)) in
            a ≤ pivot ∧ pivot < b) as Hfin.
  { intros [j s] Hj. cbn [fst snd] in *.
    by destruct (s =? 0), (s =? Sort.maxSwaps). }
  destruct (Sort.shortestNinther <=? l) eqn:Hn.
  - apply Nat.leb_le in Hn. unfold Sort.shortestNinther in Hn.
    unfold Sort.medianAdjacent_func.
    pose proof (median_func_in d (a + q * 1 - 1) (a + q * 1) (a + q * 1 + 1) 0)
      as H1.
    destruct (Sort.median_func less d (a + q * 1 - 1) _ _ 0) as [i1 s1].
    pose proof (median_func_in d (a + q * 2 - 1) (a + q * 2) (a + q * 2 + 1) s1)
      as H2.
    destruct (Sort.median_func less d (a + q * 2 - 1) _ _ s1) as [j1 s2].
    pose proof (median_func_in d (a + q * 3 - 1) (a + q * 3) (a + q * 3 + 1) s2)
      as H3.
    destruct (Sort.median_func less d (a + q * 3 - 1) _ _ s2) as [k1 s3].
    pose proof (median_func_in d i1 j1 k1 s3) as H4.
    destruct (Sort.median_func less d i1 j1 k1 s3) as [j s].
    apply (Hfin (j, s)). cbn. lia.
  - pose proof (median_func_in d (a + q * 1) (a + q * 2) (a + q * 3) 0) as H4.
    destruct (Sort.median_func less d _ _ _ 0) as [j s].
    apply (Hfin (j, s)). cbn. lia.
Qed.

Lemma reverseRange_go_swaps (a b fuel : nat) (d : list A) (i j : nat) :
  a ≤ i → j < b →
  swaps_in a b d (Sort.reverseRange_go fuel d i j).
Proof.
  revert d i j. induction fuel as [|fuel IH]; intros d i j Hi Hj.
  { constructor. }
  cbn [Sort.reverseRange_go]. destruct (i <? j) eqn:Hij; [|constructor].
  apply Nat.ltb_lt in Hij.
  eapply swaps_step with (i := i) (j := j); [lia|lia|].
  apply IH; lia.
Qed.

Lemma reverseRange_func_swaps (d : list A) (a b : nat) :
  a < b → swaps_in a b d (Sort.reverseRange_func d a b).
Proof. intros. apply reverseRange_go_swaps; lia. Qed.

Lemma bits_Len_bound (l : nat) : 0 < l → 2 ^ Sort.bits_Len l ≤ 2 * l.
Proof.
  intros Hl. unfold Sort.bits_Len. destruct l as [|l]; [lia|].
  pose proof (Nat.log2_spec (S l) ltac:(lia)) as [Hlo _].
  rewrite Nat.pow_succ_r'. lia.
Qed.

Lemma breakPatterns_func_swaps (d : list A) (a b : nat) :
  swaps_in a b d (Sort.breakPatterns_func d a b).
Proof.
  unfold Sort.breakPatterns_func.
  destruct (8 <=? b - a) eqn:Hl; [|constructor].
  apply Nat.leb_le in Hl.
  set (l := b - a) in *. set (q := l / 4).
  assert (4 * q ≤ l ∧ l < 4 * q + 4) as Hq.
  { pose proof (Nat.div_mod l 4 ltac:(lia)) as Hdm.
    pose proof (Nat.mod_upper_bound l 4 ltac:(lia)). fold q in Hdm. lia. }
  set (step := λ '(data, random) (i : nat),
         let random := Sort.xorshift_Next random in
         let other := Z.to_nat (Z.land random (Z.of_nat (2 ^ Sort.bits_Len l) - 1)) in
         let other := if l <=? other then other - l else other in
         (Sort.Swap data (a + q * 2 - 1 - 1 + i) (a + other), random)).
  assert (∀ (ixs : list nat) (d0 : list A) (r : Z),
            Forall (λ i, i < 3) ixs →
            swaps_in a b d0 (fold_left step ixs (d0, r)).1) as Hfold.
  { induction ixs as [|i ixs IH]; intros d0 r His; [constructor|].
    apply Forall_cons in His as [Hi His]. cbn [fold_left].
    unfold step at 2.
    set (r' := Sort.xorshift_Next r).
    set (o := Z.to_nat (Z.land r' (Z.of_nat (2 ^ Sort.bits_Len l) - 1))).
    assert (o < 2 * l) as Ho.
    { pose proof (bits_Len_bound l ltac:(lia)) as Hb.
      unfold o. rewrite Nat2Z.inj_pow.
      change (Z.of_nat 2) with 2%Z.
      rewrite Z.sub_1_r, <- Z.ones_equiv, Z.land_ones by lia.
      pose proof (Z.mod_pos_bound r' (2 ^ Z.of_nat (Sort.bits_Len l))%Z
                    ltac:(lia)) as Hm.
      assert (2 ^ Z.of_nat (Sort.bits_Len l) ≤ 2 * Z.of_nat l)%Z.
      { rewrite <- (Nat2Z.inj_pow 2). lia. }
      lia. }
    eapply swaps_step; [| |apply IH; exact His].
    - lia.
    - destruct (l <=? o) eqn:Hlo; [apply Nat.leb_le in Hlo|
        apply Nat.leb_gt in Hlo]; lia. }
  apply Hfold. repeat constructor.
Qed.

End Pivot.

Section PartialInsertionSort.

Context {A : Type} `{!Inhabited A} (less : A → A → bool).
Context (Hswo : StrictWeakOrder less).

Local Abbreviation Less := (Sort.Less less).

(** What [pdqsort_func] relies on when [a > 0]: no element of the range is
    less than the element just before the range. *)
Definition lower_bounded (a b : nat) (d : list A) : Prop :=
  0 < a → ∀ k, a ≤ k → k < b → less (d !!! k) (d !!! (a - 1)) = false.

Lemma lower_bounded_swaps (a b a' b' : nat) (d d' : list A) :
  b ≤ length d → a ≤ a' → b' ≤ b →
  swaps_in a' b' d d' → lower_bounded a b d → lower_bounded a b d'.
Proof.
  intros Hb Ha Hb' Hs Hlb Ha0 k Hk1 Hk2.
  rewrite (swaps_in_outside _ _ _ _ (a - 1) Hs) by lia.
  apply (swaps_in_all (λ x, less x (d !!! (a - 1)) = false) a b d d');
    [done| |intros k' [??]; by apply Hlb|lia].
  eapply swaps_in_weaken; [| |exact Hs]; lia.
Qed.

Lemma scan_in_order_spec (fuel : nat) (d : list A) (i b : nat) :
  b - i ≤ fuel → 1 ≤ i → i ≤ b → b ≤ length d →
  let i' := Sort.scan_in_order less fuel d i b in
  i ≤ i' ∧ i' ≤ b
  ∧ (∀ k, i ≤ k → k < i' → less (d !!! k) (d !!! (k - 1)) = false)
  ∧ (i' < b → less (d !!! i') (d !!! (i' - 1)) = true).
Proof.
  revert i. induction fuel as [|fuel IH]; intros i Hf H1 Hi Hb; cbn zeta.
  { cbn. repeat split; try lia. }
  cbn [Sort.scan_in_order].
  destruct (decide (i < b)) as [Hib|Hib].
  2:{ rewrite (proj2 (Nat.ltb_ge i b)) by lia. cbn.
      repeat split; try lia. }
  rewrite (proj2 (Nat.ltb_lt i b)) by done. cbn [andb].
  rewrite Less_total by lia.
  destruct (less (d !!! i) (d !!! (i - 1))) eqn:Hc; cbn [negb].
  - repeat split; try lia. done.
  - destruct (IH (i + 1)) as (I1 & I2 & I3 & I4); [lia..|].
    repeat split; try lia; [|done].
    intros k ??. destruct (decide (k = i)) as [->|]; [done|].
    apply I3; lia.
Qed.

Lemma sorted_in_extend (a i i' : nat) (d : list A) :
  a < i → sorted_in less a i d →
  (∀ k, i ≤ k → k < i' → less (d !!! k) (d !!! (k - 1)) = false) →
  sorted_in less a i' d.
Proof using Hswo.
  intros Hai Hs Hadj. apply sorted_in_adjacent; [done|].
  intros k Hk1 Hk2. destruct (decide (k < i)).
  - apply Hs; lia.
  - apply Hadj; lia.
Qed.

(** On a range that is bounded below, shifting left stops at the start of
    the range at the latest: it is the inner loop of the insertion sort. *)
Lemma shift_left_inner (a b : nat) (d : list A) (j : nat) :
  a ≤ j → j < b → b ≤ length d → lower_bounded a b d →
  Sort.shift_left less d j = Sort.insertionSort_inner less d a j.
Proof.
  revert d. induction j as [|j IH]; intros d Ha Hj Hb Hlb; [done|].
  cbn [Sort.shift_left Sort.insertionSort_inner].
  rewrite Less_total by lia.
  destruct (decide (a < S j)) as [Haj|Haj].
  - rewrite (proj2 (Nat.ltb_lt a (S j))) by done. cbn [andb].
    destruct (less (d !!! S j) (d !!! j)); cbn [negb]; [|done].
    apply IH; [lia|lia|by rewrite length_Swap|].
    eapply (lower_bounded_swaps a b a b); [done|lia|lia| |done].
    apply swaps_in_Swap; lia.
  - rewrite (proj2 (Nat.ltb_ge a (S j))) by lia. cbn [andb].
    assert (a = S j) as Heq by lia.
    specialize (Hlb ltac:(lia) (S j) ltac:(lia) ltac:(lia)).
    rewrite Heq in Hlb. replace (S j - 1) with j in Hlb by lia.
    by rewrite Hlb.
Qed.

Lemma shift_right_swaps (lo b fuel : nat) (d : list A) (j : nat) :
  lo < j → swaps_in lo b d (Sort.shift_right less fuel d j b).
Proof.
  revert d j. induction fuel as [|fuel IH]; intros d j Hj; [constructor|].
  cbn [Sort.shift_right]. destruct (j <? b) eqn:Hjb; [|constructor].
  apply Nat.ltb_lt in Hjb.
  destruct (negb _); [constructor|].
  eapply swaps_step with (i := j) (j := j - 1); [lia|lia|].
  apply IH; lia.
Qed.

Lemma partialInsertionSort_go_spec (steps : nat) (d : list A) (i a b : nat) :
  a < i → i ≤ b → b ≤ length d →
  sorted_in less a i d → lower_bounded a b d →
  let '(d', ok) := Sort.partialInsertionSort_go less steps d i a b in
  swaps_in a b d d' ∧ (ok = true → sorted_in less a b d').
Proof using Hswo.
  revert d i. induction steps as [|steps IH]; intros d i Hai Hib Hb Hs Hlb.
  { cbn. split; [constructor|done]. }
  cbn [Sort.partialInsertionSort_go].
  destruct (scan_in_order_spec (b - i) d i b) as (I1 & I2 & I3 & I4);
    [lia..|].
  set (i' := Sort.scan_in_order less (b - i) d i b) in *.
  pose proof (sorted_in_extend a i i' d Hai Hs I3) as Hs'.
  destruct (i' =? b) eqn:Hi'b.
  { apply Nat.eqb_eq in Hi'b. rewrite Hi'b in Hs'.
    split; [constructor|done]. }
  apply Nat.eqb_neq in Hi'b.
  destruct (b - a <? Sort.shortestShifting); [split; [constructor|done]|].
  specialize (I4 ltac:(lia)).
  set (d1 := Sort.Swap d i' (i' - 1)).
  assert (swaps_in a b d d1) as Hs1 by (apply swaps_in_Swap; lia).
  assert (length d1 = length d) as Hl1 by apply length_Swap.
  assert (∀ k, d1 !!! k = if decide (k = i') then d !!! (i' - 1)
                          else if decide (k = i' - 1) then d !!! i'
                          else d !!! k) as Hd1.
  { intros k. unfold d1. by rewrite Swap_lookup by lia. }
  set (d2 := if 2 <=? i' - a then Sort.shift_left less d1 (i' - 1) else d1).
  assert (swaps_in a i' d1 d2 ∧ sorted_in less a i' d2) as [Hs2 Hso2].
  { unfold d2. destruct (2 <=? i' - a) eqn:H2.
    - apply Nat.leb_le in H2.
      rewrite (shift_left_inner a b) by
        (first [lia|eapply lower_bounded_swaps;
                      [| | |exact Hs1|exact Hlb]; lia]).
      destruct (insertionSort_inner_spec less Hswo a (i' - 1) (i' - 1) d1)
        as [Hsw Hso]; [lia|lia|lia| | | |].
      + intros p q ???. rewrite !Hd1, !decide_False by lia. apply Hs'; lia.
      + intros p q ???. lia.
      + intros p q ????. lia.
      + by replace (S (i' - 1)) with i' in * by lia.
    - apply Nat.leb_gt in H2. split; [constructor|].
      intros p q ???. lia. }
  set (d3 := if 2 <=? b - i'
             then Sort.shift_right less (b - (i' + 1)) d2 (i' + 1) b
             else d2).
  assert (swaps_in i' b d2 d3) as Hs3.
  { unfold d3. destruct (2 <=? b - i'); [|constructor].
    apply shift_right_swaps. lia. }
  assert (swaps_in a b d d3) as Hs03.
  { eapply swaps_in_trans; [exact Hs1|].
    eapply swaps_in_trans.
    - eapply swaps_in_weaken; [| |exact Hs2]; lia.
    - eapply swaps_in_weaken; [| |exact Hs3]; lia. }
  specialize (IH d3 i').
  destruct (Sort.partialInsertionSort_go less steps d3 i' a b) as [d' ok].
  destruct IH as [IH1 IH2].
  - lia.
  - lia.
  - by rewrite (swaps_in_length _ _ _ _ Hs03).
  - eapply sorted_in_swaps_outside; [exact Hs3|lia|done].
  - eapply lower_bounded_swaps; [| | |exact Hs03|exact Hlb]; lia.
  - split; [|done]. by eapply swaps_in_trans.
Qed.

Lemma partialInsertionSort_func_spec (d : list A) (a b : nat) :
  a < b → b ≤ length d → lower_bounded a b d →
  let '(d', ok) := Sort.partialInsertionSort_func less d a b in
  swaps_in a b d d' ∧ (ok = true → sorted_in less a b d').
Proof using Hswo.
  intros Hab Hb Hlb. unfold Sort.partialInsertionSort_func.
  apply partialInsertionSort_go_spec; [lia|lia|done| |done].
  intros p q ???. lia.
Qed.

End PartialInsertionSort.

Section HeapSort.

Context {A : Type} `{!Inhabited A} (less : A → A → bool).
Context (Hswo : StrictWeakOrder less).

Local Abbreviation Less := (Sort.Less less).

(** Node [c] of the heap is a child of node [r]. *)
Definition child_of (r c : nat) : Prop := c = 2 * r + 1 ∨ c = 2 * r + 2.

(** The heap stored from position [base] on, with [hi] nodes: every node
    from [lo] on is not less than its children. *)
Definition heap_above (base lo hi : nat) (d : list A) : Prop :=
  ∀ r c, lo ≤ r → c < hi → child_of r c →
         less (d !!! (base + r)) (d !!! (base + c)) = false.

(** The same with node [root] left out, and with the parent of [root], if
    it is a node from [lo] on, not less than the children of [root]. *)
Definition heap_except (base lo hi root : nat) (d : list A) : Prop :=
  (∀ r c, lo ≤ r → r ≠ root → c < hi → child_of r c →
          less (d !!! (base + r)) (d !!! (base + c)) = false)
  ∧ (∀ q c, lo ≤ q → child_of q root → c < hi → child_of root c →
            less (d !!! (base + q)) (d !!! (base + c)) = false).

Lemma less_asym (x y : A) : less x y = true → less y x = false.
Proof using Hswo.
  intros Hxy. destruct (less y x) eqn:Hyx; [|done].
  pose proof (swo_trans _ Hswo _ _ _ Hxy Hyx) as Hr.
  by rewrite (swo_irrefl _ Hswo) in Hr.
Qed.

Lemma siftDown_go_spec (fuel : nat) (d : list A) (base lo hi root : nat) :
  hi - root ≤ fuel → lo ≤ root → base + hi ≤ length d →
  heap_except base lo hi root d →
  swaps_in (base + lo) (base + hi) d
    (Sort.siftDown_go less fuel d root hi base)
  ∧ heap_above base lo hi (Sort.siftDown_go less fuel d root hi base).
Proof using Hswo.
  revert d root.
  induction fuel as [|fuel IH]; intros d root Hf Hlo Hlen [Hex Hgp].
  { cbn. split; [constructor|]. intros r c Hr Hc Hrc.
    apply Hex; try done. unfold child_of in Hrc. lia. }
  cbn [Sort.siftDown_go].
  destruct (decide (hi ≤ 2 * root + 1)) as [Hleaf|Hin].
  { rewrite (proj2 (Nat.leb_le hi (2 * root + 1))) by done.
    split; [constructor|]. intros r c Hr Hc Hrc.
    apply Hex; try done. unfold child_of in Hrc. lia. }
  rewrite (proj2 (Nat.leb_gt hi (2 * root + 1))) by lia.
  set (c1 := 2 * root + 1) in *.
  set (ch := if (c1 + 1 <? hi) && Less d (base + c1) (base + c1 + 1)
             then c1 + 1 else c1).
  assert ((ch = c1 ∨ ch = c1 + 1) ∧ ch < hi
          ∧ (∀ c, child_of root c → c < hi →
                  less (d !!! (base + ch)) (d !!! (base + c)) = false))
    as (Hch & Hchhi & Hmax).
  { unfold ch. destruct (decide (c1 + 1 < hi)) as [H2|H2].
    - rewrite (proj2 (Nat.ltb_lt (c1 + 1) hi)) by done. cbn [andb].
      rewrite Less_total by lia.
      destruct (less (d !!! (base + c1)) (d !!! (base + c1 + 1))) eqn:Hc.
      + split; [by right|]. split; [done|].
        intros c [->| ->] _; fold c1.
        * replace (base + (c1 + 1)) with (base + c1 + 1) by lia.
          by apply less_asym.
        * replace (2 * root + 2) with (c1 + 1) by (unfold c1; lia).
          apply (swo_irrefl _ Hswo).
      + split; [by left|]. split; [lia|].
        intros c [->| ->] _; fold c1.
        * apply (swo_irrefl _ Hswo).
        * replace (base + (2 * root + 2)) with (base + c1 + 1)
            by (unfold c1; lia). done.
    - rewrite (proj2 (Nat.ltb_ge (c1 + 1) hi)) by lia. cbn [andb].
      split; [by left|]. split; [lia|].
      intros c [->| ->] Hc; fold c1; [apply (swo_irrefl _ Hswo)|].
      unfold c1 in *. lia. }
  clearbody ch.
  rewrite Less_total by lia.
  destruct (less (d !!! (base + root)) (d !!! (base + ch))) eqn:Hrc;
    cbn [negb].
  2:{ split; [constructor|]. intros r c Hr Hc Hcr.
      destruct (decide (r = root)) as [->|Hne]; [|by apply Hex].
      eapply (swo_neg_trans _ Hswo); [exact Hrc|by apply Hmax]. }
  set (d1 := Sort.Swap d (base + root) (base + ch)).
  assert (∀ k, d1 !!! (base + k)
               = if decide (k = root) then d !!! (base + ch)
                 else if decide (k = ch) then d !!! (base + root)
                 else d !!! (base + k)) as Hd1.
  { intros k. unfold d1. rewrite Swap_lookup by lia.
    repeat case_decide; try done; lia. }
  assert (child_of root ch) as Hrch by (unfold child_of, c1 in *; lia).
  destruct (IH d1 ch) as [IH1 IH2].
  - unfold c1 in *. lia.
  - unfold c1 in *. lia.
  - unfold d1. by rewrite length_Swap.
  - split.
    + intros r c Hr Hne Hc Hcr. rewrite !Hd1.
      destruct (decide (r = root)) as [->|Hr1].
      * destruct (decide (c = root)); [unfold child_of in Hcr; lia|].
        destruct (decide (c = ch)) as [->|]; [by apply less_asym|].
        by apply Hmax.
      * rewrite (decide_False (P := r = ch)) by done.
        destruct (decide (c = root)) as [->|Hc1].
        -- by apply (Hgp r ch).
        -- destruct (decide (c = ch)) as [->|];
             [unfold child_of in *; lia|].
           by apply Hex.
    + intros q c Hq Hqch Hc Hchc.
      assert (q = root) as -> by (unfold child_of in *; lia).
      rewrite !Hd1. rewrite decide_True by done.
      rewrite (decide_False (P := c = root))
        by (unfold child_of in *; lia).
      rewrite (decide_False (P := c = ch))
        by (unfold child_of in *; lia).
      apply Hex; try done; unfold child_of, c1 in *; lia.
  - split; [|done].
    eapply swaps_step; [| |exact IH1]; unfold c1 in *; lia.
Qed.

Lemma siftDown_func_spec (d : list A) (base lo hi : nat) :
  base + hi ≤ length d →
  heap_above base (S lo) hi d →
  swaps_in (base + lo) (base + hi) d (Sort.siftDown_func less d lo hi base)
  ∧ heap_above base lo hi (Sort.siftDown_func less d lo hi base).
Proof using Hswo.
  intros Hlen Hh. apply siftDown_go_spec; [lia|lia|done|].
  split.
  - intros r c Hr Hne Hc Hrc. apply Hh; [lia|done..].
  - intros q c Hq Hql. unfold child_of in Hql. lia.
Qed.

(** The first loop of [heapSort_func] builds the heap. *)
Lemma heapSort_build (d : list A) (base hi m : nat) :
  base + hi ≤ length d →
  heap_above base m hi d →
  let d' := fold_left (λ data i, Sort.siftDown_func less data i hi base)
              (rev (seq 0 m)) d in
  swaps_in base (base + hi) d d' ∧ heap_above base 0 hi d'.
Proof using Hswo.
  intros Hlen. revert d Hlen. induction m as [|m IH]; intros d Hlen Hh.
  { cbn. split; [constructor|done]. }
  cbn zeta. rewrite seq_S, rev_app_distr. cbn [rev app fold_left plus].
  destruct (siftDown_func_spec d base m hi Hlen Hh) as [Hs1 Hh1].
  destruct (IH (Sort.siftDown_func less d m hi base)) as [Hs2 Hh2].
  - by rewrite (swaps_in_length _ _ _ _ Hs1).
  - done.
  - split; [|done]. eapply swaps_in_trans; [|exact Hs2].
    eapply swaps_in_weaken; [| |exact Hs1]; lia.
Qed.

(** The root of a heap is not less than any node. *)
Lemma heap_root_max (d : list A) (base hi : nat) :
  heap_above base 0 hi d →
  ∀ c, c < hi → less (d !!! (base + 0)) (d !!! (base + c)) = false.
Proof using Hswo.
  intros Hh c. induction (lt_wf c) as [c _ IH]. intros Hc.
  destruct c as [|c]; [apply (swo_irrefl _ Hswo)|].
  set (r := c / 2).
  assert (child_of r (S c)) as Hrc.
  { unfold child_of, r. pose proof (Nat.div_mod c 2 ltac:(lia)).
    pose proof (Nat.mod_upper_bound c 2 ltac:(lia)). lia. }
  assert (r < S c) as Hr by (unfold child_of in Hrc; lia).
  eapply (swo_neg_trans _ Hswo); [apply (IH r); lia|].
  apply Hh; [lia|done|done].
Qed.

(** The second loop of [heapSort_func] moves the root behind the heap,
    [n] times. *)
Lemma heapSort_pop (d : list A) (base hi n : nat) :
  n ≤ hi → base + hi ≤ length d →
  heap_above base 0 n d →
  sorted_in less (base + n) (base + hi) d →
  (∀ x y, x < n → n ≤ y → y < hi →
          less (d !!! (base + y)) (d !!! (base + x)) = false) →
  let d' := fold_left
              (λ data i, Sort.siftDown_func less
                           (Sort.Swap data base (base + i)) 0 i base)
              (rev (seq 0 n)) d in
  swaps_in base (base + hi) d d' ∧ sorted_in less base (base + hi) d'.
Proof using Hswo.
  intros Hn Hlen. revert d Hlen.
  induction n as [|n IH]; intros d Hlen Hh Hs Hx.
  { cbn. rewrite Nat.add_0_r in Hs. split; [constructor|done]. }
  cbn zeta. rewrite seq_S, rev_app_distr. cbn [rev app fold_left plus].
  set (d1 := Sort.Swap d base (base + n)).
  assert (length d1 = length d) as Hl1 by apply length_Swap.
  assert (∀ k, d1 !!! (base + k)
               = if decide (k = 0) then d !!! (base + n)
                 else if decide (k = n) then d !!! (base + 0)
                 else d !!! (base + k)) as Hd1.
  { intros k. unfold d1. rewrite Swap_lookup by lia.
    rewrite Nat.add_0_r. repeat case_decide; try done; lia. }
  assert (∀ k, n ≤ k → d1 !!! (base + k)
               = if decide (k = n) then d !!! (base + 0)
                 else d !!! (base + k)) as Hd1t.
  { intros k Hk. rewrite Hd1. destruct (decide (k = 0)) as [->|]; [|done].
    assert (n = 0) as -> by lia. by rewrite decide_True. }
  pose proof (heap_root_max d base (S n) Hh) as Hmax.
  destruct (siftDown_func_spec d1 base 0 n) as [Hs2 Hh2]; [lia| |].
  { intros r c Hr Hc Hrc. rewrite !Hd1.
    rewrite !decide_False by (unfold child_of in Hrc; lia).
    apply Hh; [lia|lia|done]. }
  set (d2 := Sort.siftDown_func less d1 0 n base) in *.
  rewrite Nat.add_0_r in Hs2.
  assert (∀ y, n ≤ y → y < hi → d2 !!! (base + y) = d1 !!! (base + y)) as Hd2.
  { intros y ??. apply (swaps_in_outside _ _ _ _ _ Hs2). lia. }
  destruct (IH ltac:(lia) d2) as [Hs3 Hso3].
  - rewrite (swaps_in_length _ _ _ _ Hs2). lia.
  - done.
  - intros p q Hp Hpq Hq.
    replace p with (base + (p - base)) by lia.
    replace q with (base + (q - base)) by lia.
    rewrite !Hd2, !Hd1t by lia.
    rewrite (decide_False (P := q - base = n)) by lia.
    destruct (decide (p - base = n)) as [Hpn|Hpn].
    + apply Hx; lia.
    + replace (base + (p - base)) with p by lia.
      replace (base + (q - base)) with q by lia.
      apply Hs; lia.
  - intros x y Hx1 Hy1 Hy2. rewrite Hd2 by lia.
    revert x Hx1.
    assert (∀ k, base ≤ k < base + n →
              less (d1 !!! (base + y)) (d2 !!! k) = false) as Hall.
    { apply (swaps_in_all
               (λ e, less (d1 !!! (base + y)) e = false) _ _ d1 d2);
        [lia|done|].
      intros k Hk. replace k with (base + (k - base)) by lia.
      rewrite Hd1t by lia. rewrite Hd1.
      rewrite (decide_False (P := k - base = n)) by lia.
      destruct (decide (y = n)) as [->|Hyn].
      - destruct (decide (k - base = 0)); apply Hmax; lia.
      - destruct (decide (k - base = 0)); apply Hx; lia. }
    intros x Hx1. apply Hall. lia.
  - split; [|done].
    eapply swaps_step with (i := base) (j := base + n); [lia|lia|].
    eapply swaps_in_trans; [|exact Hs3].
    eapply swaps_in_weaken; [| |exact Hs2]; lia.
Qed.

Lemma heapSort_func_spec (d : list A) (a b : nat) :
  a ≤ b → b ≤ length d →
  swaps_in a b d (Sort.heapSort_func less d a b)
  ∧ sorted_in less a b (Sort.heapSort_func less d a b).
Proof using Hswo.
  intros Hab Hb. unfold Sort.heapSort_func.
  set (hi := b - a).
  destruct (heapSort_build d a hi ((hi - 1) / 2 + 1)) as [Hs1 Hh1]; [lia| |].
  { intros r c Hr Hc Hrc.
    pose proof (Nat.div_mod (hi - 1) 2 ltac:(lia)).
    pose proof (Nat.mod_upper_bound (hi - 1) 2 ltac:(lia)).
    unfold child_of in Hrc. lia. }
  set (d1 := fold_left _ (rev (seq 0 ((hi - 1) / 2 + 1))) d) in *.
  destruct (heapSort_pop d1 a hi hi) as [Hs2 Hso2].
  - lia.
  - rewrite (swaps_in_length _ _ _ _ Hs1). lia.
  - done.
  - intros p q ???. lia.
  - intros x y ???. lia.
  - replace (a + hi) with b in * by lia. split; [|done].
    by eapply swaps_in_trans.
Qed.

End HeapSort.

Section Pdqsort.

Context {A : Type} `{!Inhabited A} (less : A → A → bool).
Context (Hswo : StrictWeakOrder less).

Local Abbreviation Less := (Sort.Less less).

Lemma lower_bounded_narrow (a b b' : nat) (d : list A) :
  b' ≤ b → lower_bounded less a b d → lower_bounded less a b' d.
Proof. intros Hb Hlb Ha k ??. apply Hlb; lia. Qed.

(** Two sorted sides around a pivot make a sorted range. *)
Lemma sorted_in_join (a mid b : nat) (d : list A) :
  sorted_in less a mid d → sorted_in less (mid + 1) b d →
  (∀ k, a ≤ k → k < mid → less (d !!! k) (d !!! mid) = true) →
  (∀ k, mid < k → k < b → less (d !!! k) (d !!! mid) = false) →
  sorted_in less a b d.
Proof using Hswo.
  intros Hl Hr Hlt Hge i j Hi Hij Hj.
  destruct (decide (j < mid)); [apply Hl; lia|].
  destruct (decide (mid < i)); [apply Hr; lia|].
  destruct (decide (i = mid)) as [->|]; [apply Hge; lia|].
  destruct (decide (j = mid)) as [->|].
  { apply (less_asym less Hswo), Hlt; lia. }
  destruct (less (d !!! j) (d !!! i)) eqn:Hc; [|done].
  pose proof (swo_trans _ Hswo _ _ _ Hc (Hlt i ltac:(lia) ltac:(lia))) as Hr'.
  rewrite Hge in Hr' by lia. done.
Qed.

(** Properties of two disjoint ranges survive swaps inside the one and then
    inside the other. *)
Lemma swaps_two_sides (P Q : A → Prop) (x1 x2 y1 y2 : nat)
    (d4 d5 d6 : list A) :
  x2 ≤ length d4 → y2 ≤ length d4 → x2 ≤ y1 ∨ y2 ≤ x1 →
  swaps_in x1 x2 d4 d5 → swaps_in y1 y2 d5 d6 →
  (∀ k, x1 ≤ k < x2 → P (d4 !!! k)) →
  (∀ k, y1 ≤ k < y2 → Q (d4 !!! k)) →
  (∀ k, x1 ≤ k < x2 → P (d6 !!! k)) ∧ (∀ k, y1 ≤ k < y2 → Q (d6 !!! k)).
Proof.
  intros Hx Hy Hdis Hs1 Hs2 HP HQ. split.
  - intros k Hk. rewrite (swaps_in_outside _ _ _ _ k Hs2) by lia.
    by apply (swaps_in_all P x1 x2 d4 d5).
  - apply (swaps_in_all Q y1 y2 d5 d6);
      [by rewrite (swaps_in_length _ _ _ _ Hs1)|done|].
    intros k Hk. rewrite (swaps_in_outside _ _ _ _ k Hs1) by lia.
    by apply HQ.
Qed.

Theorem pdqsort_go_spec (fuel : nat) (d : list A) (a b limit : nat)
    (wasBalanced wasPartitioned : bool) :
  b - a < fuel → a ≤ b → b ≤ length d → lower_bounded less a b d →
  swaps_in a b d
    (Sort.pdqsort_go less fuel d a b limit wasBalanced wasPartitioned)
  ∧ sorted_in less a b
      (Sort.pdqsort_go less fuel d a b limit wasBalanced wasPartitioned).
Proof using Hswo.
  revert d a b limit wasBalanced wasPartitioned.
  induction fuel as [|fuel IH];
    intros d a b limit wb wp Hf Hab Hb Hlb; [lia|].
  cbn [Sort.pdqsort_go].
  destruct (b - a <=? 12) eqn:Hsmall.
  { by apply insertionSort_func_spec. }
  apply Nat.leb_gt in Hsmall.
  destruct (limit =? 0).
  { by apply heapSort_func_spec. }
  (* breakPatterns *)
  assert (∃ d1 limit1,
            (if negb wb then (Sort.breakPatterns_func d a b, limit - 1)
             else (d, limit)) = (d1, limit1)
            ∧ swaps_in a b d d1) as (d1 & limit1 & -> & Hs1).
  { destruct wb; cbn; eexists _, _; (split; [reflexivity|]);
      [constructor|apply breakPatterns_func_swaps]. }
  (* choosePivot *)
  pose proof (choosePivot_func_range less d1 a b Hsmall) as Hpiv.
  destruct (Sort.choosePivot_func less d1 a b) as [pivot hint].
  assert (∃ d2 pivot2 hint2,
            match hint with
            | Sort.decreasingHint =>
                (Sort.reverseRange_func d1 a b, b - 1 - (pivot - a),
                 Sort.increasingHint)
            | _ => (d1, pivot, hint)
            end = (d2, pivot2, hint2)
            ∧ swaps_in a b d1 d2 ∧ a ≤ pivot2 ∧ pivot2 < b)
    as (d2 & pivot2 & hint2 & -> & Hs2 & Hp1 & Hp2).
  { destruct hint; eexists _, _, _; (split; [reflexivity|]);
      (split; [first [constructor|apply reverseRange_func_swaps; lia]|lia]). }
  assert (swaps_in a b d d2) as Hs02 by (by eapply swaps_in_trans).
  assert (length d2 = length d) as Hl2 by (by eapply swaps_in_length).
  assert (lower_bounded less a b d2) as Hlb2.
  { eapply lower_bounded_swaps; [| | |exact Hs02|exact Hlb]; lia. }
  (* partialInsertionSort *)
  assert (∃ d3 sorted,
            match hint2 with
            | Sort.increasingHint =>
                if wb && wp then Sort.partialInsertionSort_func less d2 a b
                else (d2, false)
            | _ => (d2, false)
            end = (d3, sorted)
            ∧ swaps_in a b d2 d3
            ∧ (sorted = true → sorted_in less a b d3))
    as (d3 & sorted & -> & Hs3 & Hso3).
  { pose proof (partialInsertionSort_func_spec less Hswo d2 a b
                  ltac:(lia) ltac:(lia) Hlb2) as Hpi.
    destruct (Sort.partialInsertionSort_func less d2 a b) as [d3 ok].
    destruct hint2, (wb && wp); eexists _, _; (split; [reflexivity|]);
      first [exact Hpi|split; [constructor|done]]. }
  assert (swaps_in a b d d3) as Hs03 by (by eapply swaps_in_trans).
  assert (length d3 = length d) as Hl3 by (by eapply swaps_in_length).
  assert (lower_bounded less a b d3) as Hlb3.
  { eapply lower_bounded_swaps; [| | |exact Hs03|exact Hlb]; lia. }
  destruct sorted; [split; [done|by apply Hso3]|]. clear Hso3.
  set (p := d3 !!! pivot2).
  destruct ((0 <? a) && negb (Less d3 (a - 1) pivot2)) eqn:Heq.
  - (* partitionEqual *)
    apply andb_true_iff in Heq as [Ha0%Nat.ltb_lt Hpp%negb_true_iff].
    rewrite Less_total in Hpp by lia. fold p in Hpp.
    pose proof (partitionEqual_func_spec less d3 a b pivot2
                  ltac:(lia) ltac:(lia) ltac:(lia)) as HE.
    destruct (Sort.partitionEqual_func less d3 a b pivot2) as [d4 mid].
    destruct HE as (E1 & E2 & E3 & E4 & E5 & E6). fold p in E4, E5, E6.
    assert (length d4 = length d) as Hl4.
    { by rewrite (swaps_in_length _ _ _ _ E1). }
    assert (lower_bounded less a b d4) as Hlb4.
    { eapply lower_bounded_swaps; [| | |exact E1|exact Hlb3]; lia. }
    assert (d4 !!! (a - 1) = d3 !!! (a - 1)) as Hpred.
    { apply (swaps_in_outside _ _ _ _ _ E1). lia. }
    assert (∀ k, a ≤ k → k < mid → less p (d4 !!! k) = false) as Heqp.
    { intros k ??. destruct (decide (k = a)) as [->|]; [|apply E5; lia].
      rewrite E4. apply (swo_irrefl _ Hswo). }
    destruct (IH d4 mid b limit1 wb wp) as [IH1 IH2]; [lia|lia|lia| |].
    { intros _ k Hk1 Hk2.
      destruct (less (d4 !!! k) (d4 !!! (mid - 1))) eqn:Hc; [|done].
      pose proof (swo_trans _ Hswo _ _ _ (E6 k Hk1 Hk2) Hc) as Hr.
      rewrite Heqp in Hr by lia. done. }
    set (d5 := Sort.pdqsort_go less fuel d4 mid b limit1 wb wp) in *.
    split.
    { eapply swaps_in_trans; [exact Hs03|].
      eapply swaps_in_trans; [exact E1|].
      eapply swaps_in_weaken; [| |exact IH1]; lia. }
    intros i j Hi Hij Hj.
    destruct (decide (mid ≤ i)); [apply IH2; lia|].
    rewrite (swaps_in_outside _ _ _ _ i IH1) by lia.
    destruct (decide (j < mid)).
    + rewrite (swaps_in_outside _ _ _ _ j IH1) by lia.
      eapply (swo_neg_trans _ Hswo _ p); [|apply Heqp; lia].
      eapply (swo_neg_trans _ Hswo _ (d4 !!! (a - 1))).
      * apply Hlb4; lia.
      * by rewrite Hpred.
    + destruct (less (d5 !!! j) (d4 !!! i)) eqn:Hc; [|done].
      assert (less p (d5 !!! j) = true) as Hgt.
      { apply (swaps_in_all (λ e, less p e = true) mid b d4 d5);
          [lia|done| |lia]. intros k [??]. by apply E6. }
      pose proof (swo_trans _ Hswo _ _ _ Hgt Hc) as Hr.
      rewrite Heqp in Hr by lia. done.
  - (* partition *)
    clear Heq.
    pose proof (partition_func_spec less d3 a b pivot2
                  ltac:(lia) ltac:(lia) ltac:(lia)) as HP.
    destruct (Sort.partition_func less d3 a b pivot2) as [[d4 mid] ap].
    destruct HP as (P1 & P2 & P3 & P4 & P5 & P6). fold p in P4, P5, P6.
    assert (length d4 = length d) as Hl4.
    { by rewrite (swaps_in_length _ _ _ _ P1). }
    assert (lower_bounded less a b d4) as Hlb4.
    { eapply lower_bounded_swaps; [| | |exact P1|exact Hlb3]; lia. }
    assert (lower_bounded less (mid + 1) b d4) as Hlbr.
    { intros _ k ??. replace (mid + 1 - 1) with mid by lia.
      rewrite P4. apply P6; lia. }
    assert (swaps_in a b d d4) as Hs04 by (by eapply swaps_in_trans).
    assert (∀ d6, swaps_in a b d4 d6 → d6 !!! mid = p →
              sorted_in less a mid d6 → sorted_in less (mid + 1) b d6 →
              (∀ k, a ≤ k < mid → less (d6 !!! k) p = true) →
              (∀ k, mid + 1 ≤ k < b → less (d6 !!! k) p = false) →
              swaps_in a b d d6 ∧ sorted_in less a b d6) as Hfin.
    { intros d6 Hs6 Hm Hl Hr Hlt Hge. split; [by eapply swaps_in_trans|].
      apply (sorted_in_join a mid b); rewrite ?Hm; try done.
      - intros k ??. apply Hlt; lia.
      - intros k ??. apply Hge; lia. }
    assert (∀ k, a ≤ k < mid → less (d4 !!! k) p = true) as Hlt4.
    { intros k [??]. by apply P5. }
    assert (∀ k, mid + 1 ≤ k < b → less (d4 !!! k) p = false) as Hge4.
    { intros k [??]. apply P6; lia. }
    destruct (mid - a <? b - mid).
    + destruct (IH d4 a mid limit1 true true) as [IH1 IH2];
        [lia|lia|lia|by eapply lower_bounded_narrow; [|exact Hlb4]; lia|].
      set (d5 := Sort.pdqsort_go less fuel d4 a mid limit1 true true) in *.
      assert (length d5 = length d) as Hl5.
      { by rewrite (swaps_in_length _ _ _ _ IH1). }
      edestruct (IH d5 (mid + 1) b limit1) as [IH3 IH4];
        [| | | |apply Hfin]; [lia|lia|lia| |..].
      * intros _ k ??.
        rewrite !(swaps_in_outside _ _ _ _ _ IH1) by lia. apply Hlbr; lia.
      * eapply swaps_in_trans.
        -- eapply swaps_in_weaken; [| |exact IH1]; lia.
        -- eapply swaps_in_weaken; [| |exact IH3]; lia.
      * rewrite (swaps_in_outside _ _ _ _ _ IH3) by lia.
        rewrite (swaps_in_outside _ _ _ _ _ IH1) by lia. done.
      * eapply sorted_in_swaps_outside; [exact IH3|lia|done].
      * exact IH4.
      * refine (proj1 (swaps_two_sides (λ e, less e p = true)
                         (λ e, less e p = false) a mid (mid + 1) b d4 d5 _
                         _ _ _ IH1 IH3 Hlt4 Hge4)); lia.
      * refine (proj2 (swaps_two_sides (λ e, less e p = true)
                         (λ e, less e p = false) a mid (mid + 1) b d4 d5 _
                         _ _ _ IH1 IH3 Hlt4 Hge4)); lia.
    + destruct (IH d4 (mid + 1) b limit1 true true) as [IH1 IH2];
        [lia|lia|lia|done|].
      set (d5 := Sort.pdqsort_go less fuel d4 (mid + 1) b limit1 true true)
        in *.
      assert (length d5 = length d) as Hl5.
      { by rewrite (swaps_in_length _ _ _ _ IH1). }
      edestruct (IH d5 a mid limit1) as [IH3 IH4];
        [| | | |apply Hfin]; [lia|lia|lia| |..].
      * intros Ha0 k ??.
        rewrite !(swaps_in_outside _ _ _ _ _ IH1) by lia.
        apply Hlb4; lia.
      * eapply swaps_in_trans.
        -- eapply swaps_in_weaken; [| |exact IH1]; lia.
        -- eapply swaps_in_weaken; [| |exact IH3]; lia.
      * rewrite (swaps_in_outside _ _ _ _ _ IH3) by lia.
        rewrite (swaps_in_outside _ _ _ _ _ IH1) by lia. done.
      * exact IH4.
      * eapply sorted_in_swaps_outside; [exact IH3|lia|done].
      * refine (proj2 (swaps_two_sides (λ e, less e p = false)
                         (λ e, less e p = true) (mid + 1) b a mid d4 d5 _
                         _ _ _ IH1 IH3 Hge4 Hlt4)); lia.
      * refine (proj1 (swaps_two_sides (λ e, less e p = false)
                         (λ e, less e p = true) (mid + 1) b a mid d4 d5 _
                         _ _ _ IH1 IH3 Hge4 Hlt4)); lia.
Qed.

(** [sort.Slice] permutes the slice and leaves it in order. *)
Lemma pdqsort_func_spec (d : list A) (limit : nat) :
  Sort.pdqsort_func less d 0 (length d) limit ≡ₚ d
  ∧ sorted_in less 0 (length d) (Sort.pdqsort_func less d 0 (length d) limit).
Proof using Hswo.
  destruct (pdqsort_go_spec (S (length d - 0)) d 0 (length d) limit true true)
    as [Hs Hso]; [lia|lia|lia|intros ?; lia|].
  split; [by eapply swaps_in_perm|done].
Qed.

End Pdqsort.

(** [sort.Slice] meets its contract: for a strict weak order it returns a
    permutation of the slice in which no element is less than an earlier
    one. *)
Theorem Slice_spec {A : Type} (less : A → A → bool) (x : list A) :
  StrictWeakOrder less →
  Sort.Slice less x ≡ₚ x ∧ sorted_by less (Sort.Slice less x).
Proof.
  intros Hswo. destruct x as [|x0 xs] eqn:Hx.
  { split; [done|]. intros i j x1 y1 _ Hi. by destruct i. }
  rewrite <- Hx. clear Hx.
  pose (populate x0 : Inhabited A) as Hinh.
  destruct (pdqsort_func_spec less Hswo x (Sort.bits_Len (length x)))
    as [Hperm Hsorted].
  split; [exact Hperm|].
  intros i j x1 y1 Hij Hi Hj.
  rewrite <- (list_lookup_total_correct _ _ _ Hi).
  rewrite <- (list_lookup_total_correct _ _ _ Hj).
  apply Hsorted; [lia|done|].
  apply lookup_lt_Some in Hj. unfold Sort.Slice in Hj.
  by rewrite (Permutation_length Hperm) in Hj.
Qed.

(** ** The post files of a content directory, in the spec's words *)

(** An entry the walk reports that is a post file: not a directory, with a
    name that ends in [.html]. *)
Definition is_post_file (d : DirEntry) : bool :=
  negb (IsDir d) && HasSuffix (path d) ".html".

Definition slug_of (d : DirEntry) : string :=
  TrimSuffix (Filepath.Base (path d)) ".html".

(** The slugs of the post files, in discovery order. *)
Definition post_slugs (os : OS) : list string :=
  slug_of <$> filter (λ d, is_post_file d = true) (walk os "posts").

(** The collection metadata and the raw metadata of a post file that the
    walk reached without error and that can be read. *)
Definition post_file_info (os : OS) (d : DirEntry)
  : option (string * postInfo) :=
  if bool_decide (walkErr d = None) && is_post_file d then
    match ReadFile os (path d) with
    | Ok content =>
        let lines := Split content newline in
        Some (extractMeta lines "collection",
              {| slug := slug_of d; date := extractMeta lines "date" |})
    | Err _ => None
    end
  else None.

(** The post files whose collection metadata equals [c], in discovery
    order. *)
Definition collection_members (os : OS) (c : string) : list postInfo :=
  snd <$> filter (λ x, x.1 = c) (omap (post_file_info os) (walk os "posts")).

(** The 1-based position of the first entry with the slug, [0] if none. *)
Definition position_of (currentSlug : string) (l : list postInfo) : Z :=
  match list_find (λ p, slug p = currentSlug) l with
  | Some (k, _) => Z.of_nat k + 1
  | None => 0
  end.

Lemma position_loop_spec (currentSlug : string) (i : Z) (l : list postInfo) :
  position_loop currentSlug i l
  = match list_find (λ p, slug p = currentSlug) l with
    | Some (k, _) => (i + Z.of_nat k + 1)%Z
    | None => 0%Z
    end.
Proof.
  revert i. induction l as [|p l IH]; intros i; [done|].
  cbn [position_loop list_find]. 
  destruct (String.eqb_spec (slug p) currentSlug) as [Heq|Hne].
  - rewrite decide_True by done. cbn. lia.
  - rewrite decide_False by done. rewrite IH.
    destruct (list_find _ l) as [[k x]|]; cbn; [lia|done].
Qed.

Section PipelineFacts.

Variable os : OS.

(** The walk of [getCollectionPosition] collects the members of the
    collection, in discovery order. *)
Lemma getCollectionPosition_walk (c : string) (entries : list DirEntry)
    (acc : list postInfo) :
  WalkDir_loop (getCollectionPosition_fn os c) entries acc
  = Ok (acc ++ (snd <$> filter (λ x, x.1 = c)
                         (omap (post_file_info os) entries))).
Proof.
  revert acc. induction entries as [|d entries IH]; intros acc.
  { cbn. by rewrite app_nil_r. }
  cbn [WalkDir_loop omap list_omap].
  unfold getCollectionPosition_fn, post_file_info at 1, is_post_file.
  destruct (walkErr d) as [e|]; cbn.
  { apply IH. }
  destruct (IsDir d); cbn; [apply IH|].
  destruct (HasSuffix (path d) ".html"); cbn; [|apply IH].
  destruct (ReadFile os (path d)) as [content|e]; [|apply IH].
  rewrite filter_cons. cbn.
  destruct (String.eqb_spec
              (extractMeta (Split content newline) "collection") c)
    as [Heq|Hne].
  - rewrite decide_True by done. rewrite IH. cbn.
    by rewrite <- app_assoc.
  - rewrite decide_False by done. apply IH.
Qed.

(** The walk of [loadPosts] succeeds exactly when no entry carries an error
    and every post file loads; it then yields the loaded posts in discovery
    order. *)
Lemma loadPosts_walk (entries : list DirEntry) (acc res : list Post) :
  WalkDir_loop (loadPosts_fn os) entries acc = Ok res →
  Forall (λ d, walkErr d = None) entries
  ∧ ∃ ps,
      Forall2 (λ s p, loadPost os s = Ok p)
        (slug_of <$> filter (λ d, is_post_file d = true) entries) ps
      ∧ res = acc ++ ps.
Proof.
  revert acc. induction entries as [|d entries IH]; intros acc.
  { cbn. intros [= <-]. split; [constructor|]. exists [].
    split; [constructor|by rewrite app_nil_r]. }
  cbn [WalkDir_loop]. unfold loadPosts_fn at 1.
  destruct (walkErr d) as [e|] eqn:He; [done|].
  rewrite filter_cons.
  destruct (is_post_file d) eqn:Hpf; unfold is_post_file in Hpf.
  - apply andb_true_iff in Hpf as [Hd%negb_true_iff ->]. rewrite Hd.
    cbn [orb negb]. fold (slug_of d).
    destruct (loadPost os _) as [post|e] eqn:Hl; [|done].
    intros (Hf & ps & Hps & ->)%IH. split; [by constructor|].
    rewrite decide_True by done. exists (post :: ps). split.
    + cbn. by constructor.
    + by rewrite <- app_assoc.
  - assert (IsDir d || negb (HasSuffix (path d) ".html") = true) as ->.
    { destruct (IsDir d); [done|]. cbn in Hpf |- *. by rewrite Hpf. }
    intros (Hf & ps & Hps & ->)%IH. split; [by constructor|].
    rewrite decide_False by done. by exists ps.
Qed.

(** The member loop of [loadCollection] is a filter. *)
Lemma loadCollection_members (slug : string) (posts acc : list Post) :
  fold_left (λ acc post, if String.eqb (Collection post) slug
                         then acc ++ [post] else acc) posts acc
  = acc ++ filter (λ p, Collection p = slug) posts.
Proof.
  revert acc. induction posts as [|p posts IH]; intros acc.
  { cbn. by rewrite app_nil_r. }
  cbn [fold_left]. rewrite IH, filter_cons.
  destruct (String.eqb_spec (Collection p) slug).
  - rewrite decide_True by done. by rewrite <- app_assoc.
  - by rewrite decide_False by done.
Qed.

End PipelineFacts.

(** ** Content directories used to run the pipeline *)

Definition nl : string := bytes [10].

(** A post file with all four metadata lines and a one-paragraph body. *)
Definition post_file (title date collection : string) : string :=
  "<!-- title: " +:+ title +:+ " -->" +:+ nl
  +:+ "<!-- date: " +:+ date +:+ " -->" +:+ nl
  +:+ "<!-- collection: " +:+ collection +:+ " -->" +:+ nl
  +:+ "<p>Some words of body text.</p>".

(** A post file with a title and a date only. *)
Definition plain_post_file (title date : string) : string :=
  "<!-- title: " +:+ title +:+ " -->" +:+ nl
  +:+ "<!-- date: " +:+ date +:+ " -->" +:+ nl
  +:+ "<p>Some words of body text.</p>".

Definition file_entry (p : string) : DirEntry :=
  {| path := p; IsDir := false; walkErr := None |}.

Definition dir_entry (p : string) : DirEntry :=
  {| path := p; IsDir := true; walkErr := None |}.

Fixpoint read_from (files : list (string * string)) (p : string)
  : result string :=
  match files with
  | [] => Err ("open " +:+ p +:+ ": no such file or directory")
  | (q, content) :: rest =>
      if String.eqb q p then Ok content else read_from rest p
  end.

(** The directory with the given files under [posts/] and [collections/],
    walked in the order they are listed. *)
Definition directory (posts collections : list (string * string)) : OS :=
  {| walk root :=
       if String.eqb root "posts" then
         dir_entry "posts" :: (file_entry ∘ fst <$> posts)
       else if String.eqb root "collections" then
         dir_entry "collections" :: (file_entry ∘ fst <$> collections)
       else [];
     ReadFile := read_from (posts ++ collections);
     today := "2026-11-01" |}.

(** Three posts of the collection [go], discovered newest first; the
    collection file itself is missing. *)
Definition three_posts : OS :=
  directory
    [("posts/a.html", post_file "A" "2024-03-01" "go");
     ("posts/b.html", post_file "B" "2024-02-01" "go");
     ("posts/c.html", post_file "C" "2024-01-01" "go")]
    [].

(** Thirteen posts: twelve of the same day and, discovered last, a newer
    one. *)
Definition thirteen_posts : OS :=
  directory
    (((λ k, ("posts/p" +:+ Time.pad_digits 2 (Z.of_nat k) "" +:+ ".html",
             plain_post_file "Post" "2024-01-01")) <$> seq 0 12)
     ++ [("posts/p12.html", plain_post_file "Post" "2024-02-01")])
    [].

(** ** The claims about the ranker, the scanner and the loaders *)

(** The result of the ranker, written out: the walk collects the members
    of the collection, [sort.Slice] orders them by date, and the slug is
    looked up in that order. *)
Lemma getCollectionPosition_unfold
    (os : OS) (currentSlug collectionSlug currentDate : string) :
  getCollectionPosition os currentSlug collectionSlug currentDate
  = (position_of currentSlug
       (Sort.Slice (λ pi pj, String.ltb (date pi) (date pj))
          (collection_members os collectionSlug)),
     Z.of_nat (length (collection_members os collectionSlug))).
Proof.
  unfold getCollectionPosition, WalkDir.
  rewrite getCollectionPosition_walk. cbn [app].
  fold (collection_members os collectionSlug).
  set (less := λ pi pj : postInfo, String.ltb (date pi) (date pj)).
  destruct (Slice_spec less (collection_members os collectionSlug)
              (key_ltb_swo date)) as [Hperm _].
  rewrite position_loop_spec, (Permutation_length Hperm).
  unfold position_of. by destruct (list_find _ _) as [[k x]|].
Qed.

(** C10. [getCollectionPosition] never consults its date argument: its
    result is the same for every date, and is determined by the collection
    and date metadata of the post files alone. *)
Theorem getCollectionPosition_ignores_date
    (os : OS) (currentSlug collectionSlug : string) :
  (∀ date1 date2,
     getCollectionPosition os currentSlug collectionSlug date1
     = getCollectionPosition os currentSlug collectionSlug date2)
  ∧ (∀ currentDate,
       getCollectionPosition os currentSlug collectionSlug currentDate
       = (position_of currentSlug
            (Sort.Slice (λ pi pj, String.ltb (date pi) (date pj))
               (collection_members os collectionSlug)),
          Z.of_nat (length (collection_members os collectionSlug)))).
Proof.
  split.
  - intros date1 date2. by rewrite !getCollectionPosition_unfold.
  - intros currentDate. apply getCollectionPosition_unfold.
Qed.

(** The only arrangement of three entries with increasing dates that is in
    ascending order of date is the increasing one. *)
Lemma sorted_three (p1 p2 p3 : postInfo) (l : list postInfo) :
  String.ltb (date p1) (date p2) = true →
  String.ltb (date p2) (date p3) = true →
  l ≡ₚ [p1; p2; p3] →
  sorted_by (λ pi pj, String.ltb (date pi) (date pj)) l →
  l = [p1; p2; p3].
Proof.
  intros H12 H23 Hperm Hs.
  assert (String.ltb (date p1) (date p3) = true) as H13.
  { by apply (swo_trans _ (key_ltb_swo date) p1 p2 p3). }
  pose proof (Permutation_length Hperm) as Hlen.
  destruct l as [|x [|y [|z [|w l]]]]; try done. clear Hlen.
  pose proof (Hs 0 1 x y ltac:(lia) eq_refl eq_refl) as Hxy.
  pose proof (Hs 0 2 x z ltac:(lia) eq_refl eq_refl) as Hxz.
  pose proof (Hs 1 2 y z ltac:(lia) eq_refl eq_refl) as Hyz.
  cbn beta in Hxy, Hxz, Hyz.
  pose proof (swo_irrefl _ (key_ltb_swo date)) as Hirr. cbn in Hirr.
  assert (p1 ≠ p2 ∧ p1 ≠ p3 ∧ p2 ≠ p3) as (N12 & N13 & N23).
  { repeat split; intros Heq; rewrite Heq in *; rewrite Hirr in *; done. }
  assert (∀ e, In e [x; y; z] ↔ In e [p1; p2; p3]) as Hin.
  { intros e. rewrite <- !list_elem_of_In. by rewrite Hperm. }
  pose proof (proj1 (Hin x) ltac:(cbn; tauto)) as Hx.
  pose proof (proj1 (Hin y) ltac:(cbn; tauto)) as Hy.
  pose proof (proj1 (Hin z) ltac:(cbn; tauto)) as Hz.
  pose proof (proj2 (Hin p1) ltac:(cbn; tauto)) as Hp1.
  pose proof (proj2 (Hin p2) ltac:(cbn; tauto)) as Hp2.
  pose proof (proj2 (Hin p3) ltac:(cbn; tauto)) as Hp3.
  clear Hin Hperm Hs. cbn in Hx, Hy, Hz, Hp1, Hp2, Hp3.
  destruct Hx as [<-|[<-|[<-|[]]]], Hy as [<-|[<-|[<-|[]]]],
    Hz as [<-|[<-|[<-|[]]]]; try reflexivity; try congruence;
    exfalso; intuition congruence.
Qed.

(** C2. [getCollectionPosition] counts the post files whose collection
    metadata is the given one and looks the slug up among them in ascending
    order of raw date: [total] is their number, [index] the 1-based position
    of the first entry with the slug in that order, [0] when there is none;
    a member's index lies between [1] and [total].  Of three posts dated
    2024-01-01, 2024-02-01 and 2024-03-01 in one collection, the one dated
    2024-02-01 has index 2 of 3. *)
Theorem getCollectionPosition_rank
    (os : OS) (currentSlug c currentDate : string) :
  (∃ sorted : list postInfo,
     sorted ≡ₚ collection_members os c
     ∧ sorted_by (λ pi pj, String.ltb (date pi) (date pj)) sorted
     ∧ getCollectionPosition os currentSlug c currentDate
       = (position_of currentSlug sorted,
          Z.of_nat (length (collection_members os c)))
     ∧ (currentSlug ∈ slug <$> collection_members os c →
        (1 ≤ position_of currentSlug sorted
           ≤ Z.of_nat (length (collection_members os c)))%Z)
     ∧ (currentSlug ∉ slug <$> collection_members os c →
        position_of currentSlug sorted = 0%Z))
  ∧ (∀ s1 s2 s3,
       collection_members os c
       ≡ₚ [ {| slug := s1; date := "2024-01-01" |};
            {| slug := s2; date := "2024-02-01" |};
            {| slug := s3; date := "2024-03-01" |} ] →
       s1 ≠ s2 →
       getCollectionPosition os s2 c currentDate = (2%Z, 3%Z)).
Proof.
  set (less := λ pi pj : postInfo, String.ltb (date pi) (date pj)).
  destruct (Slice_spec less (collection_members os c) (key_ltb_swo date))
    as [Hperm Hsorted].
  split.
  - exists (Sort.Slice less (collection_members os c)).
    split; [done|]. split; [done|].
    split; [apply getCollectionPosition_unfold|].
    unfold position_of. rewrite <- (Permutation_length Hperm).
    destruct (list_find _ _) as [[k x]|] eqn:Hf.
    + apply list_find_Some in Hf as (Hk & Hslug & _).
      split; intros Hin.
      * apply lookup_lt_Some in Hk. lia.
      * exfalso. apply Hin. rewrite <- Hperm.
        apply list_elem_of_fmap. exists x. split; [done|].
        by eapply list_elem_of_lookup_2.
    + split; [|done]. intros Hin. exfalso.
      rewrite <- Hperm in Hin.
      apply list_elem_of_fmap in Hin as (p & -> & Hin).
      eapply list_find_None in Hf.
      rewrite Forall_forall in Hf. by apply (Hf p).
  - intros s1 s2 s3 Hmem Hne.
    rewrite getCollectionPosition_unfold.
    rewrite (Permutation_length Hmem). fold less.
    rewrite (sorted_three {| slug := s1; date := "2024-01-01" |}
               {| slug := s2; date := "2024-02-01" |}
               {| slug := s3; date := "2024-03-01" |} _ eq_refl eq_refl
               (transitivity Hperm Hmem) Hsorted).
    unfold position_of. cbn [list_find].
    rewrite decide_False by done. cbn. by rewrite decide_True.
Qed.

(** The three posts again, with the file of their collection. *)
Definition three_posts_in_collection : OS :=
  directory
    [("posts/a.html", post_file "A" "2024-03-01" "go");
     ("posts/b.html", post_file "B" "2024-02-01" "go");
     ("posts/c.html", plain_post_file "C" "2024-01-01")]
    [("collections/go.html",
      "<!-- title: Go -->" +:+ nl +:+ "<p>Posts about <b>Go</b>.</p>")].

(** What the specification says of the order of [loadPosts]: descending raw
    dates, and posts of the same raw date in discovery order. *)
Definition discovery_order_kept (discovered posts : list Post) : Prop :=
  ∀ d, filter (λ p, RawDate p = d) posts
       = filter (λ p, RawDate p = d) discovered.

Definition dates_descend (posts : list Post) : Prop :=
  ∀ i j pi pj, i < j → posts !! i = Some pi → posts !! j = Some pj →
               String.leb (RawDate pj) (RawDate pi) = true.

Definition loadPosts_stable_claim : Prop :=
  ∀ (os : OS) (discovered posts : list Post),
    Forall2 (λ s p, loadPost os s = Ok p) (post_slugs os) discovered →
    loadPosts os = Ok posts →
    dates_descend posts ∧ discovery_order_kept discovered posts.

(** The posts of a directory as the walk discovers them. *)
Definition discovered_posts (os : OS) : list Post :=
  omap (λ s, match loadPost os s with Ok p => Some p | Err _ => None end)
    (post_slugs os).

Lemma discovered_posts_load (os : OS) (slugs : list string) :
  forallb (λ s, match loadPost os s with Ok _ => true | Err _ => false end)
    slugs = true →
  Forall2 (λ s p, loadPost os s = Ok p) slugs
    (omap (λ s, match loadPost os s with Ok p => Some p | Err _ => None end)
       slugs).
Proof.
  induction slugs as [|s slugs IH]; [constructor|].
  cbn [forallb omap list_omap].
  destruct (loadPost os s) as [p|e] eqn:Hl; [|done].
  cbn. intros Hall. constructor; [done|by apply IH].
Qed.

(** The order in which [loadPosts] returns the thirteen posts: the twelve
    posts of the same day are not in discovery order. *)
Example thirteen_posts_order :
  post_slugs thirteen_posts
  = ["p00"; "p01"; "p02"; "p03"; "p04"; "p05"; "p06"; "p07"; "p08"; "p09";
     "p10"; "p11"; "p12"]
  ∧ ∃ posts, loadPosts thirteen_posts = Ok posts
      ∧ Slug <$> posts
        = ["p12"; "p06"; "p02"; "p03"; "p04"; "p05"; "p00"; "p07"; "p08";
           "p09"; "p10"; "p11"; "p01"].
Proof.
  split; [reflexivity|].
  destruct (loadPosts thirteen_posts) as [posts|e] eqn:Hl;
    vm_compute in Hl; [|discriminate].
  exists posts. split; [reflexivity|]. injection Hl as <-. reflexivity.
Qed.

(** C1, as stated, fails: [sort.Slice] is not a stable sort, and with
    thirteen posts, twelve of one day and a newer one discovered last, the
    posts of that day come back in another order than they were
    discovered. *)
Lemma loadPosts_not_stable : ¬ loadPosts_stable_claim.
Proof.
  intros Hclaim.
  destruct (loadPosts thirteen_posts) as [posts|e] eqn:Hl;
    vm_compute in Hl; [|discriminate].
  destruct (Hclaim thirteen_posts (discovered_posts thirteen_posts) posts)
    as [_ Hkept]; [|exact Hl|].
  { apply discovered_posts_load. by vm_compute. }
  specialize (Hkept "2024-01-01"). injection Hl as <-.
  vm_compute in Hkept. discriminate Hkept.
Qed.

(** C1, amended. [loadPosts] returns the posts of the post files, each
    once, in descending order of raw date: no post has a greater raw date
    than a post before it. *)
Theorem loadPosts_sorted (os : OS) (posts : list Post) :
  loadPosts os = Ok posts →
  ∃ discovered : list Post,
    Forall2 (λ s p, loadPost os s = Ok p) (post_slugs os) discovered
    ∧ posts ≡ₚ discovered
    ∧ dates_descend posts.
Proof.
  unfold loadPosts, WalkDir.
  destruct (WalkDir_loop _ _ _) as [discovered|e] eqn:Hw; [|done].
  intros [= <-]. apply loadPosts_walk in Hw as (_ & ps & Hps & ->).
  set (less := λ pi pj : Post, String.ltb (RawDate pj) (RawDate pi)).
  destruct (Slice_spec less ps (key_gtb_swo RawDate)) as [Hperm Hsorted].
  exists ps. split; [done|]. split; [done|].
  intros i j pi pj Hij Hi Hj.
  pose proof (Hsorted i j pi pj Hij Hi Hj) as Hlt. unfold less in Hlt.
  rewrite ltb_negb_leb in Hlt. by apply negb_false_iff in Hlt.
Qed.

Lemma loadPosts_sorted_witness :
  ∃ posts, loadPosts three_posts = Ok posts
    ∧ Slug <$> posts = ["a"; "b"; "c"]
    ∧ ∃ discovered : list Post,
        Forall2 (λ s p, loadPost three_posts s = Ok p)
          (post_slugs three_posts) discovered
        ∧ posts ≡ₚ discovered
        ∧ dates_descend posts.
Proof.
  destruct (loadPosts three_posts) as [posts|e] eqn:Hl;
    [|vm_compute in Hl; discriminate].
  exists posts. split; [reflexivity|]. split.
  - vm_compute in Hl. injection Hl as <-. reflexivity.
  - apply (loadPosts_sorted three_posts posts Hl).
Defined.

(** C7. The member posts of a loaded collection are the posts of
    [loadPosts()] whose collection is the slug, in the order of
    [loadPosts()]. *)
Theorem loadCollection_posts (os : OS) (slug : string) (c : Coll.Collection) :
  loadCollection os slug = Ok c →
  ∃ posts : list Post,
    loadPosts os = Ok posts
    ∧ Coll.Posts c = filter (λ p, Collection p = slug) posts.
Proof.
  unfold loadCollection.
  destruct (ReadFile os _) as [content|e]; [|done].
  destruct (loadPosts os) as [posts|e]; [|done].
  intros [= <-]. exists posts. split; [done|]. cbn.
  by rewrite loadCollection_members.
Qed.

Lemma loadCollection_posts_witness :
  ∃ c, loadCollection three_posts_in_collection "go" = Ok c
    ∧ Slug <$> Coll.Posts c = ["a"; "b"]
    ∧ ∃ posts : list Post,
        loadPosts three_posts_in_collection = Ok posts
        ∧ Coll.Posts c = filter (λ p, Collection p = "go") posts.
Proof.
  destruct (loadCollection three_posts_in_collection "go") as [c|e] eqn:Hl;
    [|vm_compute in Hl; discriminate].
  exists c. split; [reflexivity|]. split.
  - vm_compute in Hl. injection Hl as <-. reflexivity.
  - apply (loadCollection_posts three_posts_in_collection "go" c Hl).
Defined.

(** C8. A post whose collection file cannot be read still loads: the
    collection title and description stay empty and the collection slug is
    kept. *)
Theorem loadPost_missing_collection
    (os : OS) (slug content : string) (e : error) :
  ReadFile os (Filepath.Join "posts" (slug +:+ ".html")) = Ok content →
  let collectionSlug := extractMeta (Split content newline) "collection" in
  collectionSlug ≠ "" →
  ReadFile os (Filepath.Join "collections" (collectionSlug +:+ ".html"))
  = Err e →
  ∃ post : Post,
    loadPost os slug = Ok post
    ∧ Collection post = collectionSlug
    ∧ CollectionTitle post = ""
    ∧ CollectionDescription post = "".
Proof.
  intros Hread collectionSlug Hne Hcoll. unfold loadPost.
  rewrite Hread. fold collectionSlug.
  destruct (processContentWithTOC _) as [processedContent toc].
  rewrite Hcoll.
  destruct (String.eqb_spec collectionSlug "") as [|_]; [done|].
  cbn [negb].
  destruct (getCollectionPosition os slug collectionSlug _)
    as [collectionIndex collectionTotal].
  eexists. split; [reflexivity|].
  cbn [Title]. by destruct (String.eqb _ ""). 
Qed.

Lemma loadPost_missing_collection_witness :
  ∃ post : Post,
    loadPost three_posts "b" = Ok post
    ∧ Collection post = "go"
    ∧ CollectionTitle post = ""
    ∧ CollectionDescription post = "".
Proof.
  apply (loadPost_missing_collection three_posts "b"
           (post_file "B" "2024-02-01" "go")
           "open collections/go.html: no such file or directory");
    [reflexivity|by vm_compute|reflexivity].
Defined.

(** ** The claims about the metadata extractor *)

(** What [strings.TrimSuffix(value, " -->")] leaves. *)
Lemma TrimSuffix_spec (value suffix : string) :
  (∀ inner, value = inner +:+ suffix → TrimSuffix value suffix = inner)
  ∧ (¬ ends_with value suffix → TrimSuffix value suffix = value).
Proof.
  unfold TrimSuffix. split.
  - intros inner ->.
    rewrite (proj2 (HasSuffix_spec _ _)) by (by exists inner).
    rewrite str_length_app.
    replace (String.length inner + String.length suffix
             - String.length suffix) with (String.length inner) by lia.
    apply str_take_app.
  - intros Hno. destruct (HasSuffix value suffix) eqn:Hs; [|done].
    by apply HasSuffix_spec in Hs.
Qed.

(** The scan of [extractMeta] stops at the first line with the prefix. *)
Lemma extractMeta_loop_first (prefix : string)
    (before : list string) (line : string) (after : list string) :
  Forall (λ l, ¬ begins_with l prefix) before →
  begins_with line prefix →
  extractMeta_loop prefix (before ++ line :: after)
  = TrimSpace (TrimSuffix (TrimPrefix line prefix) " -->").
Proof.
  intros Hbefore Hline. induction Hbefore as [|l before Hl _ IH]; cbn.
  - by rewrite (proj2 (HasPrefix_spec _ _) Hline).
  - destruct (HasPrefix l prefix) eqn:Hp; [|done].
    by apply HasPrefix_spec in Hp.
Qed.

Lemma extractMeta_loop_none (prefix : string) (lines : list string) :
  Forall (λ l, ¬ begins_with l prefix) lines →
  extractMeta_loop prefix lines = "".
Proof.
  induction 1 as [|l lines Hl _ IH]; [done|]. cbn.
  destruct (HasPrefix l prefix) eqn:Hp; [|done].
  by apply HasPrefix_spec in Hp.
Qed.

(** The title of a loaded post is its title metadata, or its slug when that
    is empty. *)
Lemma loadPost_Title (os : OS) (slug content : string) (post : Post) :
  ReadFile os (Filepath.Join "posts" (slug +:+ ".html")) = Ok content →
  loadPost os slug = Ok post →
  Title post
  = if String.eqb (extractMeta (Split content newline) "title") ""
    then slug else extractMeta (Split content newline) "title".
Proof.
  intros Hread. unfold loadPost. rewrite Hread.
  destruct (processContentWithTOC _) as [processedContent toc].
  destruct (if negb _ then _ else _) as [[[ct cd] ci] cn].
  intros [= <-]. cbn [Title].
  by destruct (String.eqb _ "").
Qed.

(** C4. [extractMeta] returns, for the first line that begins with
    [<!-- key: ], what follows that prefix, without a closing [ -->] if the
    line ends with one, and without surrounding white space; it returns the
    empty string when no line begins with the prefix.  A post file with no
    title line yields a post whose title is its slug. *)
Theorem extractMeta_first_match (lines : list string) (key : string) :
  let prefix := "<!-- " +:+ key +:+ ": " in
  (∀ before value after,
     lines = before ++ (prefix +:+ value) :: after →
     Forall (λ l, ¬ begins_with l prefix) before →
     (∀ inner, value = inner +:+ " -->" →
               extractMeta lines key = TrimSpace inner)
     ∧ (¬ ends_with value " -->" →
        extractMeta lines key = TrimSpace value))
  ∧ (Forall (λ l, ¬ begins_with l prefix) lines →
     extractMeta lines key = "")
  ∧ (∀ os slug content post,
       ReadFile os (Filepath.Join "posts" (slug +:+ ".html")) = Ok content →
       loadPost os slug = Ok post →
       Forall (λ l, ¬ begins_with l "<!-- title: ") (Split content newline) →
       Title post = slug).
Proof.
  cbv zeta. set (prefix := "<!-- " +:+ key +:+ ": ").
  split; [|split].
  - intros before value after -> Hbefore. unfold extractMeta. fold prefix.
    rewrite extractMeta_loop_first; [|done|by exists value].
    unfold TrimPrefix. rewrite HasPrefix_app, str_drop_app.
    destruct (TrimSuffix_spec value " -->") as [Hs1 Hs2].
    split.
    + intros inner Hv. by rewrite (Hs1 inner Hv).
    + intros Hno. by rewrite (Hs2 Hno).
  - intros Hnone. unfold extractMeta. fold prefix.
    by apply extractMeta_loop_none.
  - intros os slug content post Hread Hload Hnone.
    rewrite (loadPost_Title os slug content post Hread Hload).
    unfold extractMeta. by rewrite extractMeta_loop_none.
Qed.

Lemma extractMeta_first_match_witness :
  extractMeta ["<p>x</p>"; "<!-- title:  Foo  -->"; "<!-- title: Bar -->"]
    "title" = TrimSpace " Foo "
  ∧ extractMeta ["<!-- title: Foo"] "title" = TrimSpace "Foo"
  ∧ extractMeta ["<!-- date: 2024-01-15 -->"] "title" = "".
Proof.
  split; [|split].
  - apply (proj1 (extractMeta_first_match
                    ["<p>x</p>"; "<!-- title:  Foo  -->";
                     "<!-- title: Bar -->"] "title")
             ["<p>x</p>"] " Foo  -->" ["<!-- title: Bar -->"]);
      [reflexivity| |reflexivity].
    repeat constructor. intros Hb%HasPrefix_spec. discriminate Hb.
  - apply (proj1 (extractMeta_first_match ["<!-- title: Foo"] "title")
             [] "Foo" []); [reflexivity|constructor|].
    intros He%HasSuffix_spec. discriminate He.
  - apply (proj1 (proj2 (extractMeta_first_match
                           ["<!-- date: 2024-01-15 -->"] "title"))).
    repeat constructor. intros Hb%HasPrefix_spec. discriminate Hb.
Defined.

(** ** The claim about the feed dates *)

(** A calendar date, and the way [YYYY-MM-DD] writes it. *)
Definition valid_date (t : Time.Time) : Prop :=
  (0 ≤ Time.Year t ≤ 9999)%Z ∧ (1 ≤ Time.Month t ≤ 12)%Z
  ∧ (1 ≤ Time.Day t ≤ Time.daysIn (Time.Month t) (Time.Year t))%Z.

Definition iso_date (t : Time.Time) : string :=
  Time.pad_digits 4 (Time.Year t) "" +:+ "-"
  +:+ Time.pad_digits 2 (Time.Month t) "" +:+ "-"
  +:+ Time.pad_digits 2 (Time.Day t) "".

Lemma digit_digit_char (n : Z) :
  (0 ≤ n ≤ 9)%Z → Time.digit (Time.digit_char n) = Some n.
Proof.
  intros Hn. assert (∃ k : nat, k < 10 ∧ n = Z.of_nat k) as (k & Hk & ->).
  { exists (Z.to_nat n). lia. }
  do 10 (destruct k as [|k]; [reflexivity|]). lia.
Qed.

Lemma digit_Some (c : ascii) (n : Z) :
  Time.digit c = Some n → (0 ≤ n ≤ 9)%Z ∧ c = Time.digit_char n.
Proof.
  unfold Time.digit, Time.digit_char.
  destruct (_ && _) eqn:Hr; [|done]. intros [= <-].
  apply andb_true_iff in Hr as [H1%Z.leb_le H2%Z.leb_le].
  split; [lia|].
  replace (48 + Z.to_nat (Z.of_nat (nat_of_ascii c) - 48))
    with (nat_of_ascii c) by lia.
  by rewrite ascii_nat_embedding.
Qed.

Lemma pad_digits_2 (n : Z) :
  Time.pad_digits 2 n ""
  = String (Time.digit_char ((n / 10) mod 10))
      (String (Time.digit_char (n mod 10)) "").
Proof. reflexivity. Qed.

Lemma pad_digits_4 (n : Z) :
  Time.pad_digits 4 n ""
  = String (Time.digit_char ((n / 10 / 10 / 10) mod 10))
      (String (Time.digit_char ((n / 10 / 10) mod 10))
         (String (Time.digit_char ((n / 10) mod 10))
            (String (Time.digit_char (n mod 10)) ""))).
Proof. reflexivity. Qed.

Lemma getnum2_pad (n : Z) (r : string) :
  (0 ≤ n ≤ 99)%Z → Time.getnum2 (Time.pad_digits 2 n "" +:+ r) = Some (n, r).
Proof.
  intros Hn. rewrite pad_digits_2, !str_app_cons, str_app_nil_l.
  cbn [Time.getnum2].
  rewrite !digit_digit_char by (Z.div_mod_to_equations; lia).
  do 2 f_equal. Z.div_mod_to_equations; lia.
Qed.

Lemma getnum2_Some (s r : string) (n : Z) :
  Time.getnum2 s = Some (n, r) →
  (0 ≤ n ≤ 99)%Z ∧ s = Time.pad_digits 2 n "" +:+ r.
Proof.
  destruct s as [|a [|b s]]; try done. cbn [Time.getnum2].
  destruct (Time.digit a) as [x|] eqn:Hx; [|done].
  destruct (Time.digit b) as [y|] eqn:Hy; [|done].
  intros [= <- <-].
  apply digit_Some in Hx as [Hx ->]. apply digit_Some in Hy as [Hy ->].
  split; [lia|].
  rewrite pad_digits_2, !str_app_cons, str_app_nil_l.
  do 2 f_equal; f_equal; Z.div_mod_to_equations; lia.
Qed.

Lemma getyear_pad (n : Z) (r : string) :
  (0 ≤ n ≤ 9999)%Z →
  Time.getyear (Time.pad_digits 4 n "" +:+ r) = Some (n, r).
Proof.
  intros Hn. rewrite pad_digits_4, !str_app_cons, str_app_nil_l.
  cbn [Time.getyear].
  rewrite !digit_digit_char by (Z.div_mod_to_equations; lia).
  do 2 f_equal. Z.div_mod_to_equations; lia.
Qed.

Lemma getyear_Some (s r : string) (n : Z) :
  Time.getyear s = Some (n, r) →
  (0 ≤ n ≤ 9999)%Z ∧ s = Time.pad_digits 4 n "" +:+ r.
Proof.
  destruct s as [|a [|b [|c [|d s]]]]; try done. cbn [Time.getyear].
  destruct (Time.digit a) as [x|] eqn:Hx; [|done].
  destruct (Time.digit b) as [y|] eqn:Hy; [|done].
  destruct (Time.digit c) as [z|] eqn:Hz; [|done].
  destruct (Time.digit d) as [w|] eqn:Hw; [|done].
  intros [= <- <-].
  apply digit_Some in Hx as [Hx ->]. apply digit_Some in Hy as [Hy ->].
  apply digit_Some in Hz as [Hz ->]. apply digit_Some in Hw as [Hw ->].
  split; [lia|].
  rewrite pad_digits_4, !str_app_cons, str_app_nil_l.
  do 4 f_equal; f_equal; Z.div_mod_to_equations; lia.
Qed.

Lemma skip_dash_Some (s r : string) :
  Time.skip_dash s = Some r ↔ s = "-" +:+ r.
Proof.
  destruct s as [|c s]; [done|]. cbn [Time.skip_dash].
  destruct (Ascii.eqb_spec c "-") as [->|Hne].
  - split; [by intros [= ->]|]. rewrite str_app_cons, str_app_nil_l.
    by intros [= ->].
  - split; [done|]. rewrite str_app_cons, str_app_nil_l. by intros [= -> _].
Qed.

(** [time.Parse] accepts exactly the strings [YYYY-MM-DD] of the calendar
    dates. *)
Lemma Parse_Some (s : string) (t : Time.Time) :
  Time.Parse s = Some t ↔ valid_date t ∧ s = iso_date t.
Proof.
  unfold Time.Parse, valid_date, iso_date. split.
  - destruct (Time.getyear s) as [[year s1]|] eqn:Hy; [|done]. cbn.
    destruct (Time.skip_dash s1) as [s2|] eqn:Hd1; [|done]. cbn.
    destruct (Time.getnum2 s2) as [[month s3]|] eqn:Hm; [|done]. cbn.
    destruct ((month <=? 0)%Z || (12 <? month)%Z) eqn:Hmr; [done|].
    destruct (Time.skip_dash s3) as [s4|] eqn:Hd2; [|done]. cbn.
    destruct (Time.getnum2 s4) as [[day s5]|] eqn:Hdy; [|done]. cbn.
    destruct s5; [|done].
    destruct ((day <? 1)%Z || (Time.daysIn month year <? day)%Z) eqn:Hdr;
      [done|].
    intros [= <-]. cbn.
    apply getyear_Some in Hy as [Hy ->].
    apply skip_dash_Some in Hd1 as ->.
    apply getnum2_Some in Hm as [Hm ->].
    apply skip_dash_Some in Hd2 as ->.
    apply getnum2_Some in Hdy as [Hdy ->].
    apply orb_false_iff in Hmr as [?%Z.leb_gt ?%Z.ltb_ge].
    apply orb_false_iff in Hdr as [?%Z.ltb_ge ?%Z.ltb_ge].
    split; [lia|]. by rewrite str_app_nil_r.
  - intros ((Hy & Hm & Hd) & ->). destruct t as [year month day].
    cbn [Time.Year Time.Month Time.Day] in *.
    assert (Time.daysIn month year ≤ 31)%Z.
    { unfold Time.daysIn. repeat case_match; lia. }
    rewrite getyear_pad by lia. cbn [mbind option_bind].
    rewrite (proj2 (skip_dash_Some _ _) eq_refl). cbn [mbind option_bind].
    rewrite getnum2_pad by lia. cbn [mbind option_bind].
    rewrite (proj2 (orb_false_iff _ _)) by (split; lia).
    rewrite (proj2 (skip_dash_Some _ _) eq_refl). cbn [mbind option_bind].
    rewrite <- (str_app_nil_r (Time.pad_digits 2 day "")).
    rewrite getnum2_pad by lia. cbn [mbind option_bind].
    by rewrite (proj2 (orb_false_iff _ _)) by (split; lia).
Qed.

Lemma feed_items_map (baseURL : string) (posts acc : list Post)
    (items : list Feed.Item) :
  fold_left (λ items post, items ++ [feedItem baseURL post]) posts items
  = items ++ (feedItem baseURL <$> posts).
Proof.
  revert items. induction posts as [|p posts IH]; intros items; cbn.
  - by rewrite app_nil_r.
  - by rewrite IH, <- app_assoc.
Qed.

(** C9. In the feed, a post whose raw date is the [YYYY-MM-DD] of a
    calendar date gets the RFC 1123 form of that date, at midnight UTC, as
    its publish date (2024-03-05 gives Tue, 05 Mar 2024 00:00:00 +0000); a
    post whose raw date does not parse gets an empty publish date, and its
    item is produced all the same.  Both feed builders make one item per
    post this way. *)
Theorem feed_pubDate (baseURL : string) (post : Post) :
  let item := feedItem baseURL post in
  (∀ t, valid_date t → RawDate post = iso_date t →
        Feed.PubDate item = Time.FormatRFC1123Z t)
  ∧ ((¬ ∃ t, valid_date t ∧ RawDate post = iso_date t) →
     Feed.PubDate item = "")
  ∧ (RawDate post = "2024-03-05" →
     Feed.PubDate item = "Tue, 05 Mar 2024 00:00:00 +0000")
  ∧ (RawDate post = "unknown" → Feed.PubDate item = "")
  ∧ (∀ posts,
       buildRSSFeed_items baseURL posts = feedItem baseURL <$> posts
       ∧ handleRSS_items baseURL posts = feedItem baseURL <$> posts).
Proof.
  cbv zeta. unfold feedItem. cbn [Feed.PubDate].
  split; [|split; [|split; [|split]]].
  - intros t Hv Hraw.
    by rewrite (proj2 (Parse_Some (RawDate post) t) (conj Hv Hraw)).
  - intros Hno. destruct (Time.Parse (RawDate post)) as [t|] eqn:Hp; [|done].
    exfalso. apply Hno. exists t. by apply Parse_Some.
  - by intros ->.
  - by intros ->.
  - intros posts. unfold buildRSSFeed_items, handleRSS_items.
    by rewrite !(feed_items_map baseURL posts []).
Qed.

Lemma feed_pubDate_witness :
  Feed.PubDate
    (feedItem "https://example.com"
       {| Slug := "a"; Title := "A"; Description := ""; Date := "";
          RawDate := "2024-03-05"; Collection := ""; CollectionTitle := "";
          CollectionDescription := ""; CollectionIndex := 0;
          CollectionTotal := 0; Content := "<p>x</p>";
          ReadTimeInMinutes := 1; TOC := []; PageType := "" |})
  = Time.FormatRFC1123Z
      {| Time.Year := 2024; Time.Month := 3; Time.Day := 5 |}.
Proof.
  apply (proj1 (feed_pubDate "https://example.com" _)
           {| Time.Year := 2024; Time.Month := 3; Time.Day := 5 |});
    [by vm_compute|reflexivity].
Defined.

(** ** Binary64 arithmetic of the reading time

    [float64(words) / 200] is followed through the rounding steps of the
    IEEE 754 model: the conversion is exact below [2^53], the division
    rounds a quotient of 53 or 54 digits to the nearest float, and the
    rounded quotient never reaches the next whole number.  Above [2^53] the
    conversion rounds too; the estimate is then still a normal float of at
    least one. *)

Section FloatFacts.
Local Open Scope Z_scope.

Lemma digits2_pos_bounds (p : positive) :
  2 ^ (Z.pos (digits2_pos p) - 1) ≤ Z.pos p < 2 ^ Z.pos (digits2_pos p).
Proof.
  induction p as [p IH|p IH|]; cbn [digits2_pos].
  - rewrite Pos2Z.inj_succ.
    replace (Z.succ (Z.pos (digits2_pos p)) - 1) with
      (Z.succ (Z.pos (digits2_pos p) - 1)) by lia.
    rewrite !Z.pow_succ_r by lia.
    generalize dependent (2 ^ (Z.pos (digits2_pos p) - 1)).
    generalize dependent (2 ^ Z.pos (digits2_pos p)). lia.
  - rewrite Pos2Z.inj_succ.
    replace (Z.succ (Z.pos (digits2_pos p)) - 1) with
      (Z.succ (Z.pos (digits2_pos p) - 1)) by lia.
    rewrite !Z.pow_succ_r by lia.
    generalize dependent (2 ^ (Z.pos (digits2_pos p) - 1)).
    generalize dependent (2 ^ Z.pos (digits2_pos p)). lia.
  - cbn. lia.
Qed.

Lemma Zdigits2_unique (m d : Z) :
  2 ^ (d - 1) ≤ m < 2 ^ d → 0 < d → Zdigits2 m = d.
Proof.
  intros Hm Hd.
  assert (0 < m) by (pose proof (Z.pow_pos_nonneg 2 (d - 1)); lia).
  destruct m as [|p|p]; try lia. cbn [Zdigits2].
  pose proof (digits2_pos_bounds p) as Hp.
  set (c := Z.pos (digits2_pos p)) in *.
  assert (0 < c) by (subst c; lia).
  destruct (Z.lt_trichotomy c d) as [Hlt|[->|Hgt]]; [|done|].
  - assert (2 ^ c ≤ 2 ^ (d - 1)) by (apply Z.pow_le_mono_r; lia). lia.
  - assert (2 ^ d ≤ 2 ^ (c - 1)) by (apply Z.pow_le_mono_r; lia). lia.
Qed.

Lemma iter_xO_shift (m n : positive) :
  Z.pos (Pos.iter xO m n) = Z.pos m * 2 ^ Z.pos n.
Proof.
  induction n as [|n IH] using Pos.peano_ind.
  - cbn. lia.
  - rewrite Pos.iter_succ, Pos2Z.inj_xO, IH, Pos2Z.inj_succ, Z.pow_succ_r by lia.
    lia.
Qed.

(** A mantissa of 53 digits whose exponent is in range is kept as it is. *)
Lemma binary_round_aux_exact (m : positive) (e : Z) :
  2 ^ 52 ≤ Z.pos m < 2 ^ 53 → -1074 ≤ e ≤ 971 →
  binary_round_aux 53 1024 false (Z.pos m) e loc_Exact = S754_finite false m e.
Proof.
  intros Hm He.
  assert (Hshr : shr_fexp 53 1024 (Z.pos m) e loc_Exact =
                 ({| shr_m := Z.pos m; shr_r := false; shr_s := false |}, e)).
  { unfold shr_fexp. rewrite (Zdigits2_unique (Z.pos m) 53) by lia.
    unfold fexp, emin.
    replace (Z.max (53 + e - 53) (3 - 1024 - 53) - e) with 0 by lia.
    reflexivity. }
  unfold binary_round_aux. rewrite Hshr. cbn [shr_m loc_of_shr_record round_nearest_even].
  rewrite Hshr. cbn [shr_m].
  destruct (Z.leb_spec e (1024 - 53)); [done|lia].
Qed.

Lemma of_int_normal (w d : Z) :
  2 ^ (d - 1) ≤ w < 2 ^ d → 0 < d ≤ 53 →
  Float64.of_int w = S754_finite false (Z.to_pos (w * 2 ^ (53 - d))) (d - 53).
Proof.
  intros Hw Hd.
  assert (0 < w) by (pose proof (Z.pow_pos_nonneg 2 (d - 1)); lia).
  destruct w as [|p|p]; try lia.
  unfold Float64.of_int, binary_normalize, binary_round.
  pose proof (Zdigits2_unique (Z.pos p) d Hw ltac:(lia)) as Hdig.
  cbn [Zdigits2] in Hdig. rewrite Hdig.
  unfold fexp, emin, Float64.prec, Float64.emax.
  replace (Z.max (d + 0 - 53) (3 - 1024 - 53)) with (d - 53) by lia.
  unfold shl_align.
  destruct (Z.eq_dec d 53) as [->|Hne].
  - cbn [Z.sub Z.add Z.opp Z.pos_sub].
    change (53 - 53) with 0. rewrite Z.pow_0_r, Z.mul_1_r, Pos2Z.id.
    apply binary_round_aux_exact; [simpl in *; lia|lia].
  - destruct (d - 53 - 0) as [|k|k] eqn:Hk; try lia.
    assert (Hmz : Z.pos (Pos.iter xO p k) = Z.pos p * 2 ^ (53 - d)).
    { rewrite iter_xO_shift. f_equal. f_equal. lia. }
    rewrite <- Hmz, Pos2Z.id.
    apply binary_round_aux_exact; [|lia].
    rewrite Hmz.
    replace (2 ^ 52) with (2 ^ (d - 1) * 2 ^ (53 - d))
      by (rewrite <- Z.pow_add_r by lia; f_equal; lia).
    replace (2 ^ 53) with (2 ^ d * 2 ^ (53 - d))
      by (rewrite <- Z.pow_add_r by lia; f_equal; lia).
    assert (0 < 2 ^ (53 - d)) by (apply Z.pow_pos_nonneg; lia).
    nia.
Qed.


Lemma shr_fexp_53 (m e : Z) (l : location) :
  2 ^ 52 ≤ m < 2 ^ 53 → -1074 ≤ e →
  shr_fexp 53 1024 m e l = (shr_record_of_loc m l, e).
Proof.
  intros Hm He. unfold shr_fexp. rewrite (Zdigits2_unique m 53) by lia.
  unfold fexp, emin.
  replace (Z.max (53 + e - 53) (3 - 1024 - 53) - e) with 0 by lia.
  reflexivity.
Qed.

Lemma shr_fexp_54 (m e : Z) (l : location) :
  2 ^ 53 ≤ m < 2 ^ 54 → -1074 ≤ e →
  shr_fexp 53 1024 m e l = (shr_1 (shr_record_of_loc m l), e + 1).
Proof.
  intros Hm He. unfold shr_fexp. rewrite (Zdigits2_unique m 54) by lia.
  unfold fexp, emin.
  replace (Z.max (54 + e - 53) (3 - 1024 - 53) - e) with 1 by lia.
  reflexivity.
Qed.

Lemma shr_1_pos (m : Z) (r s : bool) :
  0 ≤ m →
  shr_1 {| shr_m := m; shr_r := r; shr_s := s |} =
  {| shr_m := m / 2; shr_r := Z.odd m; shr_s := r || s |}.
Proof.
  intros Hm. rewrite <- Z.div2_div.
  destruct m as [|[p|p|]|]; try lia; reflexivity.
Qed.

(** The second half of [binary_round_aux]: the rounded mantissa is
    normalised again and packed. *)
Definition round_finish (m e : Z) : spec_float :=
  let '(mrs, e') := shr_fexp 53 1024 m e loc_Exact in
  match shr_m mrs with
  | Z0 => S754_zero false
  | Zpos m => if e' <=? 1024 - 53 then S754_finite false m e'
              else S754_infinity false
  | _ => S754_nan
  end.

Lemma binary_round_aux_unfold (mx ex : Z) (lx : location) :
  binary_round_aux 53 1024 false mx ex lx =
  let mrs := fst (shr_fexp 53 1024 mx ex lx) in
  round_finish (round_nearest_even (shr_m mrs) (loc_of_shr_record mrs))
               (snd (shr_fexp 53 1024 mx ex lx)).
Proof.
  unfold binary_round_aux, round_finish.
  by destruct (shr_fexp 53 1024 mx ex lx).
Qed.

Lemma round_finish_spec (m e : Z) :
  2 ^ 52 ≤ m ≤ 2 ^ 53 → -1074 ≤ e ≤ 960 →
  ∃ (m' : positive) (t : Z),
    round_finish m e = S754_finite false m' (e + t) ∧
    2 ^ 52 ≤ Z.pos m' < 2 ^ 53 ∧ 0 ≤ t ≤ 1 ∧ Z.pos m' * 2 ^ t = m.
Proof.
  intros Hm He. unfold round_finish.
  destruct (Z.eq_dec m (2 ^ 53)) as [->|Hne].
  - exists (Z.to_pos (2 ^ 52)), 1.
    rewrite shr_fexp_54 by lia. cbn [shr_record_of_loc].
    rewrite shr_1_pos by lia. cbn [shr_m].
    change (2 ^ 53 / 2) with (Z.pos (Z.to_pos (2 ^ 52))).
    destruct (Z.leb_spec (e + 1) (1024 - 53)); [|lia].
    split; [done|]. split; [done|]. split; [lia|done].
  - exists (Z.to_pos m), 0.
    rewrite shr_fexp_53 by lia. cbn [shr_record_of_loc shr_m].
    destruct m as [|p|p]; try lia.
    destruct (Z.leb_spec e (1024 - 53)); [|lia].
    rewrite Pos2Z.id, Z.add_0_r. split; [done|]. lia.
Qed.

Lemma loc_of_shr_record_of_loc (m : Z) (l : location) :
  loc_of_shr_record (shr_record_of_loc m l) = l.
Proof. by destruct l as [|[]]. Qed.

Lemma shr_m_shr_record_of_loc (m : Z) (l : location) :
  shr_m (shr_record_of_loc m l) = m.
Proof. by destruct l as [|[]]. Qed.

Lemma round_nearest_even_range (m : Z) (l : location) :
  m ≤ round_nearest_even m l ≤ m + 1.
Proof. destruct l as [|[]]; cbn; try destruct (Z.even m); lia. Qed.

Lemma round_nearest_even_half (q : Z) (l : location) :
  0 ≤ q →
  let mrs := shr_1 (shr_record_of_loc q l) in
  q / 2 ≤ round_nearest_even (shr_m mrs) (loc_of_shr_record mrs) ∧
  2 * round_nearest_even (shr_m mrs) (loc_of_shr_record mrs) ≤ q + 1.
Proof.
  intros Hq mrs. subst mrs.
  pose proof (Z.div_mod q 2 ltac:(lia)) as Hdm.
  pose proof (Z.mod_pos_bound q 2 ltac:(lia)) as Hmod.
  rewrite Zmod_odd in *.
  destruct l as [|[]]; cbn [shr_record_of_loc]; rewrite shr_1_pos by lia;
    cbn [shr_m shr_r shr_s loc_of_shr_record orb];
    destruct (Z.odd q); cbn [loc_of_shr_record round_nearest_even];
    try destruct (Z.even (q / 2)); lia.
Qed.

(** Rounding a quotient of 53 or 54 digits: the result is normal, and the
    mantissa stays between the quotient cut to the new exponent and the
    quotient plus one. *)
Lemma binary_round_aux_near (q e : Z) (lx : location) :
  2 ^ 52 ≤ q < 2 ^ 54 → -1074 ≤ e ≤ 950 →
  ∃ (m' : positive) (t : Z),
    binary_round_aux 53 1024 false q e lx = S754_finite false m' (e + t) ∧
    2 ^ 52 ≤ Z.pos m' < 2 ^ 53 ∧ 0 ≤ t ≤ 2 ∧
    q / 2 ^ t ≤ Z.pos m' ∧ Z.pos m' * 2 ^ t ≤ q + 1.
Proof.
  intros Hq He. rewrite binary_round_aux_unfold. cbv zeta.
  destruct (Z.lt_ge_cases q (2 ^ 53)) as [Hlt|Hge].
  - rewrite shr_fexp_53 by lia. cbn [fst snd].
    rewrite loc_of_shr_record_of_loc, shr_m_shr_record_of_loc.
    pose proof (round_nearest_even_range q lx) as Hr.
    set (m := round_nearest_even _ _) in *.
    destruct (round_finish_spec m e) as (m' & t & -> & Hm' & Ht & Hmt); [lia..|].
    exists m', t. split; [done|]. split; [done|]. split; [lia|].
    assert (Hcase : t = 0 ∨ t = 1) by lia.
    destruct Hcase as [-> | ->].
    + rewrite Z.pow_0_r, Z.div_1_r. lia.
    + change (2 ^ 1) with 2 in *.
      split; [|lia]. apply Z.div_le_upper_bound; lia.
  - rewrite shr_fexp_54 by lia. cbn [fst snd].
    pose proof (round_nearest_even_half q lx ltac:(lia)) as [Hlo Hhi].
    cbn zeta in Hlo, Hhi.
    set (m := round_nearest_even _ _) in *.
    assert (2 ^ 52 ≤ q / 2) by (apply Z.div_le_lower_bound; lia).
    destruct (round_finish_spec m (e + 1)) as (m' & t & -> & Hm' & Ht & Hmt);
      [lia..|].
    exists m', (1 + t). rewrite Z.add_assoc.
    split; [done|]. split; [done|]. split; [lia|].
    assert (Hcase : t = 0 ∨ t = 1) by lia.
    destruct Hcase as [-> | ->].
    + change (2 ^ (1 + 0)) with 2. rewrite Z.pow_0_r in Hmt. lia.
    + change (2 ^ (1 + 1)) with 4. change (2 ^ 1) with 2 in *.
      split; [|lia]. apply Z.div_le_upper_bound; lia.
Qed.


Lemma of_int_200 : Float64.of_int 200 = S754_finite false (Z.to_pos (25 * 2 ^ 48)) (-45).
Proof. reflexivity. Qed.

Lemma of_int_1 : Float64.of_int 1 = S754_finite false (Z.to_pos (2 ^ 52)) (-52).
Proof. reflexivity. Qed.

(** Dividing a normal float by 200: the quotient of the mantissas, taken
    with five more bits, is rounded at the exponent lowered by eight. *)
Lemma div_200 (m : positive) (e : Z) :
  2 ^ 52 ≤ Z.pos m < 2 ^ 53 → -1000 ≤ e ≤ 1000 →
  ∃ lx, Float64.div (S754_finite false m e) (Float64.of_int 200)
        = binary_round_aux 53 1024 false (Z.pos m * 32 / 25) (e - 8) lx.
Proof.
  intros Hm He. rewrite of_int_200.
  unfold Float64.div, SFdiv, SFdiv_core_binary, Float64.prec, Float64.emax.
  rewrite (Zdigits2_unique (Z.pos m) 53) by lia.
  rewrite (Zdigits2_unique (Z.pos (Z.to_pos (25 * 2 ^ 48))) 53) by (simpl; lia).
  unfold fexp, emin.
  replace (Z.min (Z.max (53 + e - (53 + -45) - 53) (3 - 1024 - 53)) (e - -45))
    with (e - 8) by lia.
  replace (e - -45 - (e - 8)) with 53 by lia.
  rewrite Z.shiftl_mul_pow2 by lia.
  pose proof (Z_div_mod (Z.pos m * 2 ^ 53) (Z.pos (Z.to_pos (25 * 2 ^ 48)))
                ltac:(lia)) as Hdm.
  destruct (Z.div_eucl _ _) as [q r]. destruct Hdm as [Hq Hr].
  exists (new_location (Z.pos (Z.to_pos (25 * 2 ^ 48))) r).
  cbn [xorb]. f_equal.
  change (Z.pos (Z.to_pos (25 * 2 ^ 48))) with (25 * 2 ^ 48) in *.
  replace (2 ^ 53) with (32 * 2 ^ 48) in Hq by reflexivity.
  set (P := 2 ^ 48) in *. assert (HP : 0 < P) by (subst P; lia).
  apply (Z.div_unique_pos _ _ _ (Z.pos m * 32 - 25 * q)); [nia|lia].
Qed.


(** [int(math.Max(x, 1.0))] of a positive normal [x] below one half of
    [2^63]: the integer part of [x], or one when [x] is below one. *)
Lemma to_int_Max_1 (m : positive) (e : Z) :
  2 ^ 52 ≤ Z.pos m < 2 ^ 53 → -1000 ≤ e < 0 →
  Float64.to_int (Float64.Max (S754_finite false m e) (Float64.of_int 1))
  = Z.max 1 (Z.pos m / 2 ^ (- e)).
Proof.
  intros Hm He. rewrite of_int_1.
  assert (Hint : Float64.to_int (S754_finite false m e) = Z.pos m / 2 ^ (- e)).
  { unfold Float64.to_int. destruct e as [|p|p]; try lia.
    rewrite Z.shiftr_div_pow2 by lia.
    change (- Z.neg p) with (Z.pos p).
    assert (0 < 2 ^ Z.pos p) by (apply Z.pow_pos_nonneg; lia).
    assert (0 ≤ Z.pos m / 2 ^ Z.pos p) by (apply Z.div_pos; lia).
    assert (Z.pos m / 2 ^ Z.pos p ≤ Z.pos m)
      by (apply Z.div_le_upper_bound; nia).
    destruct (Z.leb_spec (- 2 ^ 63) (Z.pos m / 2 ^ Z.pos p)); [|lia].
    destruct (Z.ltb_spec (Z.pos m / 2 ^ Z.pos p) (2 ^ 63)); [done|lia]. }
  unfold Float64.Max, SFltb, SFcompare.
  destruct (Z.compare_spec (-52) e) as [<-|Hlt|Hgt].
  - change (- -52) with 52 in *.
    assert (Hone : Z.pos m / 2 ^ 52 = 1)
      by (symmetry; apply (Z.div_unique_pos _ _ _ (Z.pos m - 2 ^ 52)); lia).
    rewrite Hone. 
    destruct (Pos.compare_cont Eq (Z.to_pos (2 ^ 52)) m);
      [reflexivity| |reflexivity].
    rewrite Hint. change (- -52) with 52. by rewrite Hone.
  - rewrite Hint.
    assert (2 ^ (- e) ≤ 2 ^ 51) by (apply Z.pow_le_mono_r; lia).
    assert (0 < 2 ^ (- e)) by (apply Z.pow_pos_nonneg; lia).
    assert (2 ≤ Z.pos m / 2 ^ (- e)) by (apply Z.div_le_lower_bound; lia).
    lia.
  - assert (2 ^ 53 ≤ 2 ^ (- e)) by (apply Z.pow_le_mono_r; lia).
    rewrite (Z.div_small (Z.pos m)) by lia. reflexivity.
Qed.

(** The reading time is the whole number of 200-word minutes, at least
    one, for every word count that [float64] holds exactly. *)
Lemma readTime_spec (words : Z) :
  0 ≤ words < 2 ^ 53 → readTime words = Z.max 1 (words / 200).
Proof.
  intros [Hw0 Hw]. unfold readTime.
  destruct (Z.eq_dec words 0) as [->|Hne]; [reflexivity|].
  set (d := Z.log2 words + 1).
  pose proof (Z.log2_spec words ltac:(lia)) as Hlog.
  pose proof (Z.log2_nonneg words) as Hlog0.
  assert (Hd : 0 < d ≤ 53).
  { split; [lia|]. pose proof (proj1 (Z.log2_lt_pow2 words 53 ltac:(lia)) Hw). lia. }
  assert (Hwd : 2 ^ (d - 1) ≤ words < 2 ^ d).
  { subst d. replace (Z.log2 words + 1 - 1) with (Z.log2 words) by lia.
    replace (Z.log2 words + 1) with (Z.succ (Z.log2 words)) by lia. exact Hlog. }
  rewrite (of_int_normal words d Hwd Hd).
  set (M := 2 ^ (53 - d)).
  assert (HM : 0 < M) by (apply Z.pow_pos_nonneg; lia).
  assert (Hm1 : 2 ^ 52 ≤ words * M < 2 ^ 53).
  { replace (2 ^ 52) with (2 ^ (d - 1) * M)
      by (subst M; rewrite <- Z.pow_add_r by lia; f_equal; lia).
    replace (2 ^ 53) with (2 ^ d * M)
      by (subst M; rewrite <- Z.pow_add_r by lia; f_equal; lia).
    nia. }
  assert (Hpos : Z.pos (Z.to_pos (words * M)) = words * M)
    by (apply Z2Pos.id; lia).
  destruct (div_200 (Z.to_pos (words * M)) (d - 53)) as [lx ->];
    [rewrite Hpos; lia | lia |].
  rewrite Hpos.
  set (q := words * M * 32 / 25).
  assert (Hq25 : 25 * q ≤ words * M * 32 < 25 * q + 25).
  { pose proof (Z.div_mod (words * M * 32) 25 ltac:(lia)).
    pose proof (Z.mod_pos_bound (words * M * 32) 25 ltac:(lia)).
    subst q. lia. }
  destruct (binary_round_aux_near q (d - 53 - 8) lx)
    as (m' & t & -> & Hm' & Ht & Hlo & Hhi); [lia | lia |].
  rewrite to_int_Max_1 by lia. f_equal.
  set (k := words / 200).
  assert (Hk : 200 * k ≤ words < 200 * k + 200).
  { pose proof (Z.div_mod words 200 ltac:(lia)).
    pose proof (Z.mod_pos_bound words 200 ltac:(lia)).
    subst k. lia. }
  replace (- (d - 53 - 8 + t)) with (61 - d - t) by lia.
  set (N := 2 ^ (61 - d - t)).
  assert (HN : 0 < N) by (apply Z.pow_pos_nonneg; lia).
  set (T := 2 ^ t) in *.
  assert (HT : 0 < T) by (apply Z.pow_pos_nonneg; lia).
  assert (HNT : N * T = 256 * M).
  { subst N T M. rewrite <- Z.pow_add_r by lia.
    change 256 with (2 ^ 8). rewrite <- Z.pow_add_r by lia. f_equal. lia. }
  assert (Hlow : N * k ≤ Z.pos m').
  { etrans; [|exact Hlo]. apply Z.div_le_lower_bound; [lia|].
    assert (25 * (T * (N * k)) ≤ 25 * q); nia. }
  assert (Hupp : Z.pos m' < N * (k + 1)).
  { assert (25 * (Z.pos m' * T) < 25 * (N * T * (k + 1))); nia. }
  symmetry. apply (Z.div_unique_pos _ _ _ (Z.pos m' - N * k)); lia.
Qed.

Lemma iter_pos_shr_1 (n : positive) (mrs : shr_record) :
  0 ≤ shr_m mrs →
  shr_m (SpecFloat.iter_pos shr_1 n mrs) = shr_m mrs / 2 ^ Z.pos n.
Proof.
  assert (Hstep : ∀ mrs, 0 ≤ shr_m mrs →
            shr_m (shr_1 mrs) = shr_m mrs / 2 ∧ 0 ≤ shr_m (shr_1 mrs)).
  { intros [m r s] Hm. cbn [shr_m] in Hm. rewrite shr_1_pos by done.
    cbn [shr_m]. split; [done|]. apply Z.div_pos; lia. }
  revert mrs. induction n as [n IH|n IH|]; intros mrs Hm; cbn [SpecFloat.iter_pos].
  - destruct (Hstep mrs Hm) as [H1 H1'].
    assert (0 < 2 ^ Z.pos n) by (apply Z.pow_pos_nonneg; lia).
    assert (0 ≤ shr_m (SpecFloat.iter_pos shr_1 n (shr_1 mrs)))
      by (rewrite IH by done; apply Z.div_pos; lia).
    rewrite IH, IH, H1 by done.
    rewrite !Z.div_div by lia. f_equal.
    replace (Z.pos n~1) with (1 + Z.pos n + Z.pos n) by lia.
    rewrite !Z.pow_add_r by lia. change (2 ^ 1) with 2. lia.
  - assert (0 < 2 ^ Z.pos n) by (apply Z.pow_pos_nonneg; lia).
    assert (0 ≤ shr_m (SpecFloat.iter_pos shr_1 n mrs))
      by (rewrite IH by done; apply Z.div_pos; lia).
    rewrite IH, IH by done.
    rewrite Z.div_div by lia. f_equal.
    replace (Z.pos n~0) with (Z.pos n + Z.pos n) by lia.
    by rewrite Z.pow_add_r by lia.
  - by destruct (Hstep mrs Hm) as [-> _].
Qed.

(** [float64(w)] of a positive [w] below [2^63] is a normal float. *)
Lemma of_int_finite (w : Z) :
  0 < w < 2 ^ 63 →
  ∃ (m : positive) (e : Z),
    Float64.of_int w = S754_finite false m e ∧
    2 ^ 52 ≤ Z.pos m < 2 ^ 53 ∧ -52 ≤ e ≤ 11.
Proof.
  intros Hw.
  set (d := Z.log2 w + 1).
  pose proof (Z.log2_spec w ltac:(lia)) as Hlog.
  pose proof (Z.log2_nonneg w) as Hlog0.
  assert (Hd : 0 < d ≤ 63).
  { split; [lia|].
    pose proof (proj1 (Z.log2_lt_pow2 w 63 ltac:(lia)) ltac:(lia)). lia. }
  assert (Hwd : 2 ^ (d - 1) ≤ w < 2 ^ d).
  { subst d. replace (Z.log2 w + 1 - 1) with (Z.log2 w) by lia.
    replace (Z.log2 w + 1) with (Z.succ (Z.log2 w)) by lia. exact Hlog. }
  destruct (Z.le_gt_cases d 53) as [Hsmall|Hlarge].
  - exists (Z.to_pos (w * 2 ^ (53 - d))), (d - 53).
    split; [apply of_int_normal; [done|lia]|]. split; [|lia].
    assert (0 < 2 ^ (53 - d)) by (apply Z.pow_pos_nonneg; lia).
    rewrite Z2Pos.id by nia.
    replace (2 ^ 52) with (2 ^ (d - 1) * 2 ^ (53 - d))
      by (rewrite <- Z.pow_add_r by lia; f_equal; lia).
    replace (2 ^ 53) with (2 ^ d * 2 ^ (53 - d))
      by (rewrite <- Z.pow_add_r by lia; f_equal; lia).
    nia.
  - destruct w as [|p|p]; try lia.
    unfold Float64.of_int, binary_normalize, binary_round.
    pose proof (Zdigits2_unique (Z.pos p) d Hwd ltac:(lia)) as Hdig.
    cbn [Zdigits2] in Hdig. rewrite Hdig.
    unfold fexp at 1, emin, Float64.prec, Float64.emax.
    replace (Z.max (d + 0 - 53) (3 - 1024 - 53)) with (d - 53) by lia.
    unfold shl_align.
    destruct (d - 53 - 0) as [|k|k] eqn:Hk; try lia.
    assert (Hshr : shr_fexp 53 1024 (Z.pos p) 0 loc_Exact
                   = (SpecFloat.iter_pos shr_1 k
                        {| shr_m := Z.pos p; shr_r := false; shr_s := false |},
                      0 + Z.pos k)).
    { unfold shr_fexp. cbn [Zdigits2]. rewrite Hdig. unfold fexp, emin.
      by replace (Z.max (d + 0 - 53) (3 - 1024 - 53) - 0) with (Z.pos k)
        by lia. }
    rewrite binary_round_aux_unfold, Hshr. cbv zeta. cbn [fst snd].
    set (mrs := SpecFloat.iter_pos shr_1 k _).
    assert (Hm0 : shr_m mrs = Z.pos p / 2 ^ Z.pos k)
      by (subst mrs; by rewrite iter_pos_shr_1).
    assert (Hpow : 2 ^ d = 2 ^ 53 * 2 ^ Z.pos k)
      by (rewrite <- Z.pow_add_r by lia; f_equal; lia).
    assert (Hpow' : 2 ^ (d - 1) = 2 ^ 52 * 2 ^ Z.pos k)
      by (rewrite <- Z.pow_add_r by lia; f_equal; lia).
    assert (0 < 2 ^ Z.pos k) by (apply Z.pow_pos_nonneg; lia).
    assert (Hrange : 2 ^ 52 ≤ shr_m mrs < 2 ^ 53).
    { rewrite Hm0. split.
      - apply Z.div_le_lower_bound; lia.
      - apply Z.div_lt_upper_bound; lia. }
    pose proof (round_nearest_even_range (shr_m mrs) (loc_of_shr_record mrs)).
    destruct (round_finish_spec
                (round_nearest_even (shr_m mrs) (loc_of_shr_record mrs))
                (0 + Z.pos k)) as (m' & t & -> & Hm' & Ht & _); [lia..|].
    exists m', (0 + Z.pos k + t). split; [done|]. split; [done|]. lia.
Qed.

(** The reading time is at least one for every word count an [int]
    holds. *)
Lemma readTime_ge_1 (words : Z) :
  0 ≤ words < 2 ^ 63 → 1 ≤ readTime words.
Proof.
  intros [Hw0 Hw]. unfold readTime.
  destruct (Z.eq_dec words 0) as [->|Hne]; [by vm_compute|].
  destruct (of_int_finite words) as (m & e & -> & Hm & He); [lia|].
  destruct (div_200 m e) as [lx ->]; [lia..|].
  set (q := Z.pos m * 32 / 25).
  assert (Hq25 : 25 * q ≤ Z.pos m * 32 < 25 * q + 25).
  { pose proof (Z.div_mod (Z.pos m * 32) 25 ltac:(lia)).
    pose proof (Z.mod_pos_bound (Z.pos m * 32) 25 ltac:(lia)).
    subst q. lia. }
  destruct (binary_round_aux_near q (e - 8) lx)
    as (m' & t & -> & Hm' & Ht & _); [lia | lia |].
  destruct (Z.lt_ge_cases (e - 8 + t) 0) as [Hneg|Hpos].
  - rewrite to_int_Max_1 by lia. lia.
  - rewrite of_int_1. unfold Float64.Max, SFltb, SFcompare.
    destruct (Z.compare_spec (-52) (e - 8 + t)) as [|_|]; try lia.
    unfold Float64.to_int.
    assert (Hshift : match e - 8 + t with
                     | Z.neg p => Z.shiftr (Z.pos m') (Z.pos p)
                     | _ => Z.shiftl (Z.pos m') (e - 8 + t)
                     end = Z.pos m' * 2 ^ (e - 8 + t)).
    { destruct (e - 8 + t) as [|p|p] eqn:Hs; try lia;
        by rewrite Z.shiftl_mul_pow2 by lia. }
    rewrite Hshift.
    assert (1 ≤ 2 ^ (e - 8 + t) ≤ 2 ^ 5).
    { split; [|apply Z.pow_le_mono_r; lia].
      pose proof (Z.pow_pos_nonneg 2 (e - 8 + t)); lia. }
    assert (2 ^ 52 ≤ Z.pos m' * 2 ^ (e - 8 + t) < 2 ^ 58) by nia.
    destruct (Z.leb_spec (- 2 ^ 63) (Z.pos m' * 2 ^ (e - 8 + t))); [|lia].
    destruct (Z.ltb_spec (Z.pos m' * 2 ^ (e - 8 + t)) (2 ^ 63)); [|lia].
    cbn [andb]. lia.
Qed.

(** Beyond [2^53] the conversion to [float64] rounds, and the estimate can
    be one more than the whole part of the quotient. *)
Example readTime_beyond :
  readTime (2 ^ 53 + 7) = 45035996273705
  ∧ Z.max 1 ((2 ^ 53 + 7) / 200) = 45035996273704.
Proof. by vm_compute. Qed.

End FloatFacts.

(** ** The claim about the reading time *)

(** A post file whose body is the given text. *)
Definition essay_file (body : string) : string :=
  "<!-- title: Essay -->" +:+ nl
  +:+ "<!-- date: 2024-03-05 -->" +:+ nl
  +:+ body.

Definition essay (body : string) : OS :=
  directory [("posts/essay.html", essay_file body)] [].

(** [n] words, one space between two of them. *)
Definition plain_words (n : nat) : string := Join (replicate n "lorem") " ".

(** The same inside a paragraph whose two tags stand apart. *)
Definition paragraph (n : nat) : string :=
  "<p> " +:+ plain_words n +:+ " </p>".

(** The reading time [loadPost] gives the post, with its number of words. *)
Definition reading_time (os : OS) (slug : string) : option (Z * Z) :=
  match loadPost os slug with
  | Ok post => Some (Z.of_nat (length (Fields (Content post))),
                     ReadTimeInMinutes post)
  | Err _ => None
  end.

Lemma loadPost_ReadTimeInMinutes (os : OS) (slug : string) (post : Post) :
  loadPost os slug = Ok post →
  ReadTimeInMinutes post
  = readTime (Z.of_nat (length (Fields (Content post)))).
Proof.
  unfold loadPost.
  destruct (ReadFile os _) as [content|err]; [|done].
  destruct (processContentWithTOC _) as [processedContent toc].
  destruct (if negb _ then _ else _) as [[[ct cd] ci] cn].
  intros [= <-]. cbn [Title].
  by destruct (String.eqb _ "").
Qed.

(** C6. The reading time of every post that loads is the greater of one and
    the whole part of its word count divided by 200, where the word count is
    the number of fields [strings.Fields] finds in the rendered body, for
    every word count below [2^53] (which [float64] holds exactly); and it is
    at least one for every word count an [int] holds.  Bodies of 200, 401
    and 10 words give 1, 2 and 1; a paragraph of 399 words whose two tags
    stand apart counts 401 words and gives 2, where the 399 words alone
    give 1. *)
Theorem loadPost_reading_time :
  (∀ (os : OS) (slug : string) (post : Post),
     loadPost os slug = Ok post →
     let wordCount := Z.of_nat (length (Fields (Content post))) in
     ((wordCount < 2 ^ 53)%Z →
      ReadTimeInMinutes post = Z.max 1 (wordCount / 200))
     ∧ ((wordCount < 2 ^ 63)%Z → (1 ≤ ReadTimeInMinutes post)%Z))
  ∧ reading_time (essay (plain_words 200)) "essay" = Some (200, 1)%Z
  ∧ reading_time (essay (plain_words 401)) "essay" = Some (401, 2)%Z
  ∧ reading_time (essay (plain_words 10)) "essay" = Some (10, 1)%Z
  ∧ reading_time (essay (plain_words 399)) "essay" = Some (399, 1)%Z
  ∧ reading_time (essay (paragraph 399)) "essay" = Some (401, 2)%Z.
Proof.
  split; [|by vm_compute].
  intros os slug post Hload wordCount.
  rewrite (loadPost_ReadTimeInMinutes os slug post Hload).
  fold wordCount. split; intros Hbound.
  - apply readTime_spec. lia.
  - apply readTime_ge_1. lia.
Qed.

Lemma loadPost_reading_time_witness :
  ∃ post : Post,
    loadPost (essay (paragraph 399)) "essay" = Ok post
    ∧ Z.of_nat (length (Fields (Content post))) = 401%Z
    ∧ ReadTimeInMinutes post = 2%Z.
Proof.
  destruct (loadPost (essay (paragraph 399)) "essay") as [post|e] eqn:Hl;
    [|vm_compute in Hl; discriminate].
  exists post. split; [reflexivity|].
  assert (Hwords : Z.of_nat (length (Fields (Content post))) = 401%Z)
    by (vm_compute in Hl; injection Hl as <-; by vm_compute).
  split; [exact Hwords|].
  destruct (proj1 loadPost_reading_time (essay (paragraph 399)) "essay" post Hl)
    as [Htime _].
  rewrite Htime by (rewrite Hwords; reflexivity).
  by rewrite Hwords.
Defined.

(** * Part IV: further properties of the code *)

(** ** Strings as lists of bytes *)

Section ByteFacts.

Lemma s2l_app (a b : string) :
  list_ascii_of_string (a +:+ b)
  = list_ascii_of_string a ++ list_ascii_of_string b.
Proof.
  induction a as [|c a IH]; [done|].
  rewrite str_app_cons. cbn. by rewrite IH.
Qed.

Lemma s2l_inj (a b : string) :
  list_ascii_of_string a = list_ascii_of_string b → a = b.
Proof.
  intros H. rewrite <- (string_of_list_ascii_of_string a),
    <- (string_of_list_ascii_of_string b). by rewrite H.
Qed.

Lemma s2l_rev_app (s acc : string) :
  list_ascii_of_string (String.rev_app s acc)
  = rev (list_ascii_of_string s) ++ list_ascii_of_string acc.
Proof.
  revert acc. induction s as [|c s IH]; intros acc; [done|].
  cbn. rewrite IH. cbn. by rewrite <- app_assoc.
Qed.

Lemma s2l_rev (s : string) :
  list_ascii_of_string (String.rev s) = rev (list_ascii_of_string s).
Proof. unfold String.rev. by rewrite s2l_rev_app, app_nil_r. Qed.

Lemma str_rev_involutive (s : string) : String.rev (String.rev s) = s.
Proof. apply s2l_inj. by rewrite !s2l_rev, rev_involutive. Qed.

Lemma str_rev_app (a b : string) :
  String.rev (a +:+ b) = String.rev b +:+ String.rev a.
Proof. apply s2l_inj. by rewrite s2l_rev, !s2l_app, rev_app_distr, !s2l_rev. Qed.

Lemma str_app_inv_nil (a b : string) : a +:+ b = "" → a = "" ∧ b = "".
Proof. destruct a; [done|]. by rewrite str_app_cons. Qed.

(** A part of a part is a part. *)
Lemma contains_app (a s b k : string) : contains s k → contains (a +:+ s +:+ b) k.
Proof.
  intros (x & y & ->). exists (a +:+ x), (y +:+ b).
  by rewrite !str_app_assoc.
Qed.

Lemma begins_with_rev (s p : string) :
  begins_with (String.rev s) (String.rev p) ↔ ends_with s p.
Proof.
  split.
  - intros [r Hr]. exists (String.rev r).
    rewrite <- (str_rev_involutive s), Hr, str_rev_app.
    by rewrite str_rev_involutive.
  - intros [r ->]. exists (String.rev r). by rewrite str_rev_app.
Qed.

End ByteFacts.

(** ** [strings.Trim] with a one-byte cutset *)

Section TrimFacts.

Variable c : ascii.

Lemma TrimLeftByte_split (s : string) :
  ∃ a, s = a +:+ TrimLeftByte s c
       ∧ Forall (λ x, x = c) (list_ascii_of_string a).
Proof.
  induction s as [|x s (a & Ha & Hall)].
  - by exists "".
  - cbn [TrimLeftByte]. destruct (Ascii.eqb_spec x c) as [->|Hne].
    + exists (String c a). rewrite str_app_cons, <- Ha.
      split; [done|]. by constructor.
    + by exists "".
Qed.

Lemma TrimLeftByte_head (s : string) :
  ¬ begins_with (TrimLeftByte s c) (String c "").
Proof.
  induction s as [|x s IH]; cbn [TrimLeftByte].
  - by intros [r ?].
  - destruct (Ascii.eqb_spec x c) as [->|Hne]; [done|].
    intros [r Hr]. rewrite str_app_cons in Hr. congruence.
Qed.

Lemma TrimLeftByte_id (s : string) :
  ¬ begins_with s (String c "") → TrimLeftByte s c = s.
Proof.
  destruct s as [|x s]; [done|]. cbn [TrimLeftByte].
  destruct (Ascii.eqb_spec x c) as [->|Hne]; [|done].
  intros H. destruct H. by exists s.
Qed.

Lemma Trim_split (s : string) : ∃ a b, s = a +:+ Trim s c +:+ b.
Proof.
  unfold Trim.
  destruct (TrimLeftByte_split s) as (a & Ha & _).
  destruct (TrimLeftByte_split (String.rev (TrimLeftByte s c)))
    as (b & Hb & _).
  exists a, (String.rev b). rewrite Ha at 1. f_equal.
  rewrite <- str_rev_app, <- Hb. by rewrite str_rev_involutive.
Qed.

Lemma Trim_last (s : string) : ¬ ends_with (Trim s c) (String c "").
Proof.
  unfold Trim. intros H%begins_with_rev. rewrite str_rev_involutive in H.
  by apply TrimLeftByte_head in H.
Qed.

Lemma Trim_head (s : string) : ¬ begins_with (Trim s c) (String c "").
Proof.
  unfold Trim. intros [r Hr].
  destruct (TrimLeftByte_split (String.rev (TrimLeftByte s c)))
    as (b & Hb & _).
  apply (TrimLeftByte_head s). 
  rewrite <- (str_rev_involutive (TrimLeftByte s c)), Hb, str_rev_app, Hr.
  exists (r +:+ String.rev b). by rewrite !str_app_cons.
Qed.

Lemma Trim_id (s : string) :
  ¬ begins_with s (String c "") → ¬ ends_with s (String c "") →
  Trim s c = s.
Proof.
  intros Hb He. unfold Trim. rewrite (TrimLeftByte_id s Hb).
  rewrite TrimLeftByte_id; [apply str_rev_involutive|].
  intros H. apply He. by apply begins_with_rev.
Qed.

End TrimFacts.

(** ** Texts of words and single separators *)

(** Bytes of the class [word] and single bytes [sep] only; [after_sep] tells
    that the byte before the text is a separator. *)
Fixpoint separated (word : ascii → bool) (sep : ascii) (after_sep : bool)
    (s : string) : bool :=
  match s with
  | EmptyString => true
  | String c r =>
      if word c then separated word sep false r
      else Ascii.eqb c sep && negb after_sep && separated word sep true r
  end.

Section SeparatedFacts.

Variable word : ascii → bool.
Variable sep : ascii.
Hypothesis word_sep : word sep = false.

Lemma separated_weaken (b : bool) (s : string) :
  separated word sep b s = true → separated word sep false s = true.
Proof.
  destruct s as [|c s]; [done|]. cbn.
  destruct (word c); [done|].
  by destruct b, (Ascii.eqb c sep).
Qed.

Lemma separated_app_r (b : bool) (a s : string) :
  separated word sep b (a +:+ s) = true → separated word sep false s = true.
Proof.
  revert b. induction a as [|c a IH]; intros b.
  - apply separated_weaken.
  - rewrite str_app_cons. cbn [separated].
    destruct (word c); [apply IH|].
    intros [_ H]%andb_true_iff. by apply IH in H.
Qed.

Lemma separated_app_l (b : bool) (s z : string) :
  separated word sep b (s +:+ z) = true → separated word sep b s = true.
Proof.
  revert b. induction s as [|c s IH]; intros b; [done|].
  rewrite str_app_cons. cbn [separated].
  destruct (word c); [apply IH|].
  intros [-> H]%andb_true_iff. by rewrite (IH _ H).
Qed.

Lemma separated_bytes (b : bool) (s : string) :
  separated word sep b s = true →
  Forall (λ c, word c = true ∨ c = sep) (list_ascii_of_string s).
Proof.
  revert b. induction s as [|c s IH]; intros b; [constructor|].
  cbn [separated list_ascii_of_string].
  destruct (word c) eqn:Hc.
  - intros H. constructor; [by left|by apply IH in H].
  - intros [[Hh%Ascii.eqb_eq _]%andb_true_iff H]%andb_true_iff.
    constructor; [by right|by apply IH in H].
Qed.

Lemma separated_no_double (b : bool) (s : string) :
  separated word sep b s = true →
  ¬ contains s (String sep (String sep "")).
Proof using word_sep.
  intros Hs (x & y & ->). apply separated_app_r in Hs.
  rewrite !str_app_cons in Hs. cbn in Hs.
  rewrite word_sep, Ascii.eqb_refl in Hs. done.
Qed.

End SeparatedFacts.

(** ** The anchors [generateID] makes *)

(** A byte of an anchor: a lower-case letter, a digit or a hyphen. *)
Definition id_byte (c : ascii) : Prop :=
  Regexp.is_lower_alnum c = true ∨ c = "-"%char.

(** Letters, digits and single hyphens. *)
Definition hyphenated : bool → string → bool :=
  separated Regexp.is_lower_alnum "-".

Section HyphenFacts.

Lemma hyphenate_go_hyphenated (in_run : bool) (s : string) :
  hyphenated in_run (Regexp.hyphenate_go in_run s) = true.
Proof.
  unfold hyphenated.
  revert in_run. induction s as [|c s IH]; intros in_run; [done|].
  cbn [Regexp.hyphenate_go].
  destruct (Regexp.is_lower_alnum c) eqn:Hc.
  - cbn [separated]. by rewrite Hc.
  - destruct in_run; [done|]. cbn [separated]. by rewrite IH.
Qed.

(** A hyphenated text has nothing left to hyphenate. *)
Lemma hyphenate_go_id (b : bool) (s : string) :
  hyphenated b s = true → Regexp.hyphenate_go b s = s.
Proof.
  unfold hyphenated.
  revert b. induction s as [|c s IH]; intros b; [done|].
  cbn [separated Regexp.hyphenate_go].
  destruct (Regexp.is_lower_alnum c).
  - intros H. by rewrite (IH _ H).
  - intros [[Hh%Ascii.eqb_eq Hb%negb_true_iff]%andb_true_iff H]%andb_true_iff.
    subst b c. by rewrite (IH _ H).
Qed.

(** What [generateID] returns is hyphenated and has no hyphen at either
    end. *)
Lemma generateID_hyphenated (text : string) :
  hyphenated false (generateID text) = true
  ∧ ¬ begins_with (generateID text) "-"
  ∧ ¬ ends_with (generateID text) "-".
Proof.
  unfold generateID. set (h := Regexp.hyphenate _).
  assert (Hh : hyphenated false h = true) by apply hyphenate_go_hyphenated.
  destruct (Trim_split "-" h) as (a & b & Hab).
  split; [|split; [apply Trim_head|apply Trim_last]].
  rewrite Hab in Hh. apply separated_app_r in Hh.
  by apply separated_app_l in Hh.
Qed.

End HyphenFacts.

(** X1. Every anchor [generateID] returns is made of lower-case letters,
    digits and hyphens only, neither begins nor ends with a hyphen and has
    no two hyphens in a row. *)
Theorem generateID_shape (text : string) :
  Forall id_byte (list_ascii_of_string (generateID text))
  ∧ ¬ begins_with (generateID text) "-"
  ∧ ¬ ends_with (generateID text) "-"
  ∧ ¬ contains (generateID text) "--".
Proof.
  destruct (generateID_hyphenated text) as (Hh & Hb & He).
  split; [by apply separated_bytes in Hh|].
  split; [done|]. split; [done|].
  by apply separated_no_double in Hh.
Qed.

Definition id_byteb (c : ascii) : bool :=
  Regexp.is_lower_alnum c || Ascii.eqb c "-".

Section AnchorFacts.

Lemma id_byteb_spec (c : ascii) : id_byteb c = true ↔ id_byte c.
Proof.
  unfold id_byteb, id_byte. rewrite orb_true_iff, Ascii.eqb_eq. tauto.
Qed.

Lemma id_bytes_forallb (s : string) :
  Forall id_byte (list_ascii_of_string s) →
  forallb id_byteb (list_ascii_of_string s) = true.
Proof.
  intros H. apply forallb_forall. intros c Hc%list_elem_of_In.
  apply id_byteb_spec. by eapply Forall_forall in H.
Qed.

(** A text of anchor bytes does not begin with [p] when [p] has another
    byte. *)
Lemma id_bytes_no_prefix (s p : string) :
  Forall id_byte (list_ascii_of_string s) →
  forallb id_byteb (list_ascii_of_string p) = false →
  HasPrefix s p = false.
Proof.
  intros Hs Hp. destruct (HasPrefix s p) eqn:Hsp; [|done].
  apply HasPrefix_spec in Hsp as [r ->]. rewrite s2l_app in Hs.
  apply Forall_app in Hs as [Hs _]. apply id_bytes_forallb in Hs.
  congruence.
Qed.

Lemma id_bytes_no_suffix (s p : string) :
  Forall id_byte (list_ascii_of_string s) →
  forallb id_byteb (list_ascii_of_string p) = false →
  HasSuffix s p = false.
Proof.
  intros Hs Hp. destruct (HasSuffix s p) eqn:Hsp; [|done].
  apply HasSuffix_spec in Hsp as [r ->]. rewrite s2l_app in Hs.
  apply Forall_app in Hs as [_ Hs]. apply id_bytes_forallb in Hs.
  congruence.
Qed.

Lemma find_none_forallb {A : Type} (f : A → bool) (l : list A) :
  forallb (λ x, negb (f x)) l = true → List.find f l = None.
Proof.
  induction l as [|x l IH]; [done|]. cbn.
  intros [Hx Hl]%andb_true_iff. apply negb_true_iff in Hx.
  rewrite Hx. by apply IH.
Qed.

Lemma spaces_not_ids :
  forallb (λ p, negb (forallb id_byteb (list_ascii_of_string p))) spaces
  = true.
Proof. by vm_compute. Qed.

Lemma id_bytes_space_width (s : string) :
  Forall id_byte (list_ascii_of_string s) →
  space_width s = 0 ∧ space_width_end s = 0.
Proof.
  intros Hs. unfold space_width, space_width_end.
  rewrite !find_none_forallb; [done| |].
  - apply forallb_forall. intros p Hp.
    pose proof (proj1 (forallb_forall _ _) spaces_not_ids p Hp) as Hn.
    apply negb_true_iff in Hn. by rewrite id_bytes_no_suffix.
  - apply forallb_forall. intros p Hp.
    pose proof (proj1 (forallb_forall _ _) spaces_not_ids p Hp) as Hn.
    apply negb_true_iff in Hn. by rewrite id_bytes_no_prefix.
Qed.

Lemma id_bytes_TrimSpace (s : string) :
  Forall id_byte (list_ascii_of_string s) → TrimSpace s = s.
Proof.
  intros Hs. destruct (id_bytes_space_width s Hs) as [Hl Hr].
  unfold TrimSpace, TrimLeftSpace.
  assert (TrimLeftSpace_go 0 s = s) as ->.
  { destruct s as [|c r]; [done|]. cbn [TrimLeftSpace_go]. by rewrite Hl. }
  unfold TrimRightSpace. destruct (String.length s); [done|].
  cbn [TrimRightSpace_go]. by rewrite Hr.
Qed.

Lemma id_byte_lower (c : ascii) : id_byte c → lower_byte c = c.
Proof.
  unfold id_byte, lower_byte, is_upper, Regexp.is_lower_alnum.
  intros [H| ->]; [|done].
  destruct (65 <=? nat_of_ascii c) eqn:H1; [|done].
  destruct (nat_of_ascii c <=? 90) eqn:H2; [|done].
  apply Nat.leb_le in H1, H2.
  apply orb_true_iff in H as [H|H]; apply andb_true_iff in H as [H3 H4];
    apply Nat.leb_le in H3, H4; lia.
Qed.

Lemma id_bytes_ToLower (s : string) :
  Forall id_byte (list_ascii_of_string s) → ToLower s = s.
Proof.
  induction s as [|c s IH]; [done|]. intros Hs.
  cbn [ToLower].
  rewrite !id_bytes_no_prefix by (done || by vm_compute).
  cbn [list_ascii_of_string] in Hs. apply Forall_cons in Hs as [Hc Hs].
  by rewrite (id_byte_lower c Hc), (IH Hs).
Qed.

Lemma id_bytes_strip_tags (fuel : nat) (s : string) :
  Forall id_byte (list_ascii_of_string s) → Regexp.strip_tags_go fuel s = s.
Proof.
  revert s. induction fuel as [|fuel IH]; intros s Hs; [done|].
  destruct s as [|c s]; [done|]. cbn [Regexp.strip_tags_go].
  cbn [list_ascii_of_string] in Hs. apply Forall_cons in Hs as [Hc Hs].
  destruct (Ascii.eqb_spec c "<") as [->|_].
  - destruct Hc as [Hc|Hc]; by vm_compute in Hc.
  - by rewrite (IH s Hs).
Qed.

End AnchorFacts.

(** X2. An anchor is its own anchor: [generateID] applied to what it
    returned returns it again. *)
Theorem generateID_idempotent (text : string) :
  generateID (generateID text) = generateID text.
Proof.
  set (o := generateID text).
  pose proof (generateID_hyphenated text) as Hh. fold o in Hh.
  destruct Hh as (Hh & Hb & He).
  pose proof (separated_bytes _ _ _ _ Hh) as Hbytes.
  unfold generateID at 1. unfold Regexp.strip_tags.
  rewrite (id_bytes_strip_tags _ o Hbytes), (id_bytes_ToLower o Hbytes),
    (id_bytes_TrimSpace o Hbytes).
  unfold Regexp.hyphenate. rewrite (hyphenate_go_id _ o Hh).
  by apply Trim_id.
Qed.

(** ** [strings.TrimSpace] *)

Section TrimSpaceFacts.

Lemma spaces_nonempty :
  forallb (λ p, negb (String.eqb p "")) spaces = true.
Proof. by vm_compute. Qed.

Lemma find_Some_elem {A : Type} (f : A → bool) (l : list A) (x : A) :
  List.find f l = Some x → f x = true ∧ In x l.
Proof.
  induction l as [|y l IH]; [done|]. cbn.
  destruct (f y) eqn:Hy.
  - intros [= ->]. by split; [|left].
  - intros [H1 H2]%IH. by split; [|right].
Qed.

Lemma find_None_all {A : Type} (f : A → bool) (l : list A) (x : A) :
  List.find f l = None → In x l → f x = false.
Proof.
  induction l as [|y l IH]; [done|]. cbn.
  destruct (f y) eqn:Hy; [done|].
  intros Hn [->|Hin]; [done|by apply IH].
Qed.

(** A width of [0] says that no white-space rune is there. *)
Lemma space_width_0 (s p : string) :
  space_width s = 0 → In p spaces → ¬ begins_with s p.
Proof.
  unfold space_width. intros Hw Hp Hb%HasPrefix_spec.
  destruct (List.find _ spaces) as [q|] eqn:Hf.
  - apply find_Some_elem in Hf as [_ Hq].
    pose proof (proj1 (forallb_forall _ _) spaces_nonempty q Hq) as Hne.
    destruct q; [done|done].
  - by rewrite (find_None_all _ _ p Hf Hp) in Hb.
Qed.

Lemma space_width_end_0 (s p : string) :
  space_width_end s = 0 → In p spaces → ¬ ends_with s p.
Proof.
  unfold space_width_end. intros Hw Hp Hb%HasSuffix_spec.
  destruct (List.find _ spaces) as [q|] eqn:Hf.
  - apply find_Some_elem in Hf as [_ Hq].
    pose proof (proj1 (forallb_forall _ _) spaces_nonempty q Hq) as Hne.
    destruct q; [done|done].
  - by rewrite (find_None_all _ _ p Hf Hp) in Hb.
Qed.

Lemma space_width_end_bound (s : string) :
  space_width_end s ≤ String.length s.
Proof.
  unfold space_width_end.
  destruct (List.find _ spaces) as [q|] eqn:Hf; [|lia].
  apply find_Some_elem in Hf as [Hq _]. unfold HasSuffix in Hq.
  apply andb_true_iff in Hq as [Hq _]. by apply Nat.leb_le in Hq.
Qed.

Lemma TrimLeftSpace_go_suffix (skip : nat) (s : string) :
  ∃ a, s = a +:+ TrimLeftSpace_go skip s.
Proof.
  revert skip. induction s as [|c s IH]; intros skip.
  - exists "". by destruct skip.
  - destruct skip as [|k]; cbn [TrimLeftSpace_go].
    + destruct (space_width (String c s)) as [|k]; [by exists ""|].
      destruct (IH k) as [a Ha]. exists (String c a).
      by rewrite str_app_cons, <- Ha.
    + destruct (IH k) as [a Ha]. exists (String c a).
      by rewrite str_app_cons, <- Ha.
Qed.

Lemma TrimLeftSpace_go_width (skip : nat) (s : string) :
  space_width (TrimLeftSpace_go skip s) = 0.
Proof.
  revert skip. induction s as [|c s IH]; intros skip.
  - by destruct skip.
  - destruct skip as [|k]; cbn [TrimLeftSpace_go]; [|apply IH].
    destruct (space_width (String c s)) as [|k] eqn:Hw; [done|apply IH].
Qed.

Lemma TrimRightSpace_go_prefix (fuel : nat) (s : string) :
  ∃ b, s = TrimRightSpace_go fuel s +:+ b.
Proof.
  revert s. induction fuel as [|fuel IH]; intros s.
  - exists "". by rewrite str_app_nil_r.
  - cbn [TrimRightSpace_go].
    destruct (space_width_end s) as [|w]; [exists ""; by rewrite str_app_nil_r|].
    destruct (IH (take (String.length s - S w) s)) as [b Hb].
    exists (b +:+ drop (String.length s - S w) s).
    rewrite <- str_app_assoc, <- Hb. by rewrite str_take_drop.
Qed.

Lemma TrimRightSpace_go_width (fuel : nat) (s : string) :
  String.length s ≤ fuel →
  space_width_end (TrimRightSpace_go fuel s) = 0.
Proof.
  revert s. induction fuel as [|fuel IH]; intros s Hlen.
  - destruct s; [done|cbn in Hlen; lia].
  - cbn [TrimRightSpace_go].
    destruct (space_width_end s) as [|w] eqn:Hw; [done|].
    apply IH. pose proof (space_width_end_bound s).
    rewrite str_length_take by lia. lia.
Qed.

(** What [TrimSpace] returns is a part of its argument. *)
Lemma TrimSpace_split (s : string) : ∃ a b, s = a +:+ TrimSpace s +:+ b.
Proof.
  unfold TrimSpace, TrimLeftSpace, TrimRightSpace.
  destruct (TrimLeftSpace_go_suffix 0 s) as [a Ha].
  destruct (TrimRightSpace_go_prefix
              (String.length (TrimLeftSpace_go 0 s)) (TrimLeftSpace_go 0 s))
    as [b Hb].
  exists a, b. by rewrite <- Hb.
Qed.

(** It neither begins nor ends with a white-space rune. *)
Lemma TrimSpace_ends (s p : string) :
  In p spaces →
  ¬ begins_with (TrimSpace s) p ∧ ¬ ends_with (TrimSpace s) p.
Proof.
  intros Hp. unfold TrimSpace, TrimLeftSpace, TrimRightSpace.
  set (t := TrimLeftSpace_go 0 s). split.
  - destruct (TrimRightSpace_go_prefix (String.length t) t) as [b Hb].
    intros [r Hr]. apply (space_width_0 t p); [apply TrimLeftSpace_go_width|done|].
    exists (r +:+ b). by rewrite Hb, Hr, str_app_assoc.
  - apply space_width_end_0; [|done]. by apply TrimRightSpace_go_width.
Qed.

End TrimSpaceFacts.

(** ** [stripHTML] *)

(** No [<] of the text has a [>] after it. *)
Fixpoint tagless (s : string) : bool :=
  match s with
  | EmptyString => true
  | String c r =>
      (if Ascii.eqb c "<" then negb (bool_decide (Regexp.upto_gt r ≠ None))
       else true)
      && tagless r
  end.

(** Bytes other than the five of [\s], and single spaces. *)
Definition single_spaced : bool → string → bool :=
  separated (λ c, negb (Regexp.is_re_space c)) " ".

Section StripFacts.

Lemma upto_gt_suffix (s rest : string) :
  Regexp.upto_gt s = Some rest → String.length rest < String.length s.
Proof.
  induction s as [|c s IH]; [done|]. cbn.
  destruct (Ascii.eqb c ">"); [intros [= ->]; lia|].
  intros H%IH. lia.
Qed.

Lemma upto_gt_app (b c : string) : Regexp.upto_gt (b +:+ ">" +:+ c) ≠ None.
Proof.
  induction b as [|x b IH]; [done|]. rewrite str_app_cons. cbn.
  by destruct (Ascii.eqb x ">").
Qed.

Lemma strip_tags_go_no_gt (fuel : nat) (s : string) :
  Regexp.upto_gt s = None →
  Regexp.upto_gt (Regexp.strip_tags_go fuel s) = None.
Proof.
  revert s. induction fuel as [|fuel IH]; intros s; [done|].
  destruct s as [|c s]; [done|]. cbn [Regexp.strip_tags_go].
  cbn [Regexp.upto_gt]. destruct (Ascii.eqb c ">") eqn:Hc; [done|].
  intros Hs. rewrite Hs.
  destruct (Ascii.eqb c "<"); cbn [Regexp.upto_gt]; rewrite Hc; by apply IH.
Qed.

Lemma strip_tags_go_tagless (fuel : nat) (s : string) :
  String.length s ≤ fuel → tagless (Regexp.strip_tags_go fuel s) = true.
Proof.
  revert s. induction fuel as [|fuel IH]; intros s Hlen.
  { destruct s; [done|cbn in Hlen; lia]. }
  destruct s as [|c s]; [done|]. cbn in Hlen.
  cbn [Regexp.strip_tags_go].
  destruct (Ascii.eqb c "<") eqn:Hc.
  - destruct (Regexp.upto_gt s) as [rest|] eqn:Hgt.
    + apply IH. apply upto_gt_suffix in Hgt. lia.
    + cbn [tagless]. rewrite Hc, (strip_tags_go_no_gt fuel s Hgt).
      rewrite IH by lia. done.
  - cbn [tagless]. rewrite Hc. apply IH. lia.
Qed.

Lemma collapse_space_go_gt (b : bool) (s : string) :
  Regexp.upto_gt s = None →
  Regexp.upto_gt (Regexp.collapse_space_go b s) = None.
Proof.
  revert b. induction s as [|c s IH]; intros b; [done|].
  cbn [Regexp.upto_gt Regexp.collapse_space_go].
  destruct (Ascii.eqb c ">") eqn:Hc; [done|]. intros Hs.
  destruct (Regexp.is_re_space c).
  - destruct b; [by apply IH|]. cbn. by apply IH.
  - cbn [Regexp.upto_gt]. rewrite Hc. by apply IH.
Qed.

Lemma collapse_space_go_tagless (b : bool) (s : string) :
  tagless s = true → tagless (Regexp.collapse_space_go b s) = true.
Proof.
  revert b. induction s as [|c s IH]; intros b; [done|].
  cbn [tagless Regexp.collapse_space_go].
  intros [Hc Hs]%andb_true_iff.
  destruct (Regexp.is_re_space c) eqn:Hsp.
  - destruct b; [by apply IH|]. cbn [tagless]. cbn. by apply IH.
  - cbn [tagless]. rewrite (IH _ Hs), andb_true_r.
    destruct (Ascii.eqb c "<"); [|done].
    apply negb_true_iff, bool_decide_eq_false in Hc.
    apply negb_true_iff, bool_decide_eq_false.
    intros Hn. apply Hc. intros Hs0. apply Hn.
    by apply collapse_space_go_gt.
Qed.

Lemma tagless_spec (s : string) :
  tagless s = true → ¬ ∃ a b c, s = a +:+ "<" +:+ b +:+ ">" +:+ c.
Proof.
  intros Hs (a & b & c & ->). induction a as [|x a IH].
  - rewrite str_app_nil_l, str_app_cons in Hs. cbn [tagless] in Hs.
    apply andb_true_iff in Hs as [Hs _]. cbn in Hs.
    apply negb_true_iff, bool_decide_eq_false in Hs.
    apply Hs, upto_gt_app.
  - rewrite str_app_cons in Hs. cbn [tagless] in Hs.
    apply andb_true_iff in Hs as [_ Hs]. by apply IH.
Qed.

Lemma collapse_space_go_spaced (b : bool) (s : string) :
  single_spaced b (Regexp.collapse_space_go b s) = true.
Proof.
  unfold single_spaced.
  revert b. induction s as [|c s IH]; intros b; [done|].
  cbn [Regexp.collapse_space_go].
  destruct (Regexp.is_re_space c) eqn:Hc.
  - destruct b; [apply IH|]. cbn [separated]. cbn. apply IH.
  - cbn [separated]. rewrite Hc. cbn. apply IH.
Qed.

End StripFacts.

(** X3. The text [stripHTML] returns holds no complete tag, that is no [<]
    with a [>] after it; it has no tab, line feed, form feed or carriage
    return, no two spaces in a row and no space at either end. *)
Theorem stripHTML_plain (s : string) :
  let text := stripHTML s in
  (¬ ∃ a b c, text = a +:+ "<" +:+ b +:+ ">" +:+ c)
  ∧ Forall (λ c, c ∉ [ascii_of_nat 9; ascii_of_nat 10; ascii_of_nat 12;
                      ascii_of_nat 13])
      (list_ascii_of_string text)
  ∧ ¬ contains text "  "
  ∧ ¬ begins_with text " "
  ∧ ¬ ends_with text " ".
Proof.
  cbv zeta. unfold stripHTML.
  set (t := Regexp.collapse_space _).
  assert (Htag : tagless t = true).
  { apply collapse_space_go_tagless, strip_tags_go_tagless. lia. }
  assert (Hsp : single_spaced false t = true)
    by apply collapse_space_go_spaced.
  destruct (TrimSpace_split t) as (a & b & Hab).
  assert (Hsp' : single_spaced false (TrimSpace t) = true).
  { rewrite Hab in Hsp. apply separated_app_r in Hsp.
    by apply separated_app_l in Hsp. }
  split; [|split; [|split]].
  - intros (x & y & z & Hxyz). apply (tagless_spec t Htag).
    exists (a +:+ x), y, (z +:+ b). rewrite Hab at 1. rewrite Hxyz.
    by rewrite !str_app_assoc.
  - apply separated_bytes in Hsp'.
    eapply Forall_impl; [exact Hsp'|]. cbn beta.
    intros c Hc Hin. rewrite !elem_of_cons, elem_of_nil in Hin.
    destruct Hc as [Hc| ->].
    + destruct Hin as [->|[->|[->|[->|[]]]]]; by vm_compute in Hc.
    + destruct Hin as [H|[H|[H|[H|[]]]]]; by vm_compute in H.
  - by apply separated_no_double in Hsp'.
  - split; apply TrimSpace_ends; by vm_compute; tauto.
Qed.

(** ** The headings the indexer finds *)

Section HeadingTextFacts.

Variables open close : string.
Hypothesis close_nonempty : close ≠ "".

(** The group of [(.*?)] holds no newline and not the closing tag. *)
Lemma lazy_until_group (s inner rest : string) :
  Regexp.lazy_until close s = Some (inner, rest) →
  (newline ∉ list_ascii_of_string inner) ∧ ¬ contains inner close.
Proof using close_nonempty.
  revert inner rest. induction s as [|c s IH]; intros inner rest;
    rewrite lazy_until_unfold;
    destruct (HasPrefix _ close) eqn:Hp; try done.
  - intros [= <- <-]. split; [by intros ?%elem_of_nil|].
    intros (a & b & Hab). symmetry in Hab.
    apply str_app_inv_nil in Hab as [_ Hab].
    by apply str_app_inv_nil in Hab as [? _].
  - intros [= <- <-]. split; [by intros ?%elem_of_nil|].
    intros (a & b & Hab). symmetry in Hab.
    apply str_app_inv_nil in Hab as [_ Hab].
    by apply str_app_inv_nil in Hab as [? _].
  - destruct (Ascii.eqb_spec c "010") as [|Hc]; [done|].
    destruct (Regexp.lazy_until close s) as [[i r]|] eqn:Hl; [|done].
    intros [= <- <-]. destruct (IH _ _ eq_refl) as [Hnl Hcl].
    pose proof (lazy_until_sound close s i r Hl) as [-> _].
    split.
    + cbn. intros [?|?]%elem_of_cons; [by subst|done].
    + intros ([|x a] & b & Hab).
      * rewrite str_app_nil_l in Hab.
        assert (HasPrefix (String c (i +:+ close +:+ r)) close = true);
          [|congruence].
        apply HasPrefix_spec. exists (b +:+ close +:+ r).
        by rewrite <- str_app_cons, Hab, !str_app_assoc.
      * rewrite str_app_cons in Hab. injection Hab as -> ->.
        apply Hcl. by exists a, b.
Qed.

(** Every match the scan reports is a heading of the text, with such a
    group. *)
Lemma find_all_go_sound (fuel off : nat) (s : string) (m : nat * string) :
  m ∈ find_all_go open close fuel off s →
  contains s (open +:+ m.2 +:+ close)
  ∧ (newline ∉ list_ascii_of_string m.2)
  ∧ ¬ contains m.2 close.
Proof using close_nonempty.
  revert off s. induction fuel as [|fuel IH]; intros off s.
  { by intros ?%elem_of_nil. }
  cbn [find_all_go].
  destruct (Regexp.match_here open close s) as [[inner rest]|] eqn:Hmh.
  - pose proof (match_here_sound open close s inner rest Hmh) as [Hs _].
    intros [->|Hin]%elem_of_cons.
    + cbn [snd]. split.
      * exists "", rest. by rewrite Hs, str_app_nil_l, !str_app_assoc.
      * unfold Regexp.match_here in Hmh.
        destruct (HasPrefix s open); [|done].
        by apply lazy_until_group in Hmh.
    + destruct (IH _ _ Hin) as (Hc & Hn).
      split; [|done]. rewrite Hs.
      replace (open +:+ inner +:+ close +:+ rest)
        with ((open +:+ inner +:+ close) +:+ rest +:+ "")
        by (by rewrite str_app_nil_r, !str_app_assoc).
      by apply contains_app.
  - destruct s as [|c r]; [by intros ?%elem_of_nil|].
    intros Hin. destruct (IH _ _ Hin) as (Hc & Hn). split; [|done].
    replace (String c r) with (String c "" +:+ r +:+ "")
      by (by rewrite str_app_nil_r).
    by apply contains_app.
Qed.

(** A text without the opening tag, or without the closing one, has no
    match: the pass returns it as it is. *)
Lemma match_here_None (s : string) :
  ¬ contains s open ∨ ¬ contains s close →
  Regexp.match_here open close s = None.
Proof.
  intros Hno. unfold Regexp.match_here.
  destruct (HasPrefix s open) eqn:Hp; [|done].
  apply HasPrefix_spec in Hp as [r ->]. rewrite str_drop_app.
  destruct (Regexp.lazy_until close r) as [[inner rest]|] eqn:Hl; [|done].
  apply lazy_until_sound in Hl as [-> _]. destruct Hno as [Hno|Hno].
  - destruct Hno. exists "", (inner +:+ close +:+ rest). done.
  - destruct Hno. exists (open +:+ inner), rest.
    by rewrite !str_app_assoc.
Qed.

Lemma ReplaceAllStringFunc_go_no_match {St : Type}
    (repl : string → St → string * St) (fuel : nat) (s : string) (st : St) :
  ¬ contains s open ∨ ¬ contains s close →
  Regexp.ReplaceAllStringFunc_go open close repl fuel s st = (s, st).
Proof.
  revert s. induction fuel as [|fuel IH]; intros s Hno; [done|].
  cbn [Regexp.ReplaceAllStringFunc_go].
  rewrite (match_here_None s Hno).
  destruct s as [|c r]; [done|].
  rewrite IH; [done|].
  destruct Hno as [Hno|Hno]; [left|right]; intros (a & b & ->);
    apply Hno; by exists (String c a), b.
Qed.

End HeadingTextFacts.

(** X4. Every entry of the outline comes from a heading: a level-2 entry
    from an [<h2>] heading of the body, a level-3 entry from an [<h3>]
    heading of the body as the first pass left it.  Its text is the text
    between the tags, which holds no newline and not the closing tag, and
    its anchor is [generateID] of that text. *)
Theorem processContentWithTOC_entries (body : string) (e : TOCItem) :
  e ∈ (processContentWithTOC body).2 →
  let body2 := (heading_pass 2 "h2" body []).1 in
  ID e = generateID (Text e)
  ∧ (newline ∉ list_ascii_of_string (Text e))
  ∧ ((Level e = 2
      ∧ contains body ("<h2>" +:+ Text e +:+ "</h2>")
      ∧ ¬ contains (Text e) "</h2>")
     ∨ (Level e = 3
        ∧ contains body2 ("<h3>" +:+ Text e +:+ "</h3>")
        ∧ ¬ contains (Text e) "</h3>")).
Proof.
  intros He body2.
  assert ((processContentWithTOC body).2
          = ((entry 2 ∘ snd) <$> headings "h2" body)
            ++ ((entry 3 ∘ snd) <$> headings "h3" body2)) as Htoc.
  { unfold processContentWithTOC, body2.
    pose proof (heading_pass_toc 2 "h2" body []) as H2.
    destruct (heading_pass 2 "h2" body []) as [c2 t2]. cbn in H2. subst t2.
    pose proof (heading_pass_toc 3 "h3" c2
                  ((entry 2 ∘ snd) <$> headings "h2" body)) as H3.
    destruct (heading_pass 3 "h3" c2 _) as [c3 t3]. exact H3. }
  rewrite Htoc in He.
  apply elem_of_app in He as [He|He];
    apply list_elem_of_fmap in He as (m & -> & Hm);
    apply find_all_go_sound in Hm as (Hc & Hn & Hcl); try done.
  - split; [done|]. split; [done|]. by left.
  - split; [done|]. split; [done|]. by right.
Qed.

Lemma processContentWithTOC_entries_witness :
  let body := "<h2>Getting Started</h2><p>Text.</p><h3>Install it</h3>" in
  let e := {| ID := "install-it"; Text := "Install it"; Level := 3 |} in
  ID e = generateID (Text e)
  ∧ (newline ∉ list_ascii_of_string (Text e))
  ∧ ((Level e = 2
      ∧ contains body ("<h2>" +:+ Text e +:+ "</h2>")
      ∧ ¬ contains (Text e) "</h2>")
     ∨ (Level e = 3
        ∧ contains (heading_pass 2 "h2" body []).1
            ("<h3>" +:+ Text e +:+ "</h3>")
        ∧ ¬ contains (Text e) "</h3>")).
Proof.
  apply (processContentWithTOC_entries
           "<h2>Getting Started</h2><p>Text.</p><h3>Install it</h3>"
           {| ID := "install-it"; Text := "Install it"; Level := 3 |}).
  vm_compute. repeat constructor.
Defined.

(** X5. A body that lacks the opening or the closing tag of each heading
    level is returned as it is, with an empty outline. *)
Theorem processContentWithTOC_no_heading (body : string) :
  ¬ contains body "<h2>" ∨ ¬ contains body "</h2>" →
  ¬ contains body "<h3>" ∨ ¬ contains body "</h3>" →
  processContentWithTOC body = (body, []).
Proof.
  intros H2 H3. unfold processContentWithTOC, heading_pass.
  unfold Regexp.ReplaceAllStringFunc.
  rewrite (ReplaceAllStringFunc_go_no_match "<h2>" "</h2>") by done.
  by rewrite (ReplaceAllStringFunc_go_no_match "<h3>" "</h3>") by done.
Qed.

Lemma processContentWithTOC_no_heading_witness :
  processContentWithTOC ("<p>An <h2>unclosed heading</p>" +:+ nl
                         +:+ "<h3>split" +:+ nl +:+ "heading")
  = ("<p>An <h2>unclosed heading</p>" +:+ nl
     +:+ "<h3>split" +:+ nl +:+ "heading", []).
Proof.
  apply processContentWithTOC_no_heading; right;
    intros H%Contains_spec; by vm_compute in H.
Defined.

(** ** The anchors of the outline in the rewritten body *)

(** The opening tag the indexer writes for a heading. *)
Definition anchor_tag (tag id : string) : string :=
  "<" +:+ tag +:+ " id=" +:+ dquote +:+ id +:+ dquote +:+ ">".

Section AnchorTagFacts.

Lemma contains_s2l (s w : string) :
  contains s w ↔
  ∃ x y, list_ascii_of_string s = x ++ list_ascii_of_string w ++ y.
Proof.
  split.
  - intros (a & b & ->). exists (list_ascii_of_string a), (list_ascii_of_string b).
    by rewrite !s2l_app.
  - intros (x & y & H). exists (string_of_list_ascii x), (string_of_list_ascii y).
    apply s2l_inj.
    by rewrite !s2l_app, !list_ascii_of_string_of_list_ascii.
Qed.

Lemma contains_l (s t w : string) : contains s w → contains (s +:+ t) w.
Proof.
  intros (a & b & ->). exists a, (b +:+ t). by rewrite !str_app_assoc.
Qed.

Lemma contains_r (s t w : string) : contains t w → contains (s +:+ t) w.
Proof.
  intros (a & b & ->). exists (s +:+ a), b. by rewrite !str_app_assoc.
Qed.

(** One pass puts the anchor of each entry it adds into the text it
    returns. *)
Lemma heading_pass_anchors (level : nat) (tag : string) (fuel : nat)
    (s : string) (toc : list TOCItem) (e : TOCItem) :
  let r := Regexp.ReplaceAllStringFunc_go
             ("<" +:+ tag +:+ ">") ("</" +:+ tag +:+ ">")
             (heading_callback level tag) fuel s toc in
  e ∈ r.2 → e ∈ toc ∨ contains r.1 (anchor_tag tag (ID e)).
Proof.
  cbv zeta. revert s toc. induction fuel as [|fuel IH]; intros s toc.
  { cbn. by left. }
  cbn [Regexp.ReplaceAllStringFunc_go].
  destruct (Regexp.match_here _ _ s) as [[inner rest]|] eqn:Hmh.
  - unfold heading_callback at 1 3.
    rewrite (FindStringSubmatch1_of_match _ _ _ _ _ Hmh). cbn [default].
    specialize (IH rest (toc ++ [{| ID := generateID inner; Text := inner;
                                    Level := level |}])).
    destruct (Regexp.ReplaceAllStringFunc_go _ _ _ fuel rest _)
      as [tail st2].
    cbn [fst snd] in IH |- *. intros He.
    destruct (IH He) as [[Hin|Hin%list_elem_of_singleton]%elem_of_app|Hin].
    + by left.
    + right. subst e. cbn [ID].
      exists "", (inner +:+ "</" +:+ tag +:+ ">" +:+ tail).
      unfold anchor_tag. by rewrite str_app_nil_l, !str_app_assoc.
    + right. by apply contains_r.
  - destruct s as [|c r]; [by left|].
    specialize (IH r toc).
    destruct (Regexp.ReplaceAllStringFunc_go _ _ _ fuel r _) as [tail st1].
    cbn [fst snd] in IH |- *. intros He.
    destruct (IH He) as [Hin|Hin]; [by left|right].
    replace (String c tail) with (String c "" +:+ tail) by done.
    by apply contains_r.
Qed.

End AnchorTagFacts.

(** A text that reads as a tag: [<], bytes other than [<] and [>], [>]. *)
Definition tag_like (w : list ascii) : Prop :=
  ∃ u, w = "<"%char :: u ++ [">"%char]
       ∧ Forall (λ c, c ≠ "<"%char ∧ c ≠ ">"%char) u.

Section TagLikeFacts.

Variable w : list ascii.
Hypothesis w_tag : tag_like w.

Lemma tag_like_length : 2 ≤ length w.
Proof using w_tag.
  destruct w_tag as (u & -> & _). cbn. rewrite length_app. cbn. lia.
Qed.

Lemma tag_like_first : w !! 0 = Some "<"%char.
Proof using w_tag. by destruct w_tag as (u & -> & _). Qed.

Lemma tag_like_last : w !! (length w - 1) = Some ">"%char.
Proof using w_tag.
  destruct w_tag as (u & -> & _).
  replace (length ("<"%char :: u ++ [">"%char]) - 1) with (S (length u))
    by (cbn; rewrite length_app; cbn; lia).
  change (("<"%char :: u ++ [">"%char]) !! S (length u))
    with ((u ++ [">"%char]) !! length u).
  by rewrite lookup_app_r, Nat.sub_diag by lia.
Qed.

Lemma tag_like_no_lt (i : nat) : 0 < i → w !! i ≠ Some "<"%char.
Proof using w_tag.
  destruct w_tag as (u & -> & Hu). intros Hi.
  destruct i as [|i]; [lia|]. cbn. intros Hl.
  apply lookup_app_Some in Hl as [Hl|[_ Hl]].
  - eapply Forall_lookup_1 in Hu; [|exact Hl]. by destruct Hu.
  - destruct (i - length u) as [|[|]]; by cbn in Hl.
Qed.

Lemma tag_like_no_gt (i : nat) : i < length w - 1 → w !! i ≠ Some ">"%char.
Proof using w_tag.
  destruct w_tag as (u & -> & Hu). cbn. rewrite length_app. cbn.
  intros Hi. destruct i as [|i]; [done|]. cbn. intros Hl.
  apply lookup_app_Some in Hl as [Hl|[Hge Hl]].
  - eapply Forall_lookup_1 in Hu; [|exact Hl]. by destruct Hu.
  - lia.
Qed.

End TagLikeFacts.

(** The second pass keeps every tag of the text other than [<h3>] and
    [</h3>]: it only writes into [<h3>] tags. *)
Section SecondPass.

Variable w : string.
Hypothesis w_tag : tag_like (list_ascii_of_string w).
Hypothesis w_open : w ≠ "<h3>".
Hypothesis w_close : w ≠ "</h3>".

Let pass := Regexp.ReplaceAllStringFunc_go "<h3>" "</h3>"
              (heading_callback 3 "h3").

Lemma occurs_lookup {A : Type} (x v y : list A) (i : nat) :
  i < length v → (x ++ v ++ y) !! (length x + i) = v !! i.
Proof.
  intros Hi. rewrite lookup_app_r by lia.
  replace (length x + i - length x) with i by lia.
  by rewrite lookup_app_l.
Qed.

(** Bytes other than [<] are copied. *)
Lemma pass_copy (v : list ascii) (b : string) (fuel : nat)
    (toc : list TOCItem) :
  Forall (λ c, c ≠ "<"%char) v →
  String.length (string_of_list_ascii v +:+ b) < fuel →
  ∃ fuel', String.length b < fuel'
    ∧ pass fuel (string_of_list_ascii v +:+ b) toc
      = (string_of_list_ascii v +:+ (pass fuel' b toc).1,
         (pass fuel' b toc).2).
Proof.
  intros Hv. revert fuel. induction Hv as [|c v Hc Hv IH]; intros fuel Hlen.
  - exists fuel. split; [done|]. cbn [string_of_list_ascii].
    rewrite !str_app_nil_l. by destruct (pass fuel b toc).
  - cbn [string_of_list_ascii] in Hlen |- *. rewrite str_app_cons in Hlen |- *.
    destruct fuel as [|fuel]; [lia|]. cbn in Hlen.
    destruct (IH fuel ltac:(lia)) as (fuel' & Hf & Heq).
    exists fuel'. split; [done|].
    unfold pass at 1. cbn [Regexp.ReplaceAllStringFunc_go].
    assert (Regexp.match_here "<h3>" "</h3>"
              (String c (string_of_list_ascii v +:+ b)) = None) as ->.
    { unfold Regexp.match_here.
      destruct (HasPrefix _ "<h3>") eqn:Hp; [|done].
      apply HasPrefix_spec in Hp as [r Hr].
      rewrite str_app_cons in Hr. congruence. }
    fold pass. rewrite Heq. by rewrite str_app_cons.
Qed.

Lemma pass_keeps_tag (fuel : nat) (s : string) (toc : list TOCItem) :
  String.length s < fuel → contains s w → contains (pass fuel s toc).1 w.
Proof using w_tag w_open w_close.
  set (W := list_ascii_of_string w) in *.
  pose proof (tag_like_length W w_tag) as Hm.
  revert s toc. induction fuel as [|fuel IH]; intros s toc Hlen Hc; [lia|].
  unfold pass. cbn [Regexp.ReplaceAllStringFunc_go].
  destruct (Regexp.match_here "<h3>" "</h3>" s) as [[inner rest]|] eqn:Hmh.
  - (* a heading starts here *)
    pose proof (match_here_sound _ _ s inner rest Hmh) as [Hs _].
    unfold heading_callback at 1.
    change ("<" +:+ "h3" +:+ ">") with "<h3>".
    change ("</" +:+ "h3" +:+ ">") with "</h3>".
    rewrite (FindStringSubmatch1_of_match _ _ _ _ _ Hmh). cbn [default].
    unfold id. fold pass.
    assert (Hrest : String.length rest < fuel).
    { rewrite Hs, !str_length_app in Hlen. cbn in Hlen. lia. }
    pose proof (IH rest (toc ++ [{| ID := generateID inner; Text := inner;
                                    Level := 3 |}]) Hrest) as IHrest.
    destruct (pass fuel rest _) as [tail st2]. cbn [fst snd] in IHrest |- *.
    apply contains_s2l in Hc as (x & y & HL).
    rewrite Hs, !s2l_app in HL. fold W in HL.
    set (li := list_ascii_of_string inner) in *.
    set (lr := list_ascii_of_string rest) in *.
    change (list_ascii_of_string "<h3>")
      with ["<"; "h"; "3"; ">"]%char in HL.
    change (list_ascii_of_string "</h3>")
      with ["<"; "/"; "h"; "3"; ">"]%char in HL.
    set (lo := ["<"; "h"; "3"; ">"]%char) in *.
    set (lc := ["<"; "/"; "h"; "3"; ">"]%char) in *.
    set (k := length x). set (n := length li). set (m := length W) in *.
    assert (Hocc : ∀ i, i < m →
              (lo ++ li ++ lc ++ lr) !! (k + i) = W !! i).
    { intros i Hi. rewrite HL. by apply occurs_lookup. }
    assert (Hlo : ∀ p, p < 4 → (lo ++ li ++ lc ++ lr) !! p = lo !! p).
    { intros p Hp. by rewrite lookup_app_l by (cbn; lia). }
    assert (Hlc : ∀ p, p < 5 →
              (lo ++ li ++ lc ++ lr) !! (4 + n + p) = lc !! p).
    { intros p Hp. rewrite lookup_app_r by (cbn; lia).
      rewrite lookup_app_r by (cbn; fold n; lia).
      rewrite lookup_app_l by (cbn; fold n; lia).
      f_equal. cbn. fold n. lia. }
    pose proof (tag_like_first W w_tag) as Hfirst.
    pose proof (tag_like_last W w_tag) as Hlast. fold m in Hlast.
    destruct (decide (9 + n ≤ k)) as [Hk|Hk].
    { (* the tag lies after the heading *)
      apply contains_r, IHrest.
      apply contains_s2l. exists (skipn (9 + n) x), y. fold W lr.
      apply (f_equal (skipn (9 + n))) in HL.
      rewrite (drop_app_le x) in HL by (fold k; lia). rewrite <- HL.
      rewrite !(app_assoc _ _ lr).
      rewrite drop_app_length'; [done|].
      rewrite !length_app. cbn. fold n. lia. }
    destruct (decide (4 ≤ k ∧ k + m ≤ 4 + n)) as [[Hk1 Hk2]|Hk'].
    { (* the tag lies in the text of the heading *)
      apply contains_l. do 7 apply contains_r. apply contains_l.
      apply contains_s2l. exists (skipn 4 x), (firstn (n - (k - 4) - m) y).
      fold W li.
      assert (Hli : firstn n (skipn 4 (lo ++ li ++ lc ++ lr)) = li).
      { change (skipn 4 (lo ++ li ++ lc ++ lr)) with (li ++ lc ++ lr).
        apply take_app_length. }
      rewrite <- Hli, HL, (drop_app_le x) by (fold k; lia).
      rewrite take_app_ge by (rewrite length_skipn; fold k; lia).
      rewrite take_app_ge by (rewrite length_skipn; fold k m; lia).
      rewrite length_skipn. fold k m.
      by replace (n - (k - 4) - m) with (n - (k - 4) - m) by lia. }
    exfalso.
    destruct (decide (k < 4)) as [Hk4|Hk4].
    { (* it begins inside [<h3>] *)
      pose proof (Hocc 0 ltac:(lia)) as H0.
      rewrite Nat.add_0_r, Hlo, Hfirst in H0 by lia.
      destruct k as [|[|[|[|k]]]]; try done; try lia.
      destruct (decide (4 < m)).
      - pose proof (Hocc 3 ltac:(lia)) as H3. rewrite Hlo in H3 by lia.
        symmetry in H3. by apply (tag_like_no_gt W w_tag 3) in H3; [|lia].
      - destruct (decide (m = 4)) as [Hm4|].
        + apply w_open, s2l_inj. fold W.
          apply list_eq_same_length with 4; [done|done|].
          intros i a b Hi Ha Hb. pose proof (Hocc i ltac:(lia)) as Hi'.
          rewrite Hlo in Hi' by lia. cbn [Nat.add] in Hi'.
          change (list_ascii_of_string "<h3>") with lo in Hb. congruence.
        + pose proof (Hocc (m - 1) ltac:(lia)) as Hl.
          rewrite Hlo, Hlast in Hl by lia.
          assert (m = 2 ∨ m = 3) as [Hm'| Hm'] by lia;
            rewrite Hm' in Hl; by cbn in Hl. }
    destruct (decide (k < 4 + n)) as [Hkn|Hkn].
    { (* it runs from the heading text into [</h3>] *)
      pose proof (Hocc (4 + n - k) ltac:(lia)) as Hi.
      replace (k + (4 + n - k)) with (4 + n + 0) in Hi by lia.
      rewrite Hlc in Hi by lia. symmetry in Hi.
      by apply (tag_like_no_lt W w_tag) in Hi; [|lia]. }
    (* it begins inside [</h3>] *)
    pose proof (Hocc 0 ltac:(lia)) as H0.
    replace (k + 0) with (4 + n + (k - 4 - n)) in H0 by lia.
    rewrite Hlc, Hfirst in H0 by lia.
    destruct (k - 4 - n) as [|[|[|[|[|j]]]]] eqn:Hj; try done; try lia.
    assert (Hk0 : k = 4 + n) by lia.
    destruct (decide (5 < m)).
    + pose proof (Hocc 4 ltac:(lia)) as H4.
      rewrite Hk0, Hlc in H4 by lia. symmetry in H4.
      by apply (tag_like_no_gt W w_tag 4) in H4; [|lia].
    + destruct (decide (m = 5)) as [Hm5|].
      * apply w_close, s2l_inj. fold W.
        apply list_eq_same_length with 5; [done|done|].
        intros i a b Hi Ha Hb. pose proof (Hocc i ltac:(lia)) as Hi'.
        rewrite Hk0, Hlc in Hi' by lia.
        change (list_ascii_of_string "</h3>") with lc in Hb. congruence.
      * pose proof (Hocc (m - 1) ltac:(lia)) as Hl.
        rewrite Hk0, Hlc, Hlast in Hl by lia.
        assert (m = 2 ∨ m = 3 ∨ m = 4) as [Hm'|[Hm'|Hm']] by lia;
          rewrite Hm' in Hl; by cbn in Hl.
  - (* no heading starts here *)
    fold pass. apply contains_s2l in Hc as (x & y & HL). fold W in HL.
    destruct s as [|c r].
    { destruct x; cbn in HL; [|done]. destruct w_tag as (u & Hu & _).
      fold W in Hu. by rewrite Hu in HL. }
    cbn [list_ascii_of_string] in HL. cbn in Hlen.
    destruct x as [|c' x].
    + (* the tag begins the text *)
      destruct w_tag as (u & Hu & Hall). fold W in Hu.
      rewrite Hu in HL. cbn in HL. injection HL as -> Hr.
      assert (Hreq : r = string_of_list_ascii (u ++ [">"%char])
                         +:+ string_of_list_ascii y).
      { apply s2l_inj.
        by rewrite s2l_app, !list_ascii_of_string_of_list_ascii. }
      destruct (pass_copy (u ++ [">"%char]) (string_of_list_ascii y)
                  fuel toc) as (fuel' & _ & Hcopy).
      { apply Forall_app. split.
        - eapply Forall_impl; [exact Hall|]. by intros ? [? _].
        - by constructor. }
      { rewrite <- Hreq. lia. }
      rewrite Hreq, Hcopy. cbn [fst].
      exists "", (pass fuel' (string_of_list_ascii y) toc).1.
      rewrite str_app_nil_l, <- str_app_cons. f_equal.
      apply s2l_inj. fold W. rewrite Hu. cbn.
      by rewrite list_ascii_of_string_of_list_ascii.
    + (* the tag comes later *)
      cbn in HL. injection HL as <- Hr.
      pose proof (IH r toc ltac:(lia)) as IHr.
      destruct (pass fuel r toc) as [tail st1]. cbn [fst] in IHr |- *.
      replace (String c tail) with (String c "" +:+ tail) by done.
      apply contains_r, IHr, contains_s2l. by exists x, y.
Qed.

End SecondPass.

Lemma anchor_tag_like (tag id : string) :
  Forall (λ c, c ≠ "<"%char ∧ c ≠ ">"%char) (list_ascii_of_string tag) →
  Forall id_byte (list_ascii_of_string id) →
  tag_like (list_ascii_of_string (anchor_tag tag id)).
Proof.
  intros Htag Hid.
  exists (list_ascii_of_string (tag +:+ " id=" +:+ dquote +:+ id +:+ dquote)).
  split.
  - unfold anchor_tag. rewrite !s2l_app.
    change (list_ascii_of_string "<") with ["<"%char].
    change (list_ascii_of_string ">") with [">"%char].
    cbn [app]. f_equal. by rewrite <- !app_assoc.
  - rewrite !s2l_app, !Forall_app. split; [done|].
    split; [by repeat constructor|]. split; [by repeat constructor|].
    split; [|by repeat constructor].
    eapply Forall_impl; [exact Hid|]. cbn beta.
    intros c [Hc| ->]; [|done]. split; intros ->; by vm_compute in Hc.
Qed.

(** X6. Every entry of the outline has its target in the body that is
    returned: the body holds the opening tag of the entry's level with the
    entry's anchor as its [id]. *)
Theorem processContentWithTOC_anchors (body : string) (e : TOCItem) :
  e ∈ (processContentWithTOC body).2 →
  (Level e = 2
   ∧ contains (processContentWithTOC body).1 (anchor_tag "h2" (ID e)))
  ∨ (Level e = 3
     ∧ contains (processContentWithTOC body).1 (anchor_tag "h3" (ID e))).
Proof.
  unfold processContentWithTOC.
  pose proof (heading_pass_toc 2 "h2" body []) as H2.
  pose proof (heading_pass_anchors 2 "h2" (S (String.length body)) body [] e)
    as A2.
  fold (heading_pass 2 "h2" body []) in A2. cbv zeta in A2.
  change (Regexp.ReplaceAllStringFunc_go ("<" +:+ "h2" +:+ ">")
            ("</" +:+ "h2" +:+ ">") (heading_callback 2 "h2")
            (S (String.length body)) body [])
    with (heading_pass 2 "h2" body []) in A2.
  destruct (heading_pass 2 "h2" body []) as [c2 t2]. cbn [fst snd] in H2, A2.
  pose proof (heading_pass_toc 3 "h3" c2 t2) as H3.
  pose proof (heading_pass_anchors 3 "h3" (S (String.length c2)) c2 t2 e)
    as A3.
  cbv zeta in A3.
  pose proof (λ w Hw Ho Hc, pass_keeps_tag w Hw Ho Hc
                              (S (String.length c2)) c2 t2 (Nat.lt_succ_diag_r _))
    as K3.
  change (Regexp.ReplaceAllStringFunc_go ("<" +:+ "h3" +:+ ">")
            ("</" +:+ "h3" +:+ ">") (heading_callback 3 "h3")
            (S (String.length c2)) c2 t2)
    with (heading_pass 3 "h3" c2 t2) in A3.
  change (Regexp.ReplaceAllStringFunc_go "<h3>" "</h3>"
            (heading_callback 3 "h3") (S (String.length c2)) c2 t2)
    with (heading_pass 3 "h3" c2 t2) in K3.
  destruct (heading_pass 3 "h3" c2 t2) as [c3 t3].
  cbn [fst snd] in H3, A3, K3 |- *. subst t2 t3. cbn [app].
  intros [He|He]%elem_of_app.
  - left. pose proof He as He'.
    apply list_elem_of_fmap in He' as (m & -> & _).
    split; [done|]. destruct (A2 He) as [Hn|Hc]; [by apply elem_of_nil in Hn|].
    apply K3; [|done|done|exact Hc].
    apply anchor_tag_like; [by repeat constructor|].
    cbn [entry ID compose].
    destruct (generateID_hyphenated m.2) as (Hh & _).
    by apply separated_bytes in Hh.
  - right. pose proof He as He'.
    apply list_elem_of_fmap in He' as (m & -> & _).
    split; [done|].
    destruct (A3 (proj2 (elem_of_app _ _ _) (or_intror He))) as [Hin|Hc];
      [|done].
    by apply list_elem_of_fmap in Hin as (m' & [=] & _).
Qed.

Lemma processContentWithTOC_anchors_witness :
  let body := "<h2>Getting Started</h2><p>Text.</p><h3>Install it</h3>" in
  (2 = 2
   ∧ contains (processContentWithTOC body).1
       (anchor_tag "h2" "getting-started"))
  ∨ (2 = 3
     ∧ contains (processContentWithTOC body).1
         (anchor_tag "h3" "getting-started")).
Proof.
  apply (processContentWithTOC_anchors
           "<h2>Getting Started</h2><p>Text.</p><h3>Install it</h3>"
           {| ID := "getting-started"; Text := "Getting Started";
              Level := 2 |}).
  vm_compute. repeat constructor.
Defined.

(** ** Files as lines *)

Section LineFacts.

Variable sep : ascii.

Lemma Split_nonempty (s : string) : Split s sep ≠ [].
Proof.
  destruct s as [|c r]; [done|]. cbn.
  destruct (Ascii.eqb c sep); [done|]. by destruct (Split r sep).
Qed.

Lemma Join_cons (x : string) (l : list string) (s : string) :
  l ≠ [] → Join (x :: l) s = x +:+ s +:+ Join l s.
Proof. by destruct l. Qed.

(** Splitting a text into lines and joining the lines gives the text. *)
Lemma Join_Split (s : string) : Join (Split s sep) (String sep "") = s.
Proof.
  induction s as [|c r IH]; [done|]. cbn [Split].
  destruct (Ascii.eqb_spec c sep) as [->|Hne].
  - rewrite Join_cons by apply Split_nonempty. by rewrite IH.
  - pose proof (Split_nonempty r) as Hr.
    destruct (Split r sep) as [|x xs]; [done|].
    destruct xs as [|y xs].
    + cbn in IH |- *. by rewrite IH.
    + rewrite !Join_cons in IH |- * by done.
      by rewrite str_app_cons, IH.
Qed.

Lemma Split_line (l r : string) :
  sep ∉ list_ascii_of_string l →
  Split (l +:+ String sep r) sep = l :: Split r sep.
Proof.
  induction l as [|c l IH]; intros Hl.
  - rewrite str_app_nil_l. cbn. by rewrite Ascii.eqb_refl.
  - rewrite str_app_cons. cbn [Split].
    cbn [list_ascii_of_string] in Hl. apply not_elem_of_cons in Hl as [Hc Hl].
    destruct (Ascii.eqb_spec c sep) as [|_]; [done|]. by rewrite IH.
Qed.

(** A file written as lines and a body reads back as those lines and the
    lines of the body. *)
Lemma Split_Join_lines (lines : list string) (body : string) :
  Forall (λ l, sep ∉ list_ascii_of_string l) lines →
  Split (Join (lines ++ [body]) (String sep "")) sep
  = lines ++ Split body sep.
Proof.
  induction 1 as [|l lines Hl _ IH]; [done|].
  cbn [app]. rewrite Join_cons by (by destruct lines).
  rewrite str_app_cons, str_app_nil_l, Split_line by done. by rewrite IH.
Qed.

End LineFacts.

(** The metadata line of a key and a value. *)
Definition meta_line (key value : string) : string :=
  "<!-- " +:+ key +:+ ": " +:+ value +:+ " -->".

Section FileFacts.

Lemma extractContent_lines (meta : list string) (body : string) :
  Forall is_meta_line meta →
  Forall (λ l, ¬ is_meta_line l) (Split body newline) →
  extractContent (meta ++ Split body newline) = body.
Proof.
  intros Hmeta Hbody. unfold extractContent.
  rewrite extractContent_loop, filter_app. cbn [app].
  assert (filter (λ l, ¬ is_meta_line l) meta = []) as ->.
  { induction Hmeta as [|l meta Hl _ IH]; [done|].
    rewrite filter_cons, decide_False by tauto. exact IH. }
  assert (filter (λ l, ¬ is_meta_line l) (Split body newline)
          = Split body newline) as ->.
  { induction Hbody as [|l ls Hl _ IH]; [done|].
    by rewrite filter_cons, decide_True, IH by done. }
  apply Join_Split.
Qed.

Lemma meta_line_is_meta (key value : string) :
  key +:+ ":" ∈ metaKeys → is_meta_line (meta_line key value).
Proof.
  intros Hk. split.
  - exists (" " +:+ key +:+ ": " +:+ value +:+ " -->"). done.
  - exists (key +:+ ":"). split; [done|].
    exists "<!-- ", (" " +:+ value +:+ " -->"). unfold meta_line.
    by rewrite !str_app_assoc.
Qed.

(** The value of the first line that is the metadata line of the key. *)
Lemma extractMeta_meta_line (key value : string)
    (before after : list string) :
  Forall (λ l, ¬ begins_with l ("<!-- " +:+ key +:+ ": ")) before →
  extractMeta (before ++ meta_line key value :: after) key
  = TrimSpace value.
Proof.
  intros Hbefore. unfold extractMeta.
  rewrite extractMeta_loop_first; [|done|].
  - unfold TrimPrefix, meta_line.
    replace ("<!-- " +:+ key +:+ ": " +:+ value +:+ " -->")
      with (("<!-- " +:+ key +:+ ": ") +:+ value +:+ " -->")
      by (by rewrite !str_app_assoc).
    rewrite HasPrefix_app, str_drop_app.
    by rewrite (proj1 (TrimSuffix_spec _ _) value).
  - exists (value +:+ " -->"). unfold meta_line.
    by rewrite !str_app_assoc.
Qed.

End FileFacts.

(** X7. A file made of metadata lines followed by a body that has no
    metadata line of its own has that body as its content: the lines come
    back from [strings.Split], the metadata lines are dropped and the body
    is joined again as it was. *)
Theorem extractContent_file (meta : list string) (body : string) :
  Forall is_meta_line meta →
  Forall (λ l, newline ∉ list_ascii_of_string l) meta →
  Forall (λ l, ¬ is_meta_line l) (Split body newline) →
  extractContent (Split (Join (meta ++ [body]) nl) newline) = body.
Proof.
  intros Hmeta Hnl Hbody.
  change nl with (String newline "").
  rewrite Split_Join_lines by done. by apply extractContent_lines.
Qed.

Lemma extractContent_file_witness :
  extractContent
    (Split (Join (["<!-- title: A -->"; "<!-- date: 2024-03-05 -->"]
                  ++ ["<p>one</p>" +:+ nl +:+ "<!-- a remark -->" +:+ nl])
              nl) newline)
  = "<p>one</p>" +:+ nl +:+ "<!-- a remark -->" +:+ nl.
Proof.
  apply extractContent_file; compute_done.
Defined.

(** ** What [loadPost] makes of a post file *)

Section LoadPostFacts.

Variable os : OS.

(** The fields of the post, read off the lines of its file. *)
Lemma loadPost_fields (slug content : string) :
  ReadFile os (Filepath.Join "posts" (slug +:+ ".html")) = Ok content →
  let lines := Split content newline in
  let collection := extractMeta lines "collection" in
  ∃ post,
    loadPost os slug = Ok post
    ∧ Slug post = slug
    ∧ Title post = (if String.eqb (extractMeta lines "title") ""
                    then slug else extractMeta lines "title")
    ∧ Description post = extractMeta lines "description"
    ∧ RawDate post = (if String.eqb (extractMeta lines "date") ""
                      then today os else extractMeta lines "date")
    ∧ Date post = match Time.Parse (RawDate post) with
                  | Some t => Time.FormatLong t
                  | None => RawDate post
                  end
    ∧ Collection post = collection
    ∧ (Content post, TOC post) = processContentWithTOC (extractContent lines)
    ∧ (CollectionIndex post, CollectionTotal post)
      = (if String.eqb collection "" then (0%Z, 0%Z)
         else getCollectionPosition os slug collection (RawDate post))
    ∧ (collection = "" →
       CollectionTitle post = "" ∧ CollectionDescription post = "").
Proof.
  intros Hread lines collection. unfold loadPost. rewrite Hread.
  fold lines. fold collection.
  destruct (processContentWithTOC (extractContent lines))
    as [processedContent toc].
  destruct (String.eqb_spec collection "") as [Hc|Hc]; cbn [negb].
  - eexists. split; [reflexivity|].
    cbn [Slug Title Description RawDate Date Collection Content TOC
         CollectionIndex CollectionTotal CollectionTitle
         CollectionDescription set_ReadTimeInMinutes set_Title].
    destruct (String.eqb (extractMeta lines "title") "");
      cbn [Slug Title Description RawDate Date Collection Content TOC
           CollectionIndex CollectionTotal CollectionTitle
           CollectionDescription set_ReadTimeInMinutes set_Title];
      by repeat split.
  - destruct (match ReadFile os _ with Ok _ => _ | Err _ => _ end)
      as [collectionTitle collectionDescription].
    destruct (getCollectionPosition os slug collection _)
      as [collectionIndex collectionTotal] eqn:Hpos.
    eexists. split; [reflexivity|].
    cbn [Slug Title Description RawDate Date Collection Content TOC
         CollectionIndex CollectionTotal CollectionTitle
         CollectionDescription set_ReadTimeInMinutes set_Title].
    destruct (String.eqb (extractMeta lines "title") "");
      cbn [Slug Title Description RawDate Date Collection Content TOC
           CollectionIndex CollectionTotal CollectionTitle
           CollectionDescription set_ReadTimeInMinutes set_Title];
      rewrite ?Hpos; by repeat split.
Qed.

Lemma loadPost_Err (slug : string) (e : error) :
  loadPost os slug = Err e ↔
  ReadFile os (Filepath.Join "posts" (slug +:+ ".html")) = Err e.
Proof.
  destruct (ReadFile os _) as [content|e'] eqn:Hread.
  - destruct (loadPost_fields slug content Hread) as (post & -> & _).
    split; discriminate.
  - unfold loadPost. rewrite Hread. split; by intros [= ->].
Qed.

Lemma loadPost_Ok (slug : string) (post : Post) :
  loadPost os slug = Ok post →
  ∃ content,
    ReadFile os (Filepath.Join "posts" (slug +:+ ".html")) = Ok content.
Proof.
  destruct (ReadFile os _) as [content|e] eqn:Hread; [by exists content|].
  apply loadPost_Err in Hread. congruence.
Qed.

End LoadPostFacts.

(** X8. A post file written as the four metadata lines and a body loads as
    the post with those values: each value without surrounding white space,
    the slug for an empty title, today's date for an empty date, and the
    body, indexed, as content. *)
Theorem loadPost_file (os : OS)
    (slug title date description collection body : string) :
  let file :=
    Join ([meta_line "title" title; meta_line "date" date;
           meta_line "description" description;
           meta_line "collection" collection] ++ [body]) nl in
  Forall (λ v, newline ∉ list_ascii_of_string v)
    [title; date; description; collection] →
  Forall (λ l, ¬ is_meta_line l) (Split body newline) →
  ReadFile os (Filepath.Join "posts" (slug +:+ ".html")) = Ok file →
  ∃ post,
    loadPost os slug = Ok post
    ∧ Slug post = slug
    ∧ Title post = (if String.eqb (TrimSpace title) "" then slug
                    else TrimSpace title)
    ∧ Description post = TrimSpace description
    ∧ RawDate post = (if String.eqb (TrimSpace date) "" then today os
                      else TrimSpace date)
    ∧ Collection post = TrimSpace collection
    ∧ (Content post, TOC post) = processContentWithTOC body.
Proof.
  intros file Hvalues Hbody Hread.
  destruct (loadPost_fields os slug file Hread)
    as (post & Hload & Hslug & Htitle & Hdesc & Hraw & _ & Hcoll & Hcontent
        & _).
  set (rest := Split body newline) in *.
  assert (Hlines : Split file newline
                   = [meta_line "title" title; meta_line "date" date;
                      meta_line "description" description;
                      meta_line "collection" collection] ++ rest).
  { unfold file. change nl with (String newline "").
    apply Split_Join_lines.
    assert (∀ k v, newline ∉ list_ascii_of_string k →
                   newline ∉ list_ascii_of_string v →
                   newline ∉ list_ascii_of_string (meta_line k v)) as Hml.
    { intros k v Hk Hv. unfold meta_line. rewrite !s2l_app, !elem_of_app.
      assert (newline ∉ list_ascii_of_string "<!-- ") by compute_done.
      assert (newline ∉ list_ascii_of_string ": ") by compute_done.
      assert (newline ∉ list_ascii_of_string " -->") by compute_done.
      tauto. }
    apply Forall_cons in Hvalues as [Ht Hvalues].
    apply Forall_cons in Hvalues as [Hd Hvalues].
    apply Forall_cons in Hvalues as [Hs Hvalues].
    apply Forall_cons in Hvalues as [Hc _].
    repeat constructor; apply Hml; try done; compute_done. }
  rewrite Hlines in Htitle, Hdesc, Hraw, Hcoll, Hcontent.
  assert (Ht : extractMeta
                 ([meta_line "title" title; meta_line "date" date;
                   meta_line "description" description;
                   meta_line "collection" collection] ++ rest) "title"
               = TrimSpace title).
  { by apply (extractMeta_meta_line "title" title []). }
  assert (Hd : extractMeta
                 ([meta_line "title" title; meta_line "date" date;
                   meta_line "description" description;
                   meta_line "collection" collection] ++ rest) "date"
               = TrimSpace date).
  { apply (extractMeta_meta_line "date" date [meta_line "title" title]).
    repeat constructor; intros H%HasPrefix_spec; by vm_compute in H. }
  assert (Hs : extractMeta
                 ([meta_line "title" title; meta_line "date" date;
                   meta_line "description" description;
                   meta_line "collection" collection] ++ rest) "description"
               = TrimSpace description).
  { apply (extractMeta_meta_line "description" description
             [meta_line "title" title; meta_line "date" date]).
    repeat constructor; intros H%HasPrefix_spec; by vm_compute in H. }
  assert (Hc : extractMeta
                 ([meta_line "title" title; meta_line "date" date;
                   meta_line "description" description;
                   meta_line "collection" collection] ++ rest) "collection"
               = TrimSpace collection).
  { apply (extractMeta_meta_line "collection" collection
             [meta_line "title" title; meta_line "date" date;
              meta_line "description" description]).
    repeat constructor; intros H%HasPrefix_spec; by vm_compute in H. }
  rewrite Ht in Htitle. rewrite Hd in Hraw. rewrite Hs in Hdesc.
  rewrite Hc in Hcoll.
  subst rest. rewrite extractContent_lines in Hcontent;
    [|repeat constructor; apply meta_line_is_meta; compute_done|done].
  by exists post.
Qed.

(** A directory with one post, written as metadata lines and a body. *)
Definition written_post : OS :=
  directory
    [("posts/notes.html",
      Join ([meta_line "title" " Notes on Go "; meta_line "date" "";
             meta_line "description" "Short notes.";
             meta_line "collection" "go"]
            ++ ["<h2>Maps</h2>" +:+ nl +:+ "<p>Some words.</p>"]) nl)]
    [].

Lemma loadPost_file_witness :
  ∃ post,
    loadPost written_post "notes" = Ok post
    ∧ Slug post = "notes" ∧ Title post = "Notes on Go"
    ∧ Description post = "Short notes."
    ∧ RawDate post = today written_post
    ∧ Collection post = "go"
    ∧ (Content post, TOC post)
      = processContentWithTOC
          ("<h2>Maps</h2>" +:+ nl +:+ "<p>Some words.</p>").
Proof.
  apply (loadPost_file written_post "notes" " Notes on Go " ""
           "Short notes." "go"
           ("<h2>Maps</h2>" +:+ nl +:+ "<p>Some words.</p>"));
    [compute_done|compute_done|reflexivity].
Defined.

(** X9. The display date of a loaded post is the long form of its raw date
    when the raw date is the [YYYY-MM-DD] of a calendar date, and the raw
    date itself otherwise; the raw date is the date metadata, or today's
    date when the file has none.  So 2024-03-05 shows as March 5, 2024 and
    2024-02-30, which is no date, shows as it is written. *)
Theorem loadPost_date (os : OS) (slug : string) (post : Post) :
  loadPost os slug = Ok post →
  (∀ t, valid_date t → RawDate post = iso_date t →
        Date post = Time.FormatLong t)
  ∧ ((¬ ∃ t, valid_date t ∧ RawDate post = iso_date t) →
     Date post = RawDate post)
  ∧ (RawDate post = "2024-03-05" → Date post = "March 5, 2024")
  ∧ (RawDate post = "2024-02-30" → Date post = "2024-02-30")
  ∧ (∀ content,
       ReadFile os (Filepath.Join "posts" (slug +:+ ".html")) = Ok content →
       let date := extractMeta (Split content newline) "date" in
       (date = "" → RawDate post = today os)
       ∧ (date ≠ "" → RawDate post = date)).
Proof.
  intros Hload.
  destruct (loadPost_Ok os slug post Hload) as [content Hread].
  destruct (loadPost_fields os slug content Hread)
    as (post' & Hload' & _ & _ & _ & Hraw & Hdate & _).
  assert (post' = post) as -> by congruence.
  split; [|split; [|split; [|split]]].
  - intros t Hv Ht. rewrite Hdate.
    by rewrite (proj2 (Parse_Some (RawDate post) t) (conj Hv Ht)).
  - intros Hno. rewrite Hdate.
    destruct (Time.Parse (RawDate post)) as [t|] eqn:Hp; [|done].
    destruct Hno. exists t. by apply Parse_Some.
  - intros Hr. by rewrite Hdate, Hr.
  - intros Hr. by rewrite Hdate, Hr.
  - intros content' Hread' date.
    assert (content' = content) as -> by congruence.
    rewrite Hraw. fold date.
    destruct (String.eqb_spec date ""); by split.
Qed.

Lemma loadPost_date_witness :
  ∃ post, loadPost three_posts "a" = Ok post
          ∧ RawDate post = "2024-03-01" ∧ Date post = "March 1, 2024".
Proof.
  destruct (loadPost three_posts "a") as [post|e] eqn:Hl;
    [|vm_compute in Hl; discriminate].
  exists post. split; [reflexivity|].
  assert (Hr : RawDate post = "2024-03-01")
    by (vm_compute in Hl; injection Hl as <-; reflexivity).
  split; [exact Hr|].
  assert (Hlong : Time.FormatLong
                    {| Time.Year := 2024; Time.Month := 3; Time.Day := 1 |}
                  = "March 1, 2024") by (vm_compute; reflexivity).
  rewrite <- Hlong.
  apply (proj1 (loadPost_date three_posts "a" post Hl)
           {| Time.Year := 2024; Time.Month := 3; Time.Day := 1 |});
    [vm_compute; intuition discriminate|].
  rewrite Hr. vm_compute. reflexivity.
Defined.

(** ** The position of a post in its collection *)

Section PositionFacts.

Variable os : OS.

Lemma position_of_bounds (currentSlug : string) (l : list postInfo) :
  (0 ≤ position_of currentSlug l ≤ Z.of_nat (length l))%Z
  ∧ (currentSlug ∈ slug <$> l → (1 ≤ position_of currentSlug l)%Z).
Proof.
  unfold position_of.
  destruct (list_find _ l) as [[k x]|] eqn:Hf.
  - apply list_find_Some in Hf as (Hk & _). apply lookup_lt_Some in Hk. lia.
  - split; [lia|]. intros (p & Hp & Hin)%list_elem_of_fmap.
    apply list_find_None in Hf. eapply Forall_forall in Hf; [|exact Hin].
    by destruct Hf.
Qed.

(** A post file the walk reports at the path [loadPost] reads is a member
    of the collection its metadata names. *)
Lemma collection_members_own (slug0 content : string) (d : DirEntry) :
  d ∈ walk os "posts" → walkErr d = None → is_post_file d = true →
  path d = Filepath.Join "posts" (slug0 +:+ ".html") → slug_of d = slug0 →
  ReadFile os (Filepath.Join "posts" (slug0 +:+ ".html")) = Ok content →
  slug0 ∈ slug <$> collection_members os
                     (extractMeta (Split content newline) "collection").
Proof.
  intros Hd Herr Hpf Hpath Hslug Hread. unfold collection_members.
  apply list_elem_of_fmap.
  exists {| slug := slug0;
            date := extractMeta (Split content newline) "date" |}.
  split; [done|]. apply list_elem_of_fmap.
  exists (extractMeta (Split content newline) "collection",
          {| slug := slug0;
             date := extractMeta (Split content newline) "date" |}).
  split; [done|]. apply list_elem_of_filter. split; [done|].
  apply list_elem_of_omap. exists d. split; [done|].
  unfold post_file_info. rewrite Herr, Hpf, Hpath, Hread, Hslug.
  by rewrite bool_decide_eq_true_2.
Qed.

End PositionFacts.

(** X10. The position of a loaded post in its collection: a post without a
    collection has index and total 0 and no collection title or description;
    otherwise the total is the number of readable post files of the
    collection and the index lies between 0 and the total, and is at least 1
    when the walk reports the post's own file at the path it was loaded
    from. *)
Theorem loadPost_collection_position (os : OS) (slug : string) (post : Post) :
  loadPost os slug = Ok post →
  (0 ≤ CollectionIndex post ≤ CollectionTotal post)%Z
  ∧ (Collection post = "" →
     CollectionIndex post = 0%Z ∧ CollectionTotal post = 0%Z
     ∧ CollectionTitle post = "" ∧ CollectionDescription post = "")
  ∧ (Collection post ≠ "" →
     CollectionTotal post
     = Z.of_nat (length (collection_members os (Collection post))))
  ∧ (Collection post ≠ "" →
     (∃ d, d ∈ walk os "posts" ∧ walkErr d = None ∧ is_post_file d = true
           ∧ path d = Filepath.Join "posts" (slug +:+ ".html")
           ∧ slug_of d = slug) →
     (1 ≤ CollectionIndex post)%Z).
Proof.
  intros Hload.
  destruct (loadPost_Ok os slug post Hload) as [content Hread].
  destruct (loadPost_fields os slug content Hread)
    as (post' & Hload' & _ & _ & _ & _ & _ & Hcoll & _ & Hpos & Hempty).
  assert (post' = post) as -> by congruence.
  cbv zeta in Hpos, Hempty, Hcoll. rewrite <- Hcoll in Hpos, Hempty.
  destruct (String.eqb_spec (Collection post) "") as [Hc|Hc].
  - injection Hpos as -> ->. destruct (Hempty Hc) as [-> ->].
    split; [lia|]. by repeat split.
  - rewrite getCollectionPosition_unfold in Hpos. injection Hpos as -> ->.
    set (less := λ pi pj : postInfo, String.ltb (date pi) (date pj)).
    destruct (Slice_spec less (collection_members os (Collection post))
                (key_ltb_swo date)) as [Hperm _].
    destruct (position_of_bounds slug
                (Sort.Slice less (collection_members os (Collection post))))
      as [Hb Hin].
    rewrite (Permutation_length Hperm) in Hb.
    split; [done|]. split; [done|]. split; [done|].
    intros _ (d & Hd & Herr & Hpf & Hpath & Hslug). apply Hin.
    rewrite Hperm, Hcoll.
    by apply (collection_members_own os slug content d).
Qed.

Lemma loadPost_collection_position_witness :
  ∃ post, loadPost three_posts "b" = Ok post
          ∧ (0 ≤ CollectionIndex post ≤ CollectionTotal post)%Z
          ∧ CollectionTotal post = 3%Z.
Proof.
  destruct (loadPost three_posts "b") as [post|e] eqn:Hl;
    [|vm_compute in Hl; discriminate].
  exists post. split; [reflexivity|].
  destruct (loadPost_collection_position three_posts "b" post Hl)
    as (Hb & _ & Ht & _).
  split; [exact Hb|].
  assert (Hc : Collection post = "go")
    by (vm_compute in Hl; injection Hl as <-; reflexivity).
  rewrite Ht by (rewrite Hc; discriminate).
  rewrite Hc. vm_compute. reflexivity.
Defined.

(** ** When the loaders fail *)

(** The post file [loadPost] reads for a slug can be read. *)
Definition readable_post (os : OS) (s : string) : Prop :=
  ∃ content,
    ReadFile os (Filepath.Join "posts" (s +:+ ".html")) = Ok content.

Section LoaderFacts.

Variable os : OS.

Lemma loadPosts_walk_Ok (entries : list DirEntry) (acc : list Post) :
  Forall (λ d, walkErr d = None) entries →
  Forall (readable_post os)
    (slug_of <$> filter (λ d, is_post_file d = true) entries) →
  ∃ res, WalkDir_loop (loadPosts_fn os) entries acc = Ok res.
Proof.
  revert acc. induction entries as [|d entries IH]; intros acc Herr Hread.
  { by exists acc. }
  apply Forall_cons in Herr as [Hd Herr].
  cbn [WalkDir_loop]. unfold loadPosts_fn at 1. rewrite Hd.
  rewrite filter_cons in Hread.
  destruct (is_post_file d) eqn:Hpf; unfold is_post_file in Hpf.
  - apply andb_true_iff in Hpf as [Hdir%negb_true_iff ->]. rewrite Hdir.
    cbn [orb negb]. rewrite decide_True in Hread by done.
    cbn [fmap list_fmap] in Hread.
    apply Forall_cons in Hread as [[content Hc] Hread].
    destruct (loadPost_fields os _ content Hc) as (post & Hl & _).
    fold (slug_of d). rewrite Hl. by apply IH.
  - assert (IsDir d || negb (HasSuffix (path d) ".html") = true) as ->.
    { destruct (IsDir d); [done|]. cbn in Hpf |- *. by rewrite Hpf. }
    rewrite decide_False in Hread by done. by apply IH.
Qed.

Lemma loadPosts_walk_Err (entries : list DirEntry) (acc : list Post)
    (e : error) :
  WalkDir_loop (loadPosts_fn os) entries acc = Err e →
  (∃ d, d ∈ entries ∧ walkErr d = Some e)
  ∨ (∃ s, s ∈ slug_of <$> filter (λ d, is_post_file d = true) entries
          ∧ ReadFile os (Filepath.Join "posts" (s +:+ ".html")) = Err e).
Proof.
  revert acc. induction entries as [|d entries IH]; intros acc; [done|].
  cbn [WalkDir_loop]. unfold loadPosts_fn at 1.
  assert (Hmono :
    (∃ d0, d0 ∈ entries ∧ walkErr d0 = Some e)
    ∨ (∃ s, s ∈ slug_of <$> filter (λ d, is_post_file d = true) entries
            ∧ ReadFile os (Filepath.Join "posts" (s +:+ ".html")) = Err e) →
    (∃ d0, d0 ∈ d :: entries ∧ walkErr d0 = Some e)
    ∨ (∃ s, s ∈ slug_of <$> filter (λ d, is_post_file d = true)
                               (d :: entries)
            ∧ ReadFile os (Filepath.Join "posts" (s +:+ ".html")) = Err e)).
  { intros [(d0 & Hin & Hd0)|(s & Hin & Hs)]; [left|right].
    - exists d0. split; [by right|done].
    - exists s. split; [|done]. rewrite filter_cons.
      destruct (decide _); [by right|done]. }
  destruct (walkErr d) as [e'|] eqn:He.
  { intros [= ->]. left. exists d. split; [by left|done]. }
  destruct (is_post_file d) eqn:Hpf; unfold is_post_file in Hpf.
  - apply andb_true_iff in Hpf as [Hdir%negb_true_iff Hsuf].
    rewrite Hdir, Hsuf. cbn [orb negb]. fold (slug_of d).
    destruct (loadPost os (slug_of d)) as [post|e'] eqn:Hl.
    + intros H%IH. by apply Hmono.
    + intros [= ->]. right. exists (slug_of d). split.
      * rewrite filter_cons, decide_True; [by left|].
        unfold is_post_file. by rewrite Hdir, Hsuf.
      * by apply loadPost_Err.
  - assert (IsDir d || negb (HasSuffix (path d) ".html") = true) as ->.
    { destruct (IsDir d); [done|]. cbn in Hpf |- *. by rewrite Hpf. }
    intros H%IH. by apply Hmono.
Qed.

End LoaderFacts.

(** X11. [loadPosts] succeeds exactly when the walk of [posts] reports no
    error and, for every [.html] file it reports, the file of that base name
    directly under [posts] can be read; when it fails, its error is a walk
    error or the read error of such a file. *)
Theorem loadPosts_succeeds_iff (os : OS) :
  ((∃ posts, loadPosts os = Ok posts) ↔
   Forall (λ d, walkErr d = None) (walk os "posts")
   ∧ Forall (readable_post os) (post_slugs os))
  ∧ (∀ e, loadPosts os = Err e →
       (∃ d, d ∈ walk os "posts" ∧ walkErr d = Some e)
       ∨ (∃ s, s ∈ post_slugs os
               ∧ ReadFile os (Filepath.Join "posts" (s +:+ ".html"))
                 = Err e)).
Proof.
  unfold loadPosts, WalkDir, post_slugs. split; [split|].
  - intros [posts Hl].
    destruct (WalkDir_loop _ _ _) as [res|e] eqn:Hw; [|done].
    apply loadPosts_walk in Hw as (Herr & ps & Hps & _).
    split; [done|]. clear Hl.
    induction Hps as [|s p ss ps Hsp _ IH]; constructor; [|done].
    by apply loadPost_Ok in Hsp.
  - intros [Herr Hread].
    destruct (loadPosts_walk_Ok os _ [] Herr Hread) as [res ->].
    by eexists.
  - intros e. destruct (WalkDir_loop _ _ _) as [res|e'] eqn:Hw; [done|].
    intros [= ->]. by apply loadPosts_walk_Err in Hw.
Qed.

(** ** Collections *)

(** The slugs of the collection files, in discovery order. *)
Definition collection_slugs (os : OS) : list string :=
  slug_of <$> filter (λ d, is_post_file d = true) (walk os "collections").

Definition titles_ascend (collections : list Coll.Collection) : Prop :=
  ∀ i j ci cj, i < j →
    collections !! i = Some ci → collections !! j = Some cj →
    String.leb (Coll.Title ci) (Coll.Title cj) = true.

Section CollectionFacts.

Variable os : OS.

Lemma loadCollections_walk (entries : list DirEntry)
    (acc res : list Coll.Collection) :
  WalkDir_loop (loadCollections_fn os) entries acc = Ok res →
  ∃ cs,
    Forall2 (λ s c, loadCollection os s = Ok c)
      (slug_of <$> filter (λ d, is_post_file d = true) entries) cs
    ∧ res = acc ++ cs.
Proof.
  revert acc. induction entries as [|d entries IH]; intros acc.
  { cbn. intros [= <-]. exists [].
    split; [constructor|by rewrite app_nil_r]. }
  cbn [WalkDir_loop]. unfold loadCollections_fn at 1.
  destruct (walkErr d) as [e|] eqn:He; [done|].
  rewrite filter_cons.
  destruct (is_post_file d) eqn:Hpf; unfold is_post_file in Hpf.
  - apply andb_true_iff in Hpf as [Hd%negb_true_iff ->]. rewrite Hd.
    cbn [orb negb]. fold (slug_of d).
    destruct (loadCollection os _) as [c|e] eqn:Hl; [|done].
    intros (cs & Hcs & ->)%IH.
    rewrite decide_True by done. exists (c :: cs). split.
    + cbn. by constructor.
    + by rewrite <- app_assoc.
  - assert (IsDir d || negb (HasSuffix (path d) ".html") = true) as ->.
    { destruct (IsDir d); [done|]. cbn in Hpf |- *. by rewrite Hpf. }
    intros (cs & Hcs & ->)%IH.
    rewrite decide_False by done. by exists cs.
Qed.

(** What [loadCollection] returns, read off the collection file. *)
Lemma loadCollection_fields (slug : string) (c : Coll.Collection) :
  loadCollection os slug = Ok c →
  ∃ content posts,
    ReadFile os (Filepath.Join "collections" (slug +:+ ".html")) = Ok content
    ∧ loadPosts os = Ok posts
    ∧ Coll.Slug c = slug
    ∧ Coll.Title c = extractMeta (Split content newline) "title"
    ∧ Coll.Description c
      = TrimSpace (extractContent (Split content newline))
    ∧ Coll.DescriptionText c = stripHTML (Coll.Description c)
    ∧ Coll.Posts c = filter (λ p, Collection p = slug) posts.
Proof.
  unfold loadCollection.
  destruct (ReadFile os _) as [content|e]; [|done].
  destruct (loadPosts os) as [posts|e]; [|done].
  intros [= <-]. exists content, posts. cbn.
  by rewrite loadCollection_members.
Qed.

End CollectionFacts.

(** X12. [loadCollections] returns the collections of the collection files,
    each once, in ascending order of title: no collection has a smaller
    title than one before it. *)
Theorem loadCollections_sorted (os : OS) (collections : list Coll.Collection) :
  loadCollections os = Ok collections →
  ∃ loaded,
    Forall2 (λ s c, loadCollection os s = Ok c) (collection_slugs os) loaded
    ∧ collections ≡ₚ loaded
    ∧ titles_ascend collections.
Proof.
  unfold loadCollections, WalkDir.
  destruct (WalkDir_loop _ _ _) as [loaded|e] eqn:Hw; [|done].
  intros [= <-]. apply loadCollections_walk in Hw as (cs & Hcs & ->).
  set (less := λ ci cj : Coll.Collection,
                 String.ltb (Coll.Title ci) (Coll.Title cj)).
  destruct (Slice_spec less cs (key_ltb_swo Coll.Title)) as [Hperm Hsorted].
  exists cs. split; [done|]. split; [done|].
  intros i j ci cj Hij Hi Hj.
  pose proof (Hsorted i j ci cj Hij Hi Hj) as Hlt. unfold less in Hlt.
  rewrite ltb_negb_leb in Hlt. by apply negb_false_iff in Hlt.
Qed.

(** Two collections, discovered in descending order of title, and a post of
    one of them. *)
Definition two_collections : OS :=
  directory
    [("posts/a.html", post_file "A" "2024-03-01" "go")]
    [("collections/rust.html",
      "<!-- title: Rust -->" +:+ nl +:+ "<p>Posts about Rust.</p>");
     ("collections/go.html",
      "<!-- title: Go -->" +:+ nl +:+ "<p>Posts  about <b>Go</b>.</p>")].

Lemma loadCollections_sorted_witness :
  ∃ collections,
    loadCollections two_collections = Ok collections
    ∧ Coll.Slug <$> collections = ["go"; "rust"]
    ∧ ∃ loaded,
        Forall2 (λ s c, loadCollection two_collections s = Ok c)
          (collection_slugs two_collections) loaded
        ∧ collections ≡ₚ loaded
        ∧ titles_ascend collections.
Proof.
  destruct (loadCollections two_collections) as [cs|e] eqn:Hl;
    [|vm_compute in Hl; discriminate].
  exists cs. split; [reflexivity|]. split.
  - vm_compute in Hl. injection Hl as <-. reflexivity.
  - apply (loadCollections_sorted two_collections cs Hl).
Defined.

(** X13. [loadCollection] succeeds exactly when the collection file can be
    read and [loadPosts] succeeds.  The collection it returns has the slug
    it was asked for, the title metadata of the file as its title (empty
    when there is none: the slug does not stand in), the content of the
    file without surrounding white space as its description, and that
    description run through [stripHTML] as its plain text. *)
Theorem loadCollection_succeeds_iff (os : OS) (slug : string) :
  ((∃ c, loadCollection os slug = Ok c) ↔
   (∃ content,
      ReadFile os (Filepath.Join "collections" (slug +:+ ".html"))
      = Ok content)
   ∧ (∃ posts, loadPosts os = Ok posts))
  ∧ (∀ c content,
       loadCollection os slug = Ok c →
       ReadFile os (Filepath.Join "collections" (slug +:+ ".html"))
       = Ok content →
       Coll.Slug c = slug
       ∧ Coll.Title c = extractMeta (Split content newline) "title"
       ∧ Coll.Description c
         = TrimSpace (extractContent (Split content newline))
       ∧ Coll.DescriptionText c = stripHTML (Coll.Description c)
       ∧ Coll.PageType c = "").
Proof.
  split; [split|].
  - intros [c Hc].
    apply loadCollection_fields in Hc as (content & posts & Hr & Hp & _).
    split; by eexists.
  - intros [[content Hr] [posts Hp]]. unfold loadCollection.
    rewrite Hr, Hp. by eexists.
  - intros c content Hc Hr.
    pose proof Hc as Hc'.
    apply loadCollection_fields
      in Hc' as (content' & posts & Hr' & _ & Hs & Ht & Hd & Hx & _).
    assert (content' = content) as -> by congruence.
    repeat split; try done.
    unfold loadCollection in Hc. rewrite Hr in Hc.
    destruct (loadPosts os); [|done]. by injection Hc as <-.
Qed.

Lemma loadCollection_succeeds_iff_witness :
  ∃ c, loadCollection two_collections "go" = Ok c
       ∧ Coll.Title c = "Go"
       ∧ Coll.Description c = "<p>Posts  about <b>Go</b>.</p>"
       ∧ Coll.DescriptionText c = "Posts about Go.".
Proof.
  destruct (loadCollection two_collections "go") as [c|e] eqn:Hl;
    [|vm_compute in Hl; discriminate].
  exists c. split; [reflexivity|].
  destruct (proj2 (loadCollection_succeeds_iff two_collections "go") c
              ("<!-- title: Go -->" +:+ nl
               +:+ "<p>Posts  about <b>Go</b>.</p>") Hl eq_refl)
    as (_ & Ht & Hd & Hx & _).
  split; [rewrite Ht; vm_compute; reflexivity|].
  split; [rewrite Hd; vm_compute; reflexivity|].
  rewrite Hx, Hd. vm_compute. reflexivity.
Defined.

(** ** The ranker and the loader agree *)

Section TotalFacts.

Variable os : OS.

Lemma loadPost_total (slug : string) (post : Post) :
  loadPost os slug = Ok post → Collection post ≠ "" →
  CollectionTotal post
  = Z.of_nat (length (collection_members os (Collection post))).
Proof.
  intros Hload Hc.
  destruct (loadPost_Ok os slug post Hload) as [content Hread].
  destruct (loadPost_fields os slug content Hread)
    as (post' & Hload' & _ & _ & _ & _ & _ & Hcoll & _ & Hpos & _).
  assert (post' = post) as -> by congruence.
  cbv zeta in Hpos, Hcoll. rewrite <- Hcoll in Hpos.
  destruct (String.eqb_spec (Collection post) "") as [|_]; [done|].
  rewrite getCollectionPosition_unfold in Hpos. by injection Hpos as _ ->.
Qed.

Lemma filter_length_fmap {A B C : Type} `{EqDecision C}
    (f : A → C) (g : B → C) (l : list A) (l' : list B) (c : C) :
  f <$> l = g <$> l' →
  length (filter (λ x, f x = c) l) = length (filter (λ y, g y = c) l').
Proof.
  revert l'. induction l as [|x l IH]; intros [|y l']; try done.
  cbn [fmap list_fmap]. intros [= Hxy Hl]. rewrite !filter_cons, Hxy.
  destruct (decide (g y = c)); cbn; by rewrite (IH l' Hl).
Qed.

(** When every post file lies directly under [posts], the metadata the
    ranker reads are those of the posts the loader loaded. *)
Lemma post_file_info_loaded (entries : list DirEntry) (ps : list Post) :
  Forall (λ d, walkErr d = None) entries →
  Forall (λ d, is_post_file d = true →
               path d = Filepath.Join "posts" (slug_of d +:+ ".html"))
    entries →
  Forall2 (λ s p, loadPost os s = Ok p)
    (slug_of <$> filter (λ d, is_post_file d = true) entries) ps →
  fst <$> omap (post_file_info os) entries = Collection <$> ps.
Proof.
  intros Herr. revert ps.
  induction Herr as [|d entries Hd _ IH]; intros ps Hco Hps.
  { cbn in Hps. by apply Forall2_nil_inv_l in Hps as ->. }
  apply Forall_cons in Hco as [Hpath Hco].
  rewrite filter_cons in Hps. cbn [omap list_omap].
  unfold post_file_info at 1. rewrite Hd, bool_decide_eq_true_2 by done.
  cbn [andb].
  destruct (is_post_file d) eqn:Hpf.
  - rewrite decide_True in Hps by done. cbn [fmap list_fmap] in Hps.
    apply Forall2_cons_inv_l in Hps as (p & ps' & Hp & Hps & ->).
    destruct (loadPost_Ok os _ p Hp) as [content Hread].
    destruct (loadPost_fields os _ content Hread)
      as (p' & Hp' & _ & _ & _ & _ & _ & Hcoll & _).
    assert (p' = p) as -> by congruence.
    rewrite (Hpath eq_refl), Hread. cbn. f_equal; [done|]. by apply IH.
  - rewrite decide_False in Hps by done. by apply IH.
Qed.

End TotalFacts.

(** X14. When [loadPosts] succeeds and every post file the walk reports lies
    directly under [posts], the collection total of each loaded post that
    has a collection is the number of loaded posts of that collection: the
    ranker's count and the collection's list agree. *)
Theorem collection_total_agrees (os : OS) (posts : list Post) :
  loadPosts os = Ok posts →
  Forall (λ d, is_post_file d = true →
               path d = Filepath.Join "posts" (slug_of d +:+ ".html"))
    (walk os "posts") →
  ∀ p, p ∈ posts → Collection p ≠ "" →
    CollectionTotal p
    = Z.of_nat (length (filter (λ q, Collection q = Collection p) posts)).
Proof.
  unfold loadPosts, WalkDir.
  destruct (WalkDir_loop _ _ _) as [loaded|e] eqn:Hw; [|done].
  intros [= <-] Hco p Hp Hc.
  apply loadPosts_walk in Hw as (Herr & ps & Hps & ->). cbn [app] in *.
  set (less := λ pi pj : Post, String.ltb (RawDate pj) (RawDate pi)) in *.
  destruct (Slice_spec less ps (key_gtb_swo RawDate)) as [Hperm _].
  rewrite Hperm in Hp |- *.
  apply list_elem_of_lookup in Hp as [i Hi].
  destruct (Forall2_lookup_r _ _ _ _ _ Hps Hi) as (s & _ & Hl).
  rewrite (loadPost_total os s p Hl Hc). f_equal.
  unfold collection_members. rewrite length_fmap.
  apply filter_length_fmap.
  by apply post_file_info_loaded.
Qed.

Lemma collection_total_agrees_witness :
  ∃ posts, loadPosts three_posts_in_collection = Ok posts
    ∧ ∀ p, p ∈ posts → Collection p ≠ "" →
        CollectionTotal p
        = Z.of_nat
            (length (filter (λ q, Collection q = Collection p) posts)).
Proof.
  destruct (loadPosts three_posts_in_collection) as [posts|e] eqn:Hl;
    [|vm_compute in Hl; discriminate].
  exists posts. split; [reflexivity|].
  apply (collection_total_agrees three_posts_in_collection posts Hl).
  repeat (apply Forall_cons; split;
          [intros H; vm_compute in H |- *;
           first [discriminate H|reflexivity]|]).
  by apply Forall_nil.
Defined.

(** ** Short slices are sorted by insertion, which keeps ties in place *)

Section StableInsertion.

Context {A : Type} (less : A → A → bool).
Context (P : A → Prop) `{∀ x, Decision (P x)}.

(** No two elements of the class [P] are in strict order. *)
Hypothesis class_unordered : ∀ x y, less x y = true → ¬ (P x ∧ P y).

Lemma Swap_adjacent_filter (data : list A) (j : nat) :
  Sort.Less less data (S j) j = true →
  filter P (Sort.Swap data (S j) j) = filter P data.
Proof using class_unordered.
  unfold Sort.Less, Sort.Swap.
  destruct (data !! S j) as [y|] eqn:Hy; [|done].
  destruct (data !! j) as [x|] eqn:Hx; [|done].
  intros Hlt. apply class_unordered in Hlt.
  assert (∃ l1 l2, data = l1 ++ x :: y :: l2 ∧ length l1 = j)
    as (l1 & l2 & -> & <-).
  { exists (firstn j data), (skipn (S (S j)) data). split.
    - rewrite <- (take_drop j data) at 1. f_equal.
      rewrite (drop_S _ x j Hx). f_equal.
      by rewrite (drop_S _ y (S j) Hy).
    - apply length_take_le. apply lookup_lt_Some in Hx. lia. }
  rewrite (insert_app_r_alt l1 _ (length l1)) by lia.
  rewrite Nat.sub_diag. cbn [insert list_insert].
  rewrite (insert_app_r_alt l1 _ (S (length l1))) by lia.
  replace (S (length l1) - length l1) with 1 by lia. cbn [insert list_insert].
  rewrite !filter_app, !filter_cons.
  destruct (decide (P x)), (decide (P y)); try done. tauto.
Qed.

Lemma insertionSort_inner_filter (data : list A) (a j : nat) :
  filter P (Sort.insertionSort_inner less data a j) = filter P data.
Proof using class_unordered.
  revert data. induction j as [|j IH]; intros data; [done|].
  cbn [Sort.insertionSort_inner].
  destruct ((a <? S j) && Sort.Less less data (S j) j) eqn:Hc; [|done].
  apply andb_true_iff in Hc as [_ Hlt].
  by rewrite IH, Swap_adjacent_filter.
Qed.

Lemma insertionSort_func_filter (data : list A) (a b : nat) :
  filter P (Sort.insertionSort_func less data a b) = filter P data.
Proof using class_unordered.
  unfold Sort.insertionSort_func.
  generalize (seq (a + 1) (b - (a + 1))). intros l. revert data.
  induction l as [|i l IH]; intros data; [done|].
  cbn [fold_left]. by rewrite IH, insertionSort_inner_filter.
Qed.

(** [sort.Slice] on at most twelve elements is the insertion sort. *)
Lemma Slice_short (x : list A) :
  length x ≤ 12 →
  Sort.Slice less x = Sort.insertionSort_func less x 0 (length x).
Proof.
  intros Hlen. unfold Sort.Slice, Sort.pdqsort_func.
  cbn [Sort.pdqsort_go]. rewrite Nat.sub_0_r.
  by destruct (Nat.leb_spec (length x) 12); [|lia].
Qed.

End StableInsertion.

(** X15. With at most twelve post files, [loadPosts] is stable: the posts
    of one raw date come back in the order the walk discovered them
    ([sort.Slice] sorts a slice of that length by insertion). *)
Theorem loadPosts_stable_upto_12 (os : OS) (posts : list Post) :
  loadPosts os = Ok posts →
  length (post_slugs os) ≤ 12 →
  ∃ discovered : list Post,
    Forall2 (λ s p, loadPost os s = Ok p) (post_slugs os) discovered
    ∧ discovery_order_kept discovered posts.
Proof.
  unfold loadPosts, WalkDir.
  destruct (WalkDir_loop _ _ _) as [discovered|e] eqn:Hw; [|done].
  intros [= <-] Hlen. apply loadPosts_walk in Hw as (_ & ps & Hps & ->).
  exists ps. split; [done|]. intros d. cbn [app].
  rewrite Slice_short by (by rewrite <- (Forall2_length _ _ _ Hps)).
  apply insertionSort_func_filter.
  intros x y Hlt [Hx Hy]. rewrite Hx, Hy in Hlt.
  by rewrite ltb_negb_leb, leb_refl in Hlt.
Qed.

(** Three posts of the same day. *)
Definition same_day_posts : OS :=
  directory
    [("posts/c.html", plain_post_file "C" "2024-01-01");
     ("posts/a.html", plain_post_file "A" "2024-01-01");
     ("posts/b.html", plain_post_file "B" "2024-01-01")]
    [].

Lemma loadPosts_stable_upto_12_witness :
  ∃ posts, loadPosts same_day_posts = Ok posts
    ∧ Slug <$> posts = ["c"; "a"; "b"]
    ∧ ∃ discovered : list Post,
        Forall2 (λ s p, loadPost same_day_posts s = Ok p)
          (post_slugs same_day_posts) discovered
        ∧ discovery_order_kept discovered posts.
Proof.
  destruct (loadPosts same_day_posts) as [posts|e] eqn:Hl;
    [|vm_compute in Hl; discriminate].
  exists posts. split; [reflexivity|]. split.
  - vm_compute in Hl. injection Hl as <-. reflexivity.
  - apply (loadPosts_stable_upto_12 same_day_posts posts Hl).
    vm_compute. lia.
Defined.

(** ** What the exporter renders *)

(** The templates executed in the course of some effects: where to, and on
    what data. *)
Definition rendered (h : list Effect) : list (Writer * PageData) :=
  omap (λ e, match e with
             | ExecuteTemplate w _ data => Some (w, data)
             | _ => None
             end) h.

(** The page of a post and the page of a collection, for both the exporter
    and the server. *)
Definition post_page (p : Post) : PageData :=
  PostPage (set_PageType p "post").

Definition collection_page (c : Coll.Collection) : PageData :=
  CollectionPage (set_CollectionPageType c "collection").

Definition index_page (posts : list Post) : PageData :=
  IndexPage {| Index.Title := ""; Index.Posts := posts;
               Index.PageType := "index" |}.

Definition collections_page (collections : list Coll.Collection) : PageData :=
  CollectionsPage {| Collections.Title := "Collections";
                     Collections.Collections := collections;
                     Collections.PageType := "collections" |}.

(** The pages of the site, in the order the exporter builds them: where
    each is written and the data it is rendered from. *)
Definition site_pages (posts : list Post)
    (collections : list Coll.Collection) : list (Writer * PageData) :=
  [(ToFile "dist/index.html", index_page posts)]
  ++ ((λ p, (ToFile ("dist/post/" +:+ Slug p +:+ "/index.html"),
             post_page p)) <$> posts)
  ++ [(ToFile "dist/collections/index.html", collections_page collections)]
  ++ ((λ c, (ToFile ("dist/collection/" +:+ Coll.Slug c +:+ "/index.html"),
             collection_page c)) <$> collections).

Section ExporterFacts.

Variable o : Oracle.
Variable os : OS.

Lemma rendered_app (h h' : list Effect) :
  rendered (h ++ h') = rendered h ++ rendered h'.
Proof. apply omap_app. Qed.

Lemma buildPage_rendered (h h' : list Effect)
    (out layout content : string) (data : PageData) :
  buildPage o h out layout content data = (h', None) →
  rendered h' = rendered h ++ [(ToFile out, data)].
Proof.
  unfold buildPage, call.
  destruct (o h _) as [e|]; [done|].
  destruct (o (h ++ _) (Create out)) as [e|]; [done|].
  intros [= <- _]. by rewrite !rendered_app, !app_nil_r.
Qed.

Lemma buildPosts_rendered (h h' : list Effect) (posts : list Post) :
  buildPosts o h posts = (h', None) →
  rendered h'
  = rendered h
    ++ ((λ p, (ToFile ("dist/post/" +:+ Slug p +:+ "/index.html"),
               post_page p)) <$> posts).
Proof.
  revert h. induction posts as [|p posts IH]; intros h.
  { cbn. intros [= <-]. by rewrite app_nil_r. }
  cbn [buildPosts].
  destruct (buildPage o _ _ _ _ _) as [h1 [e|]] eqn:Hp; [done|].
  intros Hrest%IH. apply buildPage_rendered in Hp.
  rewrite Hrest, Hp, rendered_app, app_nil_r, <- app_assoc.
  cbn [fmap list_fmap app Slug set_PageType].
  by rewrite !str_app_assoc.
Qed.

Lemma buildCollections_rendered (h h' : list Effect)
    (collections : list Coll.Collection) :
  buildCollections o h collections = (h', None) →
  rendered h'
  = rendered h
    ++ ((λ c, (ToFile ("dist/collection/" +:+ Coll.Slug c
                       +:+ "/index.html"),
               collection_page c)) <$> collections).
Proof.
  revert h. induction collections as [|c cs IH]; intros h.
  { cbn. intros [= <-]. by rewrite app_nil_r. }
  cbn [buildCollections].
  destruct (buildPage o _ _ _ _ _) as [h1 [e|]] eqn:Hp; [done|].
  intros Hrest%IH. apply buildPage_rendered in Hp.
  rewrite Hrest, Hp, rendered_app, app_nil_r, <- app_assoc.
  cbn [fmap list_fmap app Coll.Slug set_CollectionPageType].
  by rewrite !str_app_assoc.
Qed.

Lemma buildRSSFeed_rendered (h h' : list Effect) (out baseURL : string)
    (posts : list Post) (err : option error) :
  buildRSSFeed o h out baseURL posts = (h', err) →
  rendered h' = rendered h.
Proof.
  unfold buildRSSFeed, call.
  destruct (o h (Create out)) as [e|].
  - intros [= <- _]. by rewrite rendered_app, app_nil_r.
  - intros [= <- _]. by rewrite !rendered_app, !app_nil_r.
Qed.

End ExporterFacts.

(** X16. A build that returns no error has loaded the posts and the
    collections and executed the layout, in this order, on: the index with
    the posts; each post, with page type [post], into
    [dist/post/<slug>/index.html], in the order of [loadPosts]; the list of
    collections; each collection, with page type [collection], into
    [dist/collection/<slug>/index.html], in the order of
    [loadCollections]; and on nothing else. *)
Theorem buildStatic_pages (o : Oracle) (os : OS) (baseURL : string)
    (h : list Effect) :
  buildStatic o os baseURL = (h, None) →
  ∃ posts collections,
    loadPosts os = Ok posts
    ∧ loadCollections os = Ok collections
    ∧ rendered h = site_pages posts collections.
Proof.
  unfold buildStatic, site_pages.
  destruct (loadPosts os) as [posts|e]; [|done].
  destruct (loadCollections os) as [collections|e]; [|done].
  destruct (buildPage o _ _ _ _ _) as [h1 [e|]] eqn:H1; [done|].
  destruct (buildPosts o h1 posts) as [h2 [e|]] eqn:H2; [done|].
  destruct (buildPage o (h2 ++ _) _ _ _ _) as [h3 [e|]] eqn:H3; [done|].
  destruct (buildCollections o h3 collections) as [h4 [e|]] eqn:H4; [done|].
  destruct (buildRSSFeed o _ _ _ _) as [h5 [e|]] eqn:H5; [done|].
  unfold call.
  destruct (o _ (CopyDir _ _)) as [e|]; [done|].
  intros [= <-]. exists posts, collections. split; [done|]. split; [done|].
  apply buildPage_rendered in H1, H3.
  apply buildPosts_rendered in H2. apply buildCollections_rendered in H4.
  apply buildRSSFeed_rendered in H5.
  rewrite rendered_app in H5.
  rewrite rendered_app.
  match goal with
  | |- rendered ?x ++ _ = _ => assert (rendered x = rendered h5) as ->
  end.
  { destruct (o _ (Stat _)) as [e|].
    - rewrite !rendered_app. cbn. by rewrite !app_nil_r.
    - unfold copyFile, call.
      destruct (ReadFile os "robots.txt");
        cbn [fst]; rewrite !rendered_app; cbn; by rewrite !app_nil_r. }
  rewrite H5, H4, H3, rendered_app, H2, H1. cbn [rendered omap list_omap app].
  by rewrite !app_nil_r, <- !app_assoc.
Qed.

Lemma buildStatic_pages_witness :
  ∃ posts collections,
    loadPosts two_collections = Ok posts
    ∧ loadCollections two_collections = Ok collections
    ∧ rendered (buildStatic (λ _ _, None) two_collections
                  "https://example.com").1
      = site_pages posts collections.
Proof.
  apply (buildStatic_pages (λ _ _, None) two_collections
           "https://example.com").
  vm_compute. reflexivity.
Defined.

(** ** A build that fails *)

Section ExporterFailure.

Variable o : Oracle.
Variable os : OS.

Lemma buildPage_rendered_prefix (h h' : list Effect) (err : option error)
    (out layout content : string) (data : PageData) :
  buildPage o h out layout content data = (h', err) →
  ∃ l, rendered h' = rendered h ++ l ∧ l `prefix_of` [(ToFile out, data)].
Proof.
  unfold buildPage, call.
  destruct (o h _) as [e|].
  { intros [= <- _]. exists []. rewrite rendered_app. cbn.
    split; [done|apply prefix_nil]. }
  destruct (o (h ++ _) (Create out)) as [e|].
  { intros [= <- _]. exists []. rewrite !rendered_app. cbn.
    split; [by rewrite !app_nil_r|apply prefix_nil]. }
  intros [= <- _]. exists [(ToFile out, data)].
  rewrite !rendered_app. cbn. by rewrite !app_nil_r.
Qed.

Lemma buildPosts_rendered_prefix (h h' : list Effect) (err : option error)
    (posts : list Post) :
  buildPosts o h posts = (h', err) →
  ∃ l, rendered h' = rendered h ++ l
       ∧ l `prefix_of`
           ((λ p, (ToFile ("dist/post/" +:+ Slug p +:+ "/index.html"),
                   post_page p)) <$> posts).
Proof.
  revert h. induction posts as [|p posts IH]; intros h.
  { cbn. intros [= <- _]. exists []. by rewrite app_nil_r. }
  cbn [buildPosts].
  destruct (buildPage o _ _ _ _ _) as [h1 [e|]] eqn:Hp.
  - intros [= <- _]. apply buildPage_rendered_prefix in Hp as (l & Hl & Hpre).
    exists l. rewrite Hl, rendered_app. cbn. rewrite app_nil_r.
    split; [done|]. cbn [fmap list_fmap set_PageType Slug] in Hpre |- *.
    rewrite !str_app_assoc in Hpre.
    by apply (prefix_app_r _ [_] _).
  - intros (l & Hl & Hpre)%IH. apply buildPage_rendered in Hp.
    exists ((ToFile ("dist/post/" +:+ Slug p +:+ "/index.html"),
             post_page p) :: l).
    rewrite Hl, Hp, rendered_app. cbn.
    rewrite app_nil_r, <- app_assoc, !str_app_assoc.
    split; [done|]. by apply prefix_cons.
Qed.

Lemma buildCollections_rendered_prefix (h h' : list Effect)
    (err : option error) (collections : list Coll.Collection) :
  buildCollections o h collections = (h', err) →
  ∃ l, rendered h' = rendered h ++ l
       ∧ l `prefix_of`
           ((λ c, (ToFile ("dist/collection/" +:+ Coll.Slug c
                           +:+ "/index.html"),
                   collection_page c)) <$> collections).
Proof.
  revert h. induction collections as [|c collections IH]; intros h.
  { cbn. intros [= <- _]. exists []. by rewrite app_nil_r. }
  cbn [buildCollections].
  destruct (buildPage o _ _ _ _ _) as [h1 [e|]] eqn:Hp.
  - intros [= <- _]. apply buildPage_rendered_prefix in Hp as (l & Hl & Hpre).
    exists l. rewrite Hl, rendered_app. cbn. rewrite app_nil_r.
    split; [done|].
    cbn [fmap list_fmap set_CollectionPageType Coll.Slug] in Hpre |- *.
    rewrite !str_app_assoc in Hpre.
    by apply (prefix_app_r _ [_] _).
  - intros (l & Hl & Hpre)%IH. apply buildPage_rendered in Hp.
    exists ((ToFile ("dist/collection/" +:+ Coll.Slug c +:+ "/index.html"),
             collection_page c) :: l).
    rewrite Hl, Hp, rendered_app. cbn.
    rewrite app_nil_r, <- app_assoc, !str_app_assoc.
    split; [done|]. by apply prefix_cons.
Qed.

Lemma buildRSSFeed_rendered_any (h h' : list Effect) (err : option error)
    (out baseURL : string) (posts : list Post) :
  buildRSSFeed o h out baseURL posts = (h', err) →
  rendered h' = rendered h.
Proof.
  unfold buildRSSFeed, call.
  destruct (o h (Create out)) as [e|].
  - intros [= <- _]. rewrite rendered_app. cbn. by rewrite app_nil_r.
  - intros [= <- _]. rewrite !rendered_app. cbn. by rewrite !app_nil_r.
Qed.

End ExporterFailure.

(** X17. Whatever fails in a build, the pages whose layout was executed
    are the first pages of the site, in its order: no page is built after
    one that failed.  When the posts or the collections cannot be loaded,
    the output directory has been removed and made anew, and nothing else
    was done. *)
Theorem buildStatic_stops_at_failure (o : Oracle) (os : OS)
    (baseURL : string) :
  match loadPosts os, loadCollections os with
  | Ok posts, Ok collections =>
      rendered (buildStatic o os baseURL).1
        `prefix_of` site_pages posts collections
  | Err e, _ | _, Err e =>
      buildStatic o os baseURL
      = ([RemoveAll "dist"; MkdirAll "dist"], Some e)
  end.
Proof.
  unfold buildStatic, site_pages.
  destruct (loadPosts os) as [posts|e]; [|done].
  destruct (loadCollections os) as [collections|e]; [|done].
  destruct (buildPage o _ _ _ _ _) as [h1 e1] eqn:H1.
  pose proof (buildPage_rendered_prefix _ _ _ _ _ _ _ _ H1)
    as (l1 & Hl1 & Hp1).
  rewrite rendered_app in Hl1. cbn in Hl1.
  destruct e1 as [e|]; cbn [fst].
  { rewrite Hl1. by apply (prefix_app_r _ [_] _). }
  apply buildPage_rendered in H1. rewrite rendered_app in H1. cbn in H1.
  destruct (buildPosts o h1 posts) as [h2 e2] eqn:H2.
  pose proof (buildPosts_rendered_prefix _ _ _ _ _ H2) as (l2 & Hl2 & Hp2).
  destruct e2 as [e|]; cbn [fst].
  { rewrite Hl2, H1. apply (prefix_app [_]). by apply prefix_app_r. }
  apply buildPosts_rendered in H2.
  destruct (buildPage o (h2 ++ _) _ _ _ _) as [h3 e3] eqn:H3.
  pose proof (buildPage_rendered_prefix _ _ _ _ _ _ _ _ H3)
    as (l3 & Hl3 & Hp3).
  rewrite rendered_app in Hl3. cbn in Hl3. rewrite app_nil_r in Hl3.
  destruct e3 as [e|]; cbn [fst].
  { rewrite Hl3, H2, H1, <- app_assoc. apply (prefix_app [_]).
    apply prefix_app. by apply (prefix_app_r _ [_] _). }
  apply buildPage_rendered in H3.
  rewrite rendered_app in H3. cbn in H3. rewrite app_nil_r in H3.
  destruct (buildCollections o h3 collections) as [h4 e4] eqn:H4.
  pose proof (buildCollections_rendered_prefix _ _ _ _ _ H4)
    as (l4 & Hl4 & Hp4).
  destruct e4 as [e|]; cbn [fst].
  { rewrite Hl4, H3, H2, H1, <- !app_assoc. apply (prefix_app [_]).
    apply prefix_app. by apply (prefix_app [_]). }
  apply buildCollections_rendered in H4.
  assert (rendered h4
          = site_pages posts collections) as Hall.
  { unfold site_pages. by rewrite H4, H3, H2, H1, <- !app_assoc. }
  fold (site_pages posts collections). rewrite <- Hall.
  destruct (buildRSSFeed o _ _ _ _) as [h5 e5] eqn:H5.
  apply buildRSSFeed_rendered_any in H5.
  rewrite rendered_app in H5. cbn in H5. rewrite app_nil_r in H5.
  destruct e5 as [e|]; cbn [fst]; [by rewrite H5|].
  unfold call.
  destruct (o _ (CopyDir _ _)) as [e|]; cbn [fst].
  { rewrite !rendered_app. cbn. by rewrite !app_nil_r, H5. }
  destruct (o _ (Stat _)) as [e|].
  - rewrite !rendered_app. cbn. by rewrite !app_nil_r, H5.
  - unfold copyFile, call.
    destruct (ReadFile os "robots.txt");
      cbn [fst]; rewrite !rendered_app; cbn; by rewrite !app_nil_r, H5.
Qed.

(** ** What the server answers *)

Section ServerFacts.

Variable o : Oracle.
Variable os : OS.

(** A loaded post is the post of its own slug. *)
Lemma loadPosts_by_slug (posts : list Post) (p : Post) :
  loadPosts os = Ok posts → p ∈ posts → loadPost os (Slug p) = Ok p.
Proof.
  unfold loadPosts, WalkDir.
  destruct (WalkDir_loop _ _ _) as [ps|e] eqn:Hw; [|done].
  intros [= <-] Hin.
  apply loadPosts_walk in Hw as (_ & ps' & Hall & ->). cbn [app] in Hin.
  destruct (Slice_spec (λ pi pj : Post, String.ltb (RawDate pj) (RawDate pi))
              ps' (key_gtb_swo RawDate)) as [Hperm _].
  rewrite Hperm in Hin. apply list_elem_of_lookup in Hin as [i Hi].
  destruct (Forall2_lookup_r _ _ _ _ _ Hall Hi) as (s & _ & Hs).
  destruct (loadPost_Ok os _ _ Hs) as [content Hc].
  destruct (loadPost_fields os s content Hc) as (post & Hl & Hslug & _).
  assert (post = p) as -> by congruence. by rewrite Hslug.
Qed.

(** A loaded collection is the collection of its own slug. *)
Lemma loadCollections_by_slug (collections : list Coll.Collection)
    (c : Coll.Collection) :
  loadCollections os = Ok collections → c ∈ collections →
  loadCollection os (Coll.Slug c) = Ok c.
Proof.
  unfold loadCollections, WalkDir.
  destruct (WalkDir_loop _ _ _) as [cs|e] eqn:Hw; [|done].
  intros [= <-] Hin.
  apply loadCollections_walk in Hw as (cs' & Hall & ->). cbn [app] in Hin.
  destruct (Slice_spec
              (λ ci cj : Coll.Collection,
                 String.ltb (Coll.Title ci) (Coll.Title cj))
              cs' (key_ltb_swo Coll.Title)) as [Hperm _].
  rewrite Hperm in Hin. apply list_elem_of_lookup in Hin as [i Hi].
  destruct (Forall2_lookup_r _ _ _ _ _ Hall Hi) as (s & _ & Hs).
  destruct (loadCollection_fields os _ _ Hs) as (_ & _ & _ & _ & Hslug & _).
  by rewrite Hslug.
Qed.

Lemma TrimPrefix_app (pre s : string) : TrimPrefix (pre +:+ s) pre = s.
Proof.
  unfold TrimPrefix.
  assert (HasPrefix (pre +:+ s) pre = true) as ->.
  { apply HasPrefix_spec. by exists s. }
  apply str_drop_app.
Qed.

End ServerFacts.

(** What a page handler does once it has its data: it parses the layout
    and the content template and executes the layout on the response; a
    failure of either is answered with status 500. *)
Definition page_response (o : Oracle) (contentPath : string)
    (data : PageData) : list Effect :=
  let parse := ParseTemplates ["templates/layout.html"; contentPath] in
  let execute := ExecuteTemplate ToResponse "layout" data in
  match o [] parse with
  | Some err => [parse; Error err 500]
  | None =>
      match o [parse] execute with
      | Some err => [parse; execute; Error err 500]
      | None => [parse; execute]
      end
  end.

(** X18. The server renders a post from the data the exporter renders it
    from: for a post that [loadPosts] returns and whose slug is not empty,
    a request for [/post/<slug>] executes the layout on that post with page
    type [post].  A post file named [.html] has the empty slug: the
    exporter builds its page, the server answers 404. *)
Theorem handlePost_serves_loaded (o : Oracle) (os : OS)
    (posts : list Post) (p : Post) (r : Request) :
  loadPosts os = Ok posts → p ∈ posts →
  URLPath r = "/post/" +:+ Slug p →
  handlePost o os r
  = (if String.eqb (Slug p) "" then [NotFound]
     else page_response o "templates/post.html" (post_page p)).
Proof.
  intros Hl Hin Hpath. unfold handlePost.
  rewrite Hpath, TrimPrefix_app.
  destruct (String.eqb (Slug p) ""); [done|].
  rewrite (loadPosts_by_slug os posts p Hl Hin).
  unfold render, page_response, call, layoutPath, post_page. cbn [app].
  destruct (o [] _) as [e|]; [done|].
  by destruct (o _ _) as [e|].
Qed.

Lemma handlePost_serves_loaded_witness :
  ∃ posts p,
    loadPosts three_posts = Ok posts ∧ p ∈ posts ∧ Slug p = "b"
    ∧ handlePost (λ _ _, None) three_posts
           {| URLPath := "/post/b"; TLS := false; XForwardedProto := "";
              Host := "localhost:8080" |}
         = page_response (λ _ _, None) "templates/post.html" (post_page p).
Proof.
  destruct (loadPosts three_posts) as [posts|e] eqn:Hl;
    [|vm_compute in Hl; discriminate].
  assert (∃ p, posts !! 1 = Some p ∧ Slug p = "b") as (p & Hp & Hs).
  { vm_compute in Hl. injection Hl as <-. eexists. by split. }
  exists posts, p. split; [done|].
  split; [by apply list_elem_of_lookup_2 in Hp|]. split; [done|].
  pose proof (handlePost_serves_loaded (λ _ _, None) three_posts posts p
                {| URLPath := "/post/b"; TLS := false; XForwardedProto := "";
                   Host := "localhost:8080" |} Hl
                (list_elem_of_lookup_2 _ _ _ Hp)) as H.
  rewrite Hs in H. by apply H.
Defined.

(** X19. A request for a post is answered 404 exactly when the path,
    without its prefix [/post/], is empty or the post file of that name
    cannot be read; nothing else a post file lacks (a title, a date, its
    collection) makes the post missing. *)
Theorem handlePost_not_found (o : Oracle) (os : OS) (r : Request) :
  let slug := TrimPrefix (URLPath r) "/post/" in
  NotFound ∈ handlePost o os r ↔
  slug = ""
  ∨ ∃ e, ReadFile os (Filepath.Join "posts" (slug +:+ ".html")) = Err e.
Proof.
  cbv zeta. unfold handlePost.
  destruct (String.eqb_spec (TrimPrefix (URLPath r) "/post/") "")
    as [Hs|Hs].
  { split; [by left|]. intros _. apply list_elem_of_singleton. done. }
  destruct (loadPost os _) as [post|e] eqn:Hl.
  - split.
    + unfold render, call. cbn [app].
      destruct (o [] _) as [e|];
        [|destruct (o _ _) as [e|]];
        rewrite ?elem_of_cons, elem_of_nil; intuition discriminate.
    + intros [?|[e He]]; [done|].
      apply (loadPost_Err os) in He. congruence.
  - split; [|intros _; by apply list_elem_of_singleton].
    intros _. right. exists e. by apply loadPost_Err.
Qed.

(** X20. A request for a collection is answered 404 exactly when the
    path, without its prefix [/collection/], is empty, or the collection
    file of that name cannot be read, or the posts cannot be loaded: a
    failure that the index answers with status 500 is a missing page
    here. *)
Theorem handleCollection_not_found (o : Oracle) (os : OS) (r : Request) :
  let slug := TrimPrefix (URLPath r) "/collection/" in
  NotFound ∈ handleCollection o os r ↔
  slug = ""
  ∨ (∃ e, ReadFile os (Filepath.Join "collections" (slug +:+ ".html"))
          = Err e)
  ∨ (∃ e, loadPosts os = Err e).
Proof.
  cbv zeta. unfold handleCollection.
  destruct (String.eqb_spec (TrimPrefix (URLPath r) "/collection/") "")
    as [Hs|Hs].
  { split; [by left|]. intros _. by apply list_elem_of_singleton. }
  destruct (loadCollection os _) as [c|e] eqn:Hl.
  - apply loadCollection_fields in Hl
      as (content & posts & Hread & Hposts & _).
    split.
    + unfold render, call. cbn [app].
      destruct (o [] _) as [e|];
        [|destruct (o _ _) as [e|]];
        rewrite ?elem_of_cons, elem_of_nil; intuition discriminate.
    + intros [?|[[e He]|[e He]]]; [done|congruence|congruence].
  - split; [|intros _; by apply list_elem_of_singleton].
    intros _. right. unfold loadCollection in Hl.
    destruct (ReadFile os _) as [content|e']; [|left; by exists e'].
    destruct (loadPosts os) as [posts|e']; [done|right; by exists e'].
Qed.

(** X21. The server renders a collection from the data the exporter
    renders it from: for a collection that [loadCollections] returns and
    whose slug is not empty, a request for [/collection/<slug>] executes
    the layout on that collection with page type [collection]. *)
Theorem handleCollection_serves_loaded (o : Oracle) (os : OS)
    (collections : list Coll.Collection) (c : Coll.Collection)
    (r : Request) :
  loadCollections os = Ok collections → c ∈ collections →
  URLPath r = "/collection/" +:+ Coll.Slug c →
  handleCollection o os r
  = (if String.eqb (Coll.Slug c) "" then [NotFound]
     else page_response o "templates/collection.html" (collection_page c)).
Proof.
  intros Hl Hin Hpath. unfold handleCollection.
  rewrite Hpath, TrimPrefix_app.
  destruct (String.eqb (Coll.Slug c) ""); [done|].
  rewrite (loadCollections_by_slug os collections c Hl Hin).
  unfold render, page_response, call, layoutPath, collection_page.
  cbn [app].
  destruct (o [] _) as [e|]; [done|].
  by destruct (o _ _) as [e|].
Qed.

Lemma handleCollection_serves_loaded_witness :
  ∃ collections c,
    loadCollections two_collections = Ok collections ∧ c ∈ collections
    ∧ Coll.Slug c = "rust"
    ∧ handleCollection (λ _ _, None) two_collections
           {| URLPath := "/collection/rust"; TLS := false;
              XForwardedProto := ""; Host := "localhost:8080" |}
         = page_response (λ _ _, None) "templates/collection.html"
             (collection_page c).
Proof.
  destruct (loadCollections two_collections) as [cs|e] eqn:Hl;
    [|vm_compute in Hl; discriminate].
  assert (∃ c, cs !! 1 = Some c ∧ Coll.Slug c = "rust") as (c & Hc & Hs).
  { vm_compute in Hl. injection Hl as <-. eexists. by split. }
  exists cs, c. split; [done|].
  split; [by apply list_elem_of_lookup_2 in Hc|]. split; [done|].
  pose proof (handleCollection_serves_loaded (λ _ _, None) two_collections
                cs c
                {| URLPath := "/collection/rust"; TLS := false;
                   XForwardedProto := ""; Host := "localhost:8080" |} Hl
                (list_elem_of_lookup_2 _ _ _ Hc)) as H.
  rewrite Hs in H. by apply H.
Defined.

(** An effect that answers the request with an error status. *)
Definition answers (e : Effect) : bool :=
  match e with
  | NotFound | Error _ _ => true
  | _ => false
  end.

(** No effect but the last answers with an error. *)
Definition answers_last (h : list Effect) : Prop :=
  Forall (λ e, answers e = false) (removelast h).

Section AnswerFacts.

Variable o : Oracle.

Lemma render_answers_last (contentPath : string) (data : PageData) :
  answers_last (render o [] contentPath data).
Proof.
  unfold render, call, answers_last. cbn [app].
  destruct (o [] _) as [e|]; [by repeat constructor|].
  destruct (o _ _) as [e|]; by repeat constructor.
Qed.

End AnswerFacts.

(** X22. A handler answers a request with an error status (404 or 500) at
    most once, and does nothing after it: of what a handler does, only the
    last step can be such an answer. *)
Theorem handlers_answer_last (o : Oracle) (os : OS) (r : Request) :
  answers_last (handleIndex o os r)
  ∧ answers_last (handlePost o os r)
  ∧ answers_last (handleCollections o os r)
  ∧ answers_last (handleCollection o os r)
  ∧ answers_last (handleRSS o os r).
Proof.
  repeat split.
  - unfold handleIndex. destruct (negb _); [by constructor|].
    destruct (loadPosts os); [apply render_answers_last|by constructor].
  - unfold handlePost. destruct (String.eqb _ _); [by constructor|].
    destruct (loadPost os _); [apply render_answers_last|by constructor].
  - unfold handleCollections.
    destruct (loadCollections os);
      [apply render_answers_last|by constructor].
  - unfold handleCollection. destruct (String.eqb _ _); [by constructor|].
    destruct (loadCollection os _);
      [apply render_answers_last|by constructor].
  - unfold handleRSS, call, answers_last.
    destruct (loadPosts os); [|by constructor]. cbn [app].
    destruct (o _ _) as [e|]; by repeat constructor.
Qed.

(** ** The feed of the exporter and the feed of the server *)

(** The feeds encoded in the course of some effects, and where to. *)
Definition encoded (h : list Effect) : list (Writer * Rss.RSS) :=
  omap (λ e, match e with
             | EncodeFeed w feed => Some (w, feed)
             | _ => None
             end) h.

Section FeedFacts.

Variable o : Oracle.
Variable os : OS.

Lemma encoded_app (h h' : list Effect) :
  encoded (h ++ h') = encoded h ++ encoded h'.
Proof. apply omap_app. Qed.

Lemma buildPage_encoded (h h' : list Effect) (err : option error)
    (out layout content : string) (data : PageData) :
  buildPage o h out layout content data = (h', err) →
  encoded h' = encoded h.
Proof.
  unfold buildPage, call.
  destruct (o h _) as [e|].
  { intros [= <- _]. rewrite encoded_app. cbn. by rewrite app_nil_r. }
  destruct (o (h ++ _) (Create out)) as [e|].
  { intros [= <- _]. rewrite !encoded_app. cbn. by rewrite !app_nil_r. }
  intros [= <- _]. rewrite !encoded_app. cbn. by rewrite !app_nil_r.
Qed.

Lemma buildPosts_encoded (h h' : list Effect) (err : option error)
    (posts : list Post) :
  buildPosts o h posts = (h', err) → encoded h' = encoded h.
Proof.
  revert h. induction posts as [|p posts IH]; intros h.
  { cbn. by intros [= <- _]. }
  cbn [buildPosts].
  destruct (buildPage o _ _ _ _ _) as [h1 [e|]] eqn:Hp;
    apply buildPage_encoded in Hp; rewrite encoded_app in Hp; cbn in Hp;
    rewrite app_nil_r in Hp.
  - by intros [= <- _].
  - intros ->%IH. done.
Qed.

Lemma buildCollections_encoded (h h' : list Effect) (err : option error)
    (collections : list Coll.Collection) :
  buildCollections o h collections = (h', err) → encoded h' = encoded h.
Proof.
  revert h. induction collections as [|c collections IH]; intros h.
  { cbn. by intros [= <- _]. }
  cbn [buildCollections].
  destruct (buildPage o _ _ _ _ _) as [h1 [e|]] eqn:Hp;
    apply buildPage_encoded in Hp; rewrite encoded_app in Hp; cbn in Hp;
    rewrite app_nil_r in Hp.
  - by intros [= <- _].
  - intros ->%IH. done.
Qed.

Lemma buildRSSFeed_encoded (h h' : list Effect)
    (out baseURL : string) (posts : list Post) :
  buildRSSFeed o h out baseURL posts = (h', None) →
  encoded h'
  = encoded h ++ [(ToFile out, rssFeed baseURL (feedItem baseURL <$> posts))].
Proof.
  unfold buildRSSFeed, call, buildRSSFeed_items.
  rewrite (feed_items_map baseURL posts []). cbn [app].
  destruct (o h (Create out)) as [e|]; [done|].
  intros [= <- _]. rewrite !encoded_app. cbn. by rewrite !app_nil_r.
Qed.

End FeedFacts.

(** The base URL [handleRSS] reads off a request. *)
Definition request_base (r : Request) : string :=
  (if TLS r || String.eqb (XForwardedProto r) "https"
   then "https" else "http") +:+ "://" +:+ Host r.

(** X23. The exporter and the server publish the same feed.  A build that
    returns no error encodes one feed, into [dist/feed.xml]: the channel
    BreakLab with one item per post, in the order of [loadPosts].  Built
    for the base URL of a request ([https] when it came over TLS or was
    forwarded as such, [http] otherwise, and the host), it is the feed the
    server encodes in answer to that request. *)
Theorem feed_exported_as_served (o o' : Oracle) (os : OS) (r : Request)
    (h : list Effect) :
  buildStatic o os (request_base r) = (h, None) →
  ∃ posts,
    loadPosts os = Ok posts
    ∧ encoded h
      = [(ToFile "dist/feed.xml",
          rssFeed (request_base r) (feedItem (request_base r) <$> posts))]
    ∧ encoded (handleRSS o' os r)
      = [(ToResponse,
          rssFeed (request_base r) (feedItem (request_base r) <$> posts))].
Proof.
  unfold buildStatic, handleRSS.
  destruct (loadPosts os) as [posts|e]; [|done].
  destruct (loadCollections os) as [collections|e]; [|done].
  destruct (buildPage o _ _ _ _ _) as [h1 [e|]] eqn:H1; [done|].
  destruct (buildPosts o h1 posts) as [h2 [e|]] eqn:H2; [done|].
  destruct (buildPage o (h2 ++ _) _ _ _ _) as [h3 [e|]] eqn:H3; [done|].
  destruct (buildCollections o h3 collections) as [h4 [e|]] eqn:H4; [done|].
  destruct (buildRSSFeed o _ _ _ _) as [h5 [e|]] eqn:H5; [done|].
  unfold call.
  destruct (o _ (CopyDir _ _)) as [e|]; [done|].
  intros [= <-]. exists posts. split; [done|].
  apply buildPage_encoded in H1, H3.
  apply buildPosts_encoded in H2. apply buildCollections_encoded in H4.
  apply buildRSSFeed_encoded in H5.
  rewrite encoded_app in H1, H3, H5. cbn in H1, H3, H5.
  rewrite app_nil_r in H3, H5.
  split.
  - rewrite encoded_app.
    match goal with
    | |- encoded ?x ++ _ = _ => assert (encoded x = encoded h5) as ->
    end.
    { destruct (o _ (Stat _)) as [e|].
      - rewrite !encoded_app. cbn. by rewrite !app_nil_r.
      - unfold copyFile, call.
        destruct (ReadFile os "robots.txt");
          cbn [fst]; rewrite !encoded_app; cbn; by rewrite !app_nil_r. }
    rewrite H5, H4, H3, H2, H1. cbn. done.
  - unfold handleRSS_items. rewrite (feed_items_map _ posts []).
    fold (request_base r). cbn [app].
    destruct (o' _ _) as [e|]; done.
Qed.

Lemma feed_exported_as_served_witness :
  let r := {| URLPath := "/feed.xml"; TLS := false;
              XForwardedProto := "https"; Host := "example.com" |} in
  ∃ posts,
    loadPosts two_collections = Ok posts
    ∧ encoded (buildStatic (λ _ _, None) two_collections
                 "https://example.com").1
      = [(ToFile "dist/feed.xml",
          rssFeed "https://example.com"
            (feedItem "https://example.com" <$> posts))]
    ∧ encoded (handleRSS (λ _ _, None) two_collections r)
      = [(ToResponse,
          rssFeed "https://example.com"
            (feedItem "https://example.com" <$> posts))].
Proof.
  apply (feed_exported_as_served (λ _ _, None) (λ _ _, None)
           two_collections
           {| URLPath := "/feed.xml"; TLS := false;
              XForwardedProto := "https"; Host := "example.com" |}).
  vm_compute. reflexivity.
Defined.

(** ** The colour of a tag *)

(** The sum of the bytes of a string. *)
Definition byte_sum (s : string) : Z :=
  foldr Z.add 0%Z
    ((λ c, Z.of_nat (nat_of_ascii c)) <$> list_ascii_of_string s).

Definition is_ascii (s : string) : Prop :=
  Forall (λ c, (nat_of_ascii c < 128)%nat) (list_ascii_of_string s).

Section HashFacts.

Local Open Scope Z_scope.

(** The largest hash of [k] bytes below 128. *)
Fixpoint hash_bound (k : nat) : Z :=
  match k with
  | O => 0
  | S k => 31 * hash_bound k + 127
  end.

Lemma hash_bound_6 (k : nat) : (k ≤ 6)%nat → hash_bound k < 2 ^ 32.
Proof.
  intros Hk. do 7 (destruct k as [|k]; [by vm_compute|]). lia.
Qed.

Lemma range_loop_ascii (bs : list Z) :
  Forall (λ b, b < 128) bs → Utf8.range_loop 0 bs = bs.
Proof.
  induction 1 as [|b bs Hb _ IH]; [done|].
  cbn [Utf8.range_loop]. unfold Utf8.runeSelf.
  destruct (Z.ltb_spec b 128); [|lia]. by rewrite IH.
Qed.

Lemma hash_no_wrap (bs : list Z) (acc : Z) (k : nat) :
  Forall (λ b, 0 ≤ b < 128) bs →
  (length bs + k ≤ 6)%nat →
  0 ≤ acc ≤ hash_bound k →
  fold_left (λ hash c, (hash * 31 + c) mod 2 ^ 32) bs acc mod 5
  = (acc + foldr Z.add 0 bs) mod 5.
Proof.
  intros Hbs. revert acc k.
  induction Hbs as [|b bs Hb _ IH]; intros acc k Hlen Hacc.
  { cbn. by rewrite Z.add_0_r. }
  cbn [fold_left foldr length] in *.
  pose proof (hash_bound_6 (S k) ltac:(lia)) as Hk.
  cbn [hash_bound] in Hk.
  rewrite (Z.mod_small (acc * 31 + b)) by lia.
  rewrite (IH _ (S k)) by (cbn [hash_bound]; lia).
  replace (acc * 31 + b + foldr Z.add 0 bs)
    with (acc + (b + foldr Z.add 0 bs) + acc * 6 * 5) by lia.
  apply Z.mod_add. lia.
Qed.

End HashFacts.

(** X24. The colour of a string is one of the five numbers 0 to 4,
    whatever its bytes.  For a string of at most six bytes, all of them
    ASCII, the 32-bit hash does not wrap around and the colour is the sum
    of the bytes modulo 5: it does not depend on their order. *)
Theorem hashColor_short (s : string) :
  (0 ≤ hashColor s < 5)%Z
  ∧ (is_ascii s → String.length s ≤ 6 →
     hashColor s = (byte_sum s mod 5)%Z).
Proof.
  split; [apply Z.mod_pos_bound; lia|].
  intros Hascii Hlen. unfold hashColor, Utf8.range, byte_sum.
  assert (Forall (λ b, 0 ≤ b < 128)%Z
            ((λ c, Z.of_nat (nat_of_ascii c)) <$> list_ascii_of_string s))
    as Hbs.
  { apply Forall_fmap. eapply Forall_impl; [exact Hascii|].
    intros c Hc. unfold compose. cbv beta in Hc |- *. lia. }
  rewrite range_loop_ascii
    by (eapply Forall_impl; [exact Hbs|]; cbv beta; intros; lia).
  rewrite (hash_no_wrap _ 0 0 Hbs); [done| |done].
  rewrite length_fmap, Nat.add_0_r.
  replace (length (list_ascii_of_string s)) with (String.length s); [done|].
  clear. induction s; cbn; congruence.
Qed.

Lemma hashColor_short_witness :
  hashColor "golang" = (byte_sum "golang" mod 5)%Z.
Proof.
  apply (proj2 (hashColor_short "golang")).
  - unfold is_ascii. cbn. repeat constructor.
  - cbn. lia.
Defined.

(** Seven bytes can wrap the hash around, and the colour is then no longer
    the sum of the bytes. *)
Example hashColor_seven :
  hashColor "zzzzzzz" ≠ (byte_sum "zzzzzzz" mod 5)%Z.
Proof. by vm_compute. Qed.
